(** * job_bot: the Lever link processor, location classifier, posting parser
      and record store of [job_site.py], embedded in Rocq.

    Python [str] values are modelled as [string]; a character is a code point
    below 256, so [len] is [String.length].  Python [None] is [None] of an
    [option]; an exception that the source catches is the left injection of
    [result]. *)

From Stdlib Require Import String Ascii List Bool Arith Lia Permutation Sorted ZArith.
Import ListNotations.
Open Scope list_scope.
Open Scope string_scope.

(* ------------------------------------------------------------------------- *)
(** ** Python string primitives used by [job_site.py] *)
(* ------------------------------------------------------------------------- *)

(** [sub in s] on two strings. *)
Fixpoint str_in (sub s : string) : bool :=
  prefix sub s ||
  match s with
  | EmptyString => false
  | String _ s' => str_in sub s'
  end.

(** [s[:n]]. *)
Definition slice_to (n : nat) (s : string) : string := substring 0 n s.

(** The scan of [str.replace] for a non-empty [old]: left to right, without
    overlaps.  [skip] counts the characters of a matched occurrence that are
    still to be jumped over. *)
Fixpoint replace_from (old new : string) (skip : nat) (s : string) : string :=
  match s with
  | EmptyString => EmptyString
  | String c s' =>
      match skip with
      | S k => replace_from old new k s'
      | O =>
          if prefix old s
          then new ++ replace_from old new (String.length old - 1) s'
          else String c (replace_from old new 0 s')
      end
  end.

(** An empty [old] matches between every two characters and at both ends. *)
Fixpoint interleave (new s : string) : string :=
  match s with
  | EmptyString => new
  | String c s' => new ++ String c (interleave new s')
  end.

(** [s.replace(old, new)]. *)
Definition replace (old new s : string) : string :=
  match old with
  | EmptyString => interleave new s
  | String _ _ => replace_from old new 0 s
  end.

(** [s.split(sep)] for a one-character separator; the result is never empty. *)
Fixpoint split (sep : ascii) (s : string) : list string :=
  match s with
  | EmptyString => [EmptyString]
  | String c s' =>
      if Ascii.eqb c sep then EmptyString :: split sep s'
      else match split sep s' with
           | seg :: segs => String c seg :: segs
           | [] => [String c EmptyString]
           end
  end.

(** [c.lower()] on code points below 256: A-Z, and the Latin-1 capitals
    192-222 other than the multiplication sign 215. *)
Definition lower_char (c : ascii) : ascii :=
  let n := nat_of_ascii c in
  if (((65 <=? n) && (n <=? 90)) ||
      ((192 <=? n) && (n <=? 222) && negb (n =? 215)))%nat
  then ascii_of_nat (n + 32) else c.

(** [s.lower()]. *)
Fixpoint lower (s : string) : string :=
  match s with
  | EmptyString => EmptyString
  | String c s' => String (lower_char c) (lower s')
  end.

(** [c.isspace()] on code points below 256. *)
Definition is_space (c : ascii) : bool :=
  let n := nat_of_ascii c in
  (((9 <=? n) && (n <=? 13)) || ((28 <=? n) && (n <=? 32)) ||
   (n =? 133) || (n =? 160))%nat.

(** [s.lstrip()]. *)
Fixpoint lstrip (s : string) : string :=
  match s with
  | EmptyString => EmptyString
  | String c s' => if is_space c then lstrip s' else s
  end.

(** Drop the trailing characters that satisfy [p]. *)
Fixpoint rstrip_with (p : ascii -> bool) (s : string) : string :=
  match s with
  | EmptyString => EmptyString
  | String c s' =>
      match rstrip_with p s' with
      | EmptyString => if p c then EmptyString else String c EmptyString
      | t => String c t
      end
  end.

(** [s.strip()]. *)
Definition strip (s : string) : string := rstrip_with is_space (lstrip s).

(** [s.rstrip('/')]. *)
Definition rstrip_slash (s : string) : string := rstrip_with (Ascii.eqb "/"%char) s.

(** [s[-1]]; [None] stands for the [IndexError] of an empty [s]. *)
Fixpoint str_last (s : string) : option ascii :=
  match s with
  | EmptyString => None
  | String c EmptyString => Some c
  | String _ s' => str_last s'
  end.

(** [c in s] for a character [c]. *)
Fixpoint char_in (c : ascii) (s : string) : bool :=
  match s with
  | EmptyString => false
  | String d s' => Ascii.eqb c d || char_in c s'
  end.

(* ------------------------------------------------------------------------- *)
(** ** Lever: link validation and processing *)
(* ------------------------------------------------------------------------- *)

(** [Lever.__init__]: [url='lever.co']. *)
Definition Lever_url : string := "lever.co".

(** The literal that [_validate_link] removes before counting segments. *)
Definition canonical_prefix : string := "https://jobs.lever.co/".

(** [Lever._validate_link], with [self.url] as [url].  A [None] link is falsy
    like the empty string. *)
Definition _validate_link (url link : string) : bool :=
  if negb (link =? "") then
    if (String.length url <? String.length link)%nat then
      if str_in url (slice_to (String.length url) link) then
        if negb (str_in "/?q=" link) then
          if (1 <? List.length (split "/" (replace canonical_prefix "" link)))%nat
          then true else false
        else false
      else false
    else false
  else false.

(** The record [{'desc': ..., 'apply': ...}]. *)
Record LinkRecord : Type := mkLink {
  link_desc : option string;
  link_apply : option string
}.

(** The body of the loop of [_process_links] for a link that passed
    validation.  Such a link is non-empty, so [iLink[-1]] does not raise. *)
Definition link_record (iLink : string) : LinkRecord :=
  if negb (lower (last (split "/" iLink) "") =? "apply") then
    let iLink1 :=
      match str_last iLink with
      | Some c => if negb (Ascii.eqb c "/") then iLink ++ "/" else iLink
      | None => iLink
      end in
    let iLink2 := iLink1 ++ "apply" in
    {| link_desc := Some iLink; link_apply := Some iLink2 |}
  else
    {| link_desc := Some (replace "apply" "" iLink); link_apply := Some iLink |}.

(** [Lever._process_links]. *)
Fixpoint _process_links (url : string) (links : list string) : list LinkRecord :=
  match links with
  | [] => []
  | iLink :: rest =>
      if _validate_link url iLink
      then link_record iLink :: _process_links url rest
      else _process_links url rest
  end.

(** The suffix that [_process_links] appends to a description link. *)
Definition apply_suffix (iLink : string) : string :=
  match str_last iLink with
  | Some c => if Ascii.eqb c "/" then "apply" else "/apply"
  | None => "apply"
  end.

(* ------------------------------------------------------------------------- *)
(** ** Lever: location classification *)
(* ------------------------------------------------------------------------- *)

(** The five arrays read from [files/helpers/*.csv] at the start of
    [save_job_info].  The files are data of a deployment; every statement
    below holds for arbitrary tables. *)
Record ReferenceTables : Type := mkTables {
  us_states_full : list string;
  us_states_abbreviated : list string;
  us_cities : list string;
  non_us_cities : list string;
  foreign_countries : list string
}.

(** [Lever._check_if_exists_in_array]: [np.where(array == value)[0].size] is
    non-zero exactly when some cell of the array equals the value. *)
Definition _check_if_exists_in_array (value_to_check : string) (array : list string) : bool :=
  existsb (String.eqb value_to_check) array.

(** [Lever._validate_location_in_usa]; [None] is Python's [None]. *)
Fixpoint _validate_location_in_usa (locations : list string) (T : ReferenceTables)
  : option bool :=
  match locations with
  | [] => None
  | iLocation :: rest =>
      if ((String.length iLocation =? 2)%nat
          && _check_if_exists_in_array iLocation (us_states_abbreviated T))%bool
      then Some true
      else if _check_if_exists_in_array iLocation (foreign_countries T) then Some false
      else if _check_if_exists_in_array iLocation (us_states_full T) then Some true
      else if _check_if_exists_in_array iLocation (us_cities T) then Some true
      else if _check_if_exists_in_array iLocation (non_us_cities T) then Some false
      else _validate_location_in_usa rest T
  end.

(** Rule (a): a two-letter token that is in the abbreviated-states table. *)
Definition matches_abbreviated (T : ReferenceTables) (t : string) : Prop :=
  String.length t = 2 /\ In t (us_states_abbreviated T).

(** None of the five rules fires on the token. *)
Definition no_rule_matches (T : ReferenceTables) (t : string) : Prop :=
  ~ matches_abbreviated T t /\
  ~ In t (foreign_countries T) /\
  ~ In t (us_states_full T) /\
  ~ In t (us_cities T) /\
  ~ In t (non_us_cities T).

(** The token is in none of the five tables. *)
Definition in_no_table (T : ReferenceTables) (t : string) : Prop :=
  ~ In t (us_states_abbreviated T) /\
  ~ In t (foreign_countries T) /\
  ~ In t (us_states_full T) /\
  ~ In t (us_cities T) /\
  ~ In t (non_us_cities T).

(** The gate of [save_job_info]: [if is_usa is True]. *)
Definition is_True (is_usa : option bool) : bool :=
  match is_usa with
  | Some true => true
  | _ => false
  end.

(* ------------------------------------------------------------------------- *)
(** ** _LeverJob: cleaning of description and qualification items *)
(* ------------------------------------------------------------------------- *)

(** The Python literal ['\\xa0']: a backslash followed by [xa0]. *)
Definition xa0_literal : string := String (ascii_of_nat 92) "xa0".

(** The expression of the comprehension of [_clean_desc_and_qual]. *)
Definition clean_item (j : string) : string :=
  replace "]" "" (replace "[" "" (replace xa0_literal " " j)).

(** The double quote character. *)
Definition dquote : string := String (ascii_of_nat 34) "".

(** [_LeverJob._clean_desc_and_qual] on the texts of the list items: the
    comprehension filters on the raw text [j], then the loop appends each
    cleaned item followed by a space. *)
Definition _clean_desc_and_qual (desc_or_qual : list string) : string :=
  let raw_string :=
    map clean_item (filter (fun j => (3 <? String.length j)%nat) desc_or_qual) in
  fold_left (fun clean_string iString => clean_string ++ replace dquote "" iString ++ " ")
            raw_string "".

(* ------------------------------------------------------------------------- *)
(** ** Exceptions *)
(* ------------------------------------------------------------------------- *)

(** The exceptions raised by the modelled steps. *)
Inductive exn : Type :=
| AttributeError   (* [None.text] *)
| IndexError       (* list index out of range *)
| ValueError       (* [float] of a malformed literal *)
| FileExistsError  (* [open(..., 'x')] on an existing file *)
| URLError.        (* any failure of [urlopen] or of the HTML parser *)

(** A computation that returns or raises. *)
Definition result (A : Type) : Type := (exn + A)%type.

Definition ret {A} (a : A) : result A := inr a.
Definition raise {A} (e : exn) : result A := inl e.
Definition bind {A B} (m : result A) (k : A -> result B) : result B :=
  match m with
  | inl e => inl e
  | inr a => k a
  end.

Notation "x <- m ;; k" := (bind m (fun x => k))
  (at level 61, m at next level, right associativity).

(** [for x in xs: f(x)] collecting results; the first exception escapes. *)
Fixpoint mapM {A B} (f : A -> result B) (xs : list A) : result (list B) :=
  match xs with
  | [] => ret []
  | x :: xs' => y <- f x ;; ys <- mapM f xs' ;; ret (y :: ys)
  end.

(** [tag.text] where [tag] is the result of a [find]: [None] has no
    attribute [text]. *)
Definition text_of (tag : option string) : result string :=
  match tag with
  | Some t => ret t
  | None => raise AttributeError
  end.

(** [l[i]]. *)
Definition index {A} (l : list A) (i : nat) : result A :=
  match nth_error l i with
  | Some a => ret a
  | None => raise IndexError
  end.

(* ------------------------------------------------------------------------- *)
(** ** _LeverJob: the posting parser *)
(* ------------------------------------------------------------------------- *)

(** What the parser reads of a BeautifulSoup document: the text of each
    region it looks up with [find] ([None] when the region is missing), and
    for every [div] of class [section page-centered] the texts of its
    [li] items. *)
Record Page : Type := mkPage {
  title_tag : option string;
  div_location : option string;
  div_department : option string;
  div_commitment : option string;
  div_workplaceTypes : option string;
  sections : list (list string);
  salary_range : option string;
  closing_description : option string
}.

Section Parser.

(** Python's [float] type, the builtin [float(str)] ([ValueError] as
    [None]) and the comparison [<] on floats, which [list.sort] uses. *)
Variable F : Type.
Variable float_of : string -> option F.
Variable ltb : F -> F -> bool.

(** [float(s)]. *)
Definition float (s : string) : result F :=
  match float_of s with
  | Some x => ret x
  | None => raise ValueError
  end.

(** The attributes of a [_LeverJob] instance. *)
Record LeverJob : Type := mkJob {
  job_page_source : Page;
  location : option string;
  company : option string;
  title : option string;
  team : option string;
  hours : option string;
  wfh : option string;
  min_salary : option F;
  max_salary : option F;
  desc : option string;
  qual : option string;
  posting : option string;
  apply : option string;
  scraped : string
}.

(** [_LeverJob.__init__]; [today] is [datetime.today().strftime(...)]. *)
Definition LeverJob_init (page : Page) (description_link apply_link : option string)
           (today : string) : LeverJob :=
  {| job_page_source := page; location := None; company := None; title := None;
     team := None; hours := None; wfh := None; min_salary := None;
     max_salary := None; desc := None; qual := None;
     posting := description_link; apply := apply_link; scraped := today |}.

(** Attribute assignments [self.x = v]. *)
Definition set_location (v : option string) (self : LeverJob) : LeverJob :=
  mkJob (job_page_source self) v (company self) (title self) (team self) (hours self)
        (wfh self) (min_salary self) (max_salary self) (desc self) (qual self)
        (posting self) (apply self) (scraped self).
Definition set_company (v : option string) (self : LeverJob) : LeverJob :=
  mkJob (job_page_source self) (location self) v (title self) (team self) (hours self)
        (wfh self) (min_salary self) (max_salary self) (desc self) (qual self)
        (posting self) (apply self) (scraped self).
Definition set_title (v : option string) (self : LeverJob) : LeverJob :=
  mkJob (job_page_source self) (location self) (company self) v (team self) (hours self)
        (wfh self) (min_salary self) (max_salary self) (desc self) (qual self)
        (posting self) (apply self) (scraped self).
Definition set_team (v : option string) (self : LeverJob) : LeverJob :=
  mkJob (job_page_source self) (location self) (company self) (title self) v (hours self)
        (wfh self) (min_salary self) (max_salary self) (desc self) (qual self)
        (posting self) (apply self) (scraped self).
Definition set_hours (v : option string) (self : LeverJob) : LeverJob :=
  mkJob (job_page_source self) (location self) (company self) (title self) (team self) v
        (wfh self) (min_salary self) (max_salary self) (desc self) (qual self)
        (posting self) (apply self) (scraped self).
Definition set_wfh (v : option string) (self : LeverJob) : LeverJob :=
  mkJob (job_page_source self) (location self) (company self) (title self) (team self)
        (hours self) v (min_salary self) (max_salary self) (desc self) (qual self)
        (posting self) (apply self) (scraped self).
Definition set_min_salary (v : option F) (self : LeverJob) : LeverJob :=
  mkJob (job_page_source self) (location self) (company self) (title self) (team self)
        (hours self) (wfh self) v (max_salary self) (desc self) (qual self)
        (posting self) (apply self) (scraped self).
Definition set_max_salary (v : option F) (self : LeverJob) : LeverJob :=
  mkJob (job_page_source self) (location self) (company self) (title self) (team self)
        (hours self) (wfh self) (min_salary self) v (desc self) (qual self)
        (posting self) (apply self) (scraped self).
Definition set_desc (v : option string) (self : LeverJob) : LeverJob :=
  mkJob (job_page_source self) (location self) (company self) (title self) (team self)
        (hours self) (wfh self) (min_salary self) (max_salary self) v (qual self)
        (posting self) (apply self) (scraped self).
Definition set_qual (v : option string) (self : LeverJob) : LeverJob :=
  mkJob (job_page_source self) (location self) (company self) (title self) (team self)
        (hours self) (wfh self) (min_salary self) (max_salary self) (desc self) v
        (posting self) (apply self) (scraped self).

(** [try: self.x = body  except: self.x = None], for an attribute setter. *)
Definition try_assign {A} (set : option A -> LeverJob -> LeverJob)
           (body : result A) (self : LeverJob) : LeverJob :=
  match body with
  | inr v => set (Some v) self
  | inl _ => set None self
  end.

(** [_LeverJob._parse_using_title_tag].  A [Tag] is always truthy, so
    [if header_text] tests for [None]. *)
Definition _parse_using_title_tag (self : LeverJob) : LeverJob :=
  match title_tag (job_page_source self) with
  | Some header_text =>
      let self1 :=
        try_assign set_company (s <- index (split "-" header_text) 0 ;; ret (strip s)) self in
      let self2 :=
        try_assign set_title (ret (strip (last (split "-" header_text) ""))) self1 in
      if str_in "remote" (lower header_text)
      then set_location (Some "Remote") self2
      else self2
  | None => self
  end.

(** [_LeverJob._parse_location]. *)
Definition _parse_location (self : LeverJob) : LeverJob :=
  match location self with
  | None =>
      try_assign set_location
        (t <- text_of (div_location (job_page_source self)) ;; ret (rstrip_slash t)) self
  | Some _ => self
  end.

(** [_LeverJob._parse_team]. *)
Definition _parse_team (self : LeverJob) : LeverJob :=
  try_assign set_team
    (t <- text_of (div_department (job_page_source self)) ;; ret (rstrip_slash t)) self.

(** [_LeverJob._parse_hours]. *)
Definition _parse_hours (self : LeverJob) : LeverJob :=
  try_assign set_hours
    (t <- text_of (div_commitment (job_page_source self)) ;; ret (rstrip_slash t)) self.

(** [_LeverJob._parse_wfh]. *)
Definition _parse_wfh (self : LeverJob) : LeverJob :=
  try_assign set_wfh
    (t <- text_of (div_workplaceTypes (job_page_source self)) ;; ret (rstrip_slash t)) self.

(** [_LeverJob._parse_desc_and_qual]; [find_all] does not raise. *)
Definition _parse_desc_and_qual (self : LeverJob) : LeverJob :=
  let posting_info := sections (job_page_source self) in
  let self1 :=
    try_assign set_desc
      (lis <- index posting_info 1 ;; ret (_clean_desc_and_qual lis)) self in
  try_assign set_qual
    (lis <- index posting_info 2 ;; ret (_clean_desc_and_qual lis)) self1.

(** The expression of the comprehension of [_clean_money_string]. *)
Definition clean_money_token (i : string) : string :=
  replace "-" "" (replace "." "" (replace "$" "" (replace "," "" i))).

(** [_LeverJob._clean_money_string] on the text of the section. *)
Definition _clean_money_string (money_string : string) : result (list F) :=
  mapM (fun i => float (clean_money_token i))
       (filter (str_in "$") (split " " money_string)).

(** Insertion into a list in descending order, after every element that
    is larger and before the first that is not. *)
Fixpoint insert_desc (x : F) (l : list F) : list F :=
  match l with
  | [] => [x]
  | y :: l' => if ltb x y then y :: insert_desc x l' else x :: y :: l'
  end.

(** [l.sort(reverse=True)]: a stable descending sort by [<].  This is the
    list that Python returns whenever [<] is a strict weak order on the
    elements of [l]; that excludes NaN, on which the result of
    [list.sort] depends on the sorting algorithm.  What is proved of the
    sorted values beyond their being a rearrangement of [l] is stated
    under that condition. *)
Definition sort_reverse (l : list F) : list F := fold_right insert_desc [] l.

(** The body of the [try] of [_parse_salary]. *)
Definition parse_salary_body (self : LeverJob) : result LeverJob :=
  salary <-
    match salary_range (job_page_source self) with
    | Some potential_salary => _clean_money_string potential_salary
    | None =>
        match closing_description (job_page_source self) with
        | Some closing_paragraph => _clean_money_string closing_paragraph
        | None => ret []
        end
    end ;;
  if (1 <? List.length salary)%nat then
    match sort_reverse salary with
    | s0 :: s1 :: _ => ret (set_min_salary (Some s1) (set_max_salary (Some s0) self))
    | _ => raise IndexError
    end
  else ret self.

(** [_LeverJob._parse_salary]. *)
Definition _parse_salary (self : LeverJob) : LeverJob :=
  match parse_salary_body self with
  | inr self' => self'
  | inl _ => set_min_salary None (set_max_salary None self)
  end.

(** The dictionary returned by [_record_of_details]. *)
Record PostingRecord : Type := mkPosting {
  rec_company : option string;
  rec_title : option string;
  rec_team : option string;
  rec_location : option string;
  rec_hours : option string;
  rec_wfh : option string;
  rec_min_salary : option F;
  rec_max_salary : option F;
  rec_desc : option string;
  rec_qual : option string;
  rec_posting : option string;
  rec_apply : option string;
  rec_scraped : string;
  rec_applied : bool
}.

(** [_LeverJob._record_of_details]. *)
Definition _record_of_details (self : LeverJob) : PostingRecord :=
  {| rec_company := company self; rec_title := title self; rec_team := team self;
     rec_location := location self; rec_hours := hours self; rec_wfh := wfh self;
     rec_min_salary := min_salary self; rec_max_salary := max_salary self;
     rec_desc := desc self; rec_qual := qual self; rec_posting := posting self;
     rec_apply := apply self; rec_scraped := scraped self; rec_applied := false |}.

(** [_LeverJob.export_posting_info]. *)
Definition export_posting_info (self : LeverJob) : PostingRecord :=
  let self := _parse_using_title_tag self in
  let self := _parse_location self in
  let self := _parse_team self in
  let self := _parse_hours self in
  let self := _parse_wfh self in
  let self := _parse_desc_and_qual self in
  let self := _parse_salary self in
  _record_of_details self.

End Parser.

Arguments job_page_source {F}.
Arguments location {F}.
Arguments company {F}.
Arguments title {F}.
Arguments team {F}.
Arguments hours {F}.
Arguments wfh {F}.
Arguments min_salary {F}.
Arguments max_salary {F}.
Arguments desc {F}.
Arguments qual {F}.
Arguments posting {F}.
Arguments apply {F}.
Arguments scraped {F}.
Arguments set_location {F}.
Arguments set_company {F}.
Arguments set_title {F}.
Arguments set_team {F}.
Arguments set_hours {F}.
Arguments set_wfh {F}.
Arguments set_min_salary {F}.
Arguments set_max_salary {F}.
Arguments set_desc {F}.
Arguments set_qual {F}.
Arguments try_assign {F}.
Arguments _parse_using_title_tag {F}.
Arguments _parse_location {F}.
Arguments _parse_team {F}.
Arguments _parse_hours {F}.
Arguments _parse_wfh {F}.
Arguments _parse_desc_and_qual {F}.
Arguments float {F}.
Arguments _clean_money_string {F}.
Arguments insert_desc {F}.
Arguments sort_reverse {F}.
Arguments parse_salary_body {F}.
Arguments _parse_salary {F}.
Arguments rec_company {F}.
Arguments rec_title {F}.
Arguments rec_team {F}.
Arguments rec_location {F}.
Arguments rec_hours {F}.
Arguments rec_wfh {F}.
Arguments rec_min_salary {F}.
Arguments rec_max_salary {F}.
Arguments rec_desc {F}.
Arguments rec_qual {F}.
Arguments rec_posting {F}.
Arguments rec_apply {F}.
Arguments rec_scraped {F}.
Arguments rec_applied {F}.
Arguments _record_of_details {F}.
Arguments export_posting_info {F}.

(** The steps of [export_posting_info] that precede [_parse_salary]. *)
Definition parse_before_salary {F : Type} (self : LeverJob F) : LeverJob F :=
  _parse_desc_and_qual
    (_parse_wfh (_parse_hours (_parse_team (_parse_location (_parse_using_title_tag self))))).

(** [x] is not below [y] in the order of [<]. *)
Definition not_below {F : Type} (ltb : F -> F -> bool) (x y : F) : Prop := ltb x y = false.

(** The text that [_parse_salary] reads: the salary-range section, or the
    closing-description section when the page has no salary-range section. *)
Definition salary_section_text (page : Page) : option string :=
  match salary_range page with
  | Some potential_salary => Some potential_salary
  | None => closing_description page
  end.

(** The tokens that [_clean_money_string] keeps: the pieces between single
    spaces that contain a dollar sign. *)
Definition money_tokens (text : string) : list string :=
  filter (str_in "$") (split " " text).

(** The money tokens of the section that [_parse_salary] reads; a page
    with neither section has none. *)
Definition section_tokens (page : Page) : list string :=
  match salary_section_text page with
  | Some text => money_tokens text
  | None => []
  end.

(* ------------------------------------------------------------------------- *)
(** ** Lever: the batch loop and the record store of [save_job_info] *)
(* ------------------------------------------------------------------------- *)

Section Batch.

Variable F : Type.
Variable float_of : string -> option F.
Variable ltb : F -> F -> bool.

(** The environment of a batch: [request.urlopen] followed by the
    [BeautifulSoup] constructor, the iteration order of a Python [set]
    built from a list, the reference tables and today's date. *)
Variable urlopen_soup : string -> result Page.
Variable set_iter : list string -> list string.
Variable T : ReferenceTables.
Variable today : string.

(** [_BaseSite._get_job_desc_page_source]: every exception gives [None]. *)
Definition _get_job_desc_page_source (job_info_dict : LinkRecord) : option Page :=
  match (u <- match link_desc job_info_dict with
              | Some u => ret u
              | None => raise URLError
              end ;;
         urlopen_soup u) with
  | inr page => Some page
  | inl _ => None
  end.

(** [Lever._parse_location_info]. *)
Definition _parse_location_info (page_source : Page) : option (list string) :=
  match (t <- text_of (div_location page_source) ;;
         ret (map lower
                  (filter (fun i => negb (i =? ""))
                          (set_iter (split " " (replace "," "" t)))))) with
  | inr tokens => Some tokens
  | inl _ => None
  end.

(** The loop of [save_job_info], appending to [job_info]. *)
Fixpoint collect_job_info (job_info : list (PostingRecord F)) (jobs : list LinkRecord)
  : list (PostingRecord F) :=
  match jobs with
  | [] => job_info
  | iJob :: rest =>
      let job_info' :=
        match _get_job_desc_page_source iJob with
        | Some job_page_source =>
            match _parse_location_info job_page_source with
            | Some job_location =>
                if is_True (_validate_location_in_usa job_location T)
                then (job_info ++
                      [export_posting_info float_of ltb
                         (LeverJob_init F job_page_source (link_desc iJob)
                                        (link_apply iJob) today)])%list
                else job_info
            | None => job_info
            end
        | None => job_info
        end in
      collect_job_info job_info' rest
  end.

(** A line of [files/output/main.csv]. *)
Inductive csv_line : Type :=
| Header
| Row (r : PostingRecord F).

(** The destination file: [None] while it does not exist. *)
Definition file_state : Type := option (list csv_line).

(** [to_csv(save_path, mode='x', header=True)]: exclusive creation. *)
Definition to_csv_x (rows : list (PostingRecord F)) (fs : file_state) : result file_state :=
  match fs with
  | None => ret (Some (Header :: map Row rows))
  | Some _ => raise FileExistsError
  end.

(** [to_csv(save_path, mode='a', header=False)]. *)
Definition to_csv_a (rows : list (PostingRecord F)) (fs : file_state) : file_state :=
  match fs with
  | None => Some (map Row rows)
  | Some old => Some (old ++ map Row rows)%list
  end.

(** The tail of [save_job_info]: the threshold and the two writes. *)
Definition store_job_info (job_info : list (PostingRecord F)) (fs : file_state) : file_state :=
  if (1 <? List.length job_info)%nat then
    match to_csv_x job_info fs with
    | inr fs' => fs'
    | inl _ => to_csv_a job_info fs
    end
  else fs.

(** [Lever.save_job_info] as a transformer of the destination file. *)
Definition save_job_info (jobs : list LinkRecord) (fs : file_state) : file_state :=
  store_job_info (collect_job_info [] jobs) fs.

End Batch.

Arguments collect_job_info {F}.
Arguments Header {F}.
Arguments Row {F}.
Arguments to_csv_x {F}.
Arguments to_csv_a {F}.
Arguments store_job_info {F}.
Arguments save_job_info {F}.

(* ------------------------------------------------------------------------- *)
(** ** Predicates used to state further properties *)
(* ------------------------------------------------------------------------- *)

(** A run of [n] slashes. *)
Fixpoint slashes (n : nat) : string :=
  match n with
  | O => EmptyString
  | S k => String "/"%char (slashes k)
  end.

(** A table entry that a location token can be equal to: not empty, without
    a space or a comma, and unchanged by [lower]. *)
Definition token_shaped (e : string) : bool :=
  (negb (e =? "") && negb (char_in " " e) && negb (char_in "," e) && (lower e =? e))%bool.

(** The tables without the entries that no location token can be equal to. *)
Definition reachable_tables (T : ReferenceTables) : ReferenceTables :=
  {| us_states_full := filter token_shaped (us_states_full T);
     us_states_abbreviated := filter token_shaped (us_states_abbreviated T);
     us_cities := filter token_shaped (us_cities T);
     non_us_cities := filter token_shaped (non_us_cities T);
     foreign_countries := filter token_shaped (foreign_countries T) |}.

(** A destination written by [save_job_info] only: absent, or one header
    line followed by rows. *)
Definition header_then_rows {F : Type} (fs : file_state F) : Prop :=
  fs = None \/ exists rows, fs = Some (Header :: map Row rows).

(* ------------------------------------------------------------------------- *)
(** ** The history file: [_write_links_to_history], [clean_scraped_links]
       and the [Bot] methods that read it *)
(* ------------------------------------------------------------------------- *)

(** The line feed and carriage return characters. *)
Definition lf : ascii := ascii_of_nat 10.
Definition cr : ascii := ascii_of_nat 13.

(** The exceptions of this part: [file.write(None)] is a [TypeError]. *)
Inductive io_error : Type :=
| TypeError.

(** [file.write(x)] on a file opened in append mode, whose content is
    [file]: a string is added at the end, [None] raises. *)
Definition file_write (x : option string) (file : string) : io_error + string :=
  match x with
  | Some s => inr (file ++ s)
  | None => inl TypeError
  end.

(** [Lever._write_links_to_history] on the content of
    [files/output/scraped_urls.txt] (empty when the file does not exist
    yet): the content afterwards, and the exception that escaped, if any. *)
Fixpoint _write_links_to_history (links : list LinkRecord) (file : string)
  : string * option io_error :=
  match links with
  | [] => (file, None)
  | iLink :: rest =>
      match file_write (link_apply iLink) file with
      | inl e => (file, Some e)
      | inr file1 =>
          let file2 := file1 ++ String lf "" in
          match file_write (link_desc iLink) file2 with
          | inl e => (file2, Some e)
          | inr file3 => _write_links_to_history rest (file3 ++ String lf "")
          end
      end
  end.

(** [Lever.clean_scraped_links]: the content of the history file
    afterwards, and the returned records or the exception. *)
Definition clean_scraped_links (url : string) (links : list string) (file : string)
  : string * (io_error + list LinkRecord) :=
  let clean_links := _process_links url links in
  match _write_links_to_history clean_links file with
  | (file', None) => (file', inr clean_links)
  | (file', Some e) => (file', inl e)
  end.

(** Reading in text mode: [\r\n] and a lone [\r] become [\n]. *)
Fixpoint universal_newlines (s : string) : string :=
  match s with
  | EmptyString => EmptyString
  | String c s' =>
      if Ascii.eqb c cr then
        String lf
          match s' with
          | String c2 s'' => if Ascii.eqb c2 lf then universal_newlines s''
                             else universal_newlines s'
          | EmptyString => EmptyString
          end
      else String c (universal_newlines s')
  end.

(** [for line in file]: the lines with their terminator; a last line
    without terminator is a line too, an empty rest is not. *)
Fixpoint lines_from (cur : string) (s : string) : list string :=
  match s with
  | EmptyString => match cur with EmptyString => [] | _ => [cur] end
  | String c s' =>
      if Ascii.eqb c lf then (cur ++ String lf "") :: lines_from EmptyString s'
      else lines_from (cur ++ String c "") s'
  end.

(** [s.rstrip()]. *)
Definition rstrip (s : string) : string := rstrip_with is_space s.

(** [Bot.__init__]: [_previously_scraped_links] from the content of the
    history file. *)
Definition previously_scraped_links (file : string) : list string :=
  map rstrip (lines_from EmptyString (universal_newlines file)).

(** A scraped [href]: [None] when the anchor has none.  [_validate_link]
    returns [False] on [None] as on the empty string. *)
Definition href_text (h : option string) : string :=
  match h with
  | Some s => s
  | None => EmptyString
  end.

(** [iLink not in self._previously_scraped_links]. *)
Definition not_in_history (prev : list string) (h : option string) : bool :=
  match h with
  | Some s => negb (existsb (String.eqb s) prev)
  | None => true
  end.

(** [Bot._get_job_links] after the search: [scraped_links] in the order in
    which the set is iterated, with the history read by [__init__]. *)
Definition _get_job_links (url : string) (prev : list string)
           (scraped_links : list (option string)) (file : string)
  : string * (io_error + list LinkRecord) :=
  let new_links := filter (not_in_history prev) scraped_links in
  clean_scraped_links url (map href_text new_links) file.

(** One run of the bot on a history file: [Bot(...)] reads it, [get_jobs]
    filters, processes and appends. *)
Definition bot_run (url : string) (scraped_links : list (option string)) (file : string)
  : string * (io_error + list LinkRecord) :=
  _get_job_links url (previously_scraped_links file) scraped_links file.

(** The text that [_write_links_to_history] adds for records whose URLs
    are set. *)
Definition history_text (links : list LinkRecord) : string :=
  String.concat ""
    (map (fun r => href_text (link_apply r) ++ String lf "" ++
                   href_text (link_desc r) ++ String lf "") links).

(** A history file as [_write_links_to_history] leaves it: empty, or ending
    with a line feed. *)
Definition ends_with_newline (file : string) : Prop :=
  file = "" \/ exists p, file = p ++ String lf "".

(** A URL that is read back from the history file as it was written: no
    line break inside and no white space at its end. *)
Definition line_safe (u : string) : Prop :=
  char_in lf u = false /\ char_in cr u = false /\ rstrip u = u.

(* ------------------------------------------------------------------------- *)
(** ** Bot: marking postings as applied to *)
(* ------------------------------------------------------------------------- *)

(** The cell assignment [row['applied'] = v]. *)
Definition set_applied {F : Type} (v : bool) (r : PostingRecord F) : PostingRecord F :=
  mkPosting F (rec_company r) (rec_title r) (rec_team r) (rec_location r) (rec_hours r)
            (rec_wfh r) (rec_min_salary r) (rec_max_salary r) (rec_desc r) (rec_qual r)
            (rec_posting r) (rec_apply r) (rec_scraped r) v.

(** The mask [scraped_jobs['apply'] == url], row by row.  A missing cell
    (NaN, here [None]) equals nothing, and nothing equals a NaN [url]. *)
Definition apply_equals {F : Type} (url : option string) (r : PostingRecord F) : bool :=
  match url, rec_apply r with
  | Some u, Some a => a =? u
  | _, _ => false
  end.

(** [Bot.record_job_as_applied_to]:
    [scraped_jobs.loc[scraped_jobs['apply'] == url, 'applied'] = True] on the
    rows of the table. *)
Definition record_job_as_applied_to {F : Type} (url : option string)
           (scraped_jobs : list (PostingRecord F)) : list (PostingRecord F) :=
  map (fun r => if apply_equals url r then set_applied true r else r) scraped_jobs.

(** Two records that agree on every column but [applied]. *)
Definition same_but_applied {F : Type} (r r' : PostingRecord F) : Prop :=
  set_applied false r = set_applied false r'.

(* ------------------------------------------------------------------------- *)
(** ** _LeverApply: filling out and submitting the application form *)
(* ------------------------------------------------------------------------- *)

(** Selenium's [By] locators that the form filling uses. *)
Inductive By : Type :=
| By_ID
| By_NAME
| By_CLASS_NAME
| By_TAG_NAME.

(** An [input] element of a custom question: an identity and the value
    attribute, [None] when the element has none. *)
Record WebElement : Type := mkElement {
  elem_id : nat;
  elem_value : option string
}.

(** A [custom-question] element: an identity, its text and its inputs. *)
Record Question : Type := mkQuestion {
  question_id : nat;
  question_text : string;
  question_inputs : list WebElement
}.

(** The calls that reach the browser: the methods of [Browser], and the
    Selenium calls made on the elements they return. *)
Inductive browser_call : Type :=
| navigate (url : option string)
| upload_file (find_input_field_by : By) (input_field_name file_path : string)
| write_input (find_input_field_by : By) (input_field_name input_value : string)
| set_value_of_select_element (find_element_by : By) (selector_value input_value : string)
| get_single_element (find_element_by : By) (selector_value : string)
| find_element_of_result (find_element_by : By) (selector_value : string)
| click_of_result
| get_array_of_elements (find_element_by : By) (selector_value : string)
| text_of_question (q : nat)
| find_elements_of_question (q : nat) (find_element_by : By) (selector_value : string)
| get_attribute (e : nat) (name : string)
| click_element (e : nat)
| execute_click (e : nat)
| click_button (find_element_by : By) (selector_value : string)
| quit.

(** The exceptions of the form filling. *)
Inductive apply_error : Type :=
| KeyError (key : string)        (* [user_info[key]] on a missing key *)
| NoneAttributeError             (* [None.lower()] *)
| WebDriverException.            (* any exception raised by a browser call *)

(** A step of the form filling: from the calls made so far to the calls
    made afterwards and a value or an exception. *)
Definition Apply (A : Type) : Type :=
  list browser_call -> list browser_call * (apply_error + A).

Definition apply_ret {A} (a : A) : Apply A := fun log => (log, inr a).

Definition apply_raise {A} (e : apply_error) : Apply A := fun log => (log, inl e).

Definition apply_bind {A B} (m : Apply A) (k : A -> Apply B) : Apply B :=
  fun log =>
    match m log with
    | (log', inl e) => (log', inl e)
    | (log', inr a) => k a log'
    end.

Notation "x <~ m ;; k" := (apply_bind m (fun x => k))
  (at level 61, m at next level, right associativity).
Notation "m ;;; k" := (apply_bind m (fun _ => k))
  (at level 61, right associativity).

(** [for x in xs: body(x)]. *)
Fixpoint apply_for {A} (body : A -> Apply unit) (xs : list A) : Apply unit :=
  match xs with
  | [] => apply_ret tt
  | x :: rest => body x ;;; apply_for body rest
  end.

Section LeverApply.

(** [user_info]: the dictionary loaded from [files/user_info.json]. *)
Variable user_info : string -> option string.

(** The browser: whether a call raises, given the calls made before it,
    and the custom questions of the form. *)
Variable raises : list browser_call -> browser_call -> bool.
Variable questions : list Question.

(** A browser call that returns [a] unless it raises. *)
Definition call {A} (c : browser_call) (a : A) : Apply A :=
  fun log =>
    (log ++ [c], if raises log c then inl WebDriverException else inr a)%list.

(** [self.user_info[key]]. *)
Definition lookup (key : string) : Apply string :=
  match user_info key with
  | Some v => apply_ret v
  | None => apply_raise (KeyError key)
  end.

(** [_LeverApply._wrap_try_catch] applied to a call of [func] with its
    arguments: every exception of the call is caught and printed. *)
Definition _wrap_try_catch (func : Apply unit) : Apply unit :=
  fun log =>
    match func log with
    | (log', inl _) => (log', inr tt)
    | (log', inr _) => (log', inr tt)
    end.

(** [_LeverApply._upload_resume]; the argument [user_info['resume_path']]
    is evaluated before [_wrap_try_catch] is entered. *)
Definition _upload_resume : Apply unit :=
  file_path <~ lookup "resume_path" ;;
  _wrap_try_catch (call (upload_file By_ID "resume-upload-input" file_path) tt).

(** [_LeverApply._fill_out_location_info]. *)
Definition _fill_out_location_info (location : string) : Apply unit :=
  call (write_input By_ID "location-input" location) tt ;;;
  call (get_single_element By_CLASS_NAME "dropdown-results") tt ;;;
  call (find_element_of_result By_TAG_NAME "div") tt ;;;
  call click_of_result tt.

(** [_LeverApply._fill_out_basic_info]. *)
Definition _fill_out_basic_info : Apply unit :=
  v <~ lookup "name" ;;
  _wrap_try_catch (call (write_input By_NAME "name" v) tt) ;;;
  v <~ lookup "email" ;;
  _wrap_try_catch (call (write_input By_NAME "email" v) tt) ;;;
  v <~ lookup "phone" ;;
  _wrap_try_catch (call (write_input By_NAME "phone" v) tt) ;;;
  v <~ lookup "location" ;;
  _wrap_try_catch (_fill_out_location_info v) ;;;
  v <~ lookup "current_company" ;;
  _wrap_try_catch (call (write_input By_NAME "org" v) tt) ;;;
  v <~ lookup "linkedin" ;;
  _wrap_try_catch (call (write_input By_NAME "urls[LinkedIn]" v) tt) ;;;
  v <~ lookup "gender" ;;
  _wrap_try_catch (call (set_value_of_select_element By_NAME "eeo[gender]" v) tt) ;;;
  v <~ lookup "race" ;;
  _wrap_try_catch (call (set_value_of_select_element By_NAME "eeo[race]" v) tt) ;;;
  v <~ lookup "veteran_status" ;;
  _wrap_try_catch (call (set_value_of_select_element By_NAME "eeo[veteran]" v) tt).

(** [x.lower()] where [x] may be [None]. *)
Definition lower_of (x : option string) : Apply string :=
  match x with
  | Some s => apply_ret (lower s)
  | None => apply_raise NoneAttributeError
  end.

(** [try: iElement.click()  except: self.browser.execute(..., iElement)]. *)
Definition click_or_execute (iElement : WebElement) : Apply unit :=
  fun log =>
    match call (click_element (elem_id iElement)) tt log with
    | (log', inl _) => call (execute_click (elem_id iElement)) tt log'
    | (log', inr _) => (log', inr tt)
    end.

(** The body of the inner loop of [_fill_out_sponsorship], with the key of
    the answer: the comparison and the click. *)
Definition answer_input (key : string) (iElement : WebElement) : Apply unit :=
  v <~ call (get_attribute (elem_id iElement) "value") (elem_value iElement) ;;
  v' <~ lower_of v ;;
  answer <~ lookup key ;;
  if v' =? lower answer then click_or_execute iElement else apply_ret tt.

(** The branch of [_fill_out_sponsorship] that answers with [key]. *)
Definition answer_with (key : string) (custom_question : Question) : Apply unit :=
  current_element_inputs <~
    call (find_elements_of_question (question_id custom_question) By_TAG_NAME "input")
         (question_inputs custom_question) ;;
  apply_for (answer_input key) current_element_inputs.

(** [custom_question.text.lower()]. *)
Definition question_text_lower (custom_question : Question) : Apply string :=
  t <~ call (text_of_question (question_id custom_question))
            (question_text custom_question) ;;
  apply_ret (lower t).

(** [_LeverApply._fill_out_sponsorship]. *)
Definition _fill_out_sponsorship (custom_question : Question) : Apply unit :=
  t1 <~ question_text_lower custom_question ;;
  if str_in "eligible" t1 then answer_with "authorized" custom_question
  else
    t2 <~ question_text_lower custom_question ;;
    if str_in "author" t2 then answer_with "authorized" custom_question
    else
      t3 <~ question_text_lower custom_question ;;
      if str_in "sponsor" t3 then answer_with "sponsor" custom_question
      else apply_ret tt.

(** [_LeverApply._fill_out_custom_questions]. *)
Definition _fill_out_custom_questions : Apply unit :=
  qs <~ call (get_array_of_elements By_CLASS_NAME "custom-question") questions ;;
  apply_for _fill_out_sponsorship qs.

(** [_LeverApply._submit_application]. *)
Definition _submit_application : Apply unit :=
  _wrap_try_catch (call (click_button By_ID "btn-submit") tt).

(** [_LeverApply._apply_to_job]. *)
Definition _apply_to_job (url : option string) : Apply unit :=
  call (navigate url) tt ;;;
  _upload_resume ;;;
  _fill_out_basic_info ;;;
  _wrap_try_catch _fill_out_custom_questions ;;;
  _submit_application.

End LeverApply.

(** The keys of [user_info] that [_apply_to_job] reads outside any
    [try], in the order in which it reads them. *)
Definition required_keys : list string :=
  ["resume_path"; "name"; "email"; "phone"; "location"; "current_company";
   "linkedin"; "gender"; "race"; "veteran_status"].

(** The click on the submit button. *)
Definition submit_click : browser_call := click_button By_ID "btn-submit".

(** The first key of a list that [user_info] lacks. *)
Definition first_missing (user_info : string -> option string) (keys : list string)
  : option string :=
  find (fun k => match user_info k with None => true | Some _ => false end) keys.

(** The elements on which a click was attempted, natively or by script,
    in the order of the attempts. *)
Definition click_attempts (log : list browser_call) : list nat :=
  flat_map (fun c => match c with
                     | click_element e => [e]
                     | execute_click e => [e]
                     | _ => []
                     end) log.

(** Whatever the calls made so far, step [m] ends with result [r] after
    some calls other than the submit click, followed by the calls [tail]. *)
Definition outcome (m : Apply unit) (r : apply_error + unit) (tail : list browser_call)
  : Prop :=
  forall log, exists added,
    m log = (log ++ added ++ tail, r)%list /\ ~ In submit_click added.

(** The inputs of a question that a given answer selects: those whose
    value attribute equals the answer up to letter case. *)
Definition selected_inputs (answer : string) (inputs : list WebElement) : list nat :=
  map elem_id
      (filter (fun e => match elem_value e with
                        | Some v => lower v =? lower answer
                        | None => false
                        end) inputs).

(** A browser in which no call raises. *)
Definition quiet : list browser_call -> browser_call -> bool := fun _ _ => false.

(** Whatever the calls made so far, step [m] only adds calls, none of
    which is the submit click. *)
Definition avoids_submit {A : Type} (m : Apply A) : Prop :=
  forall log, exists added, fst (m log) = (log ++ added)%list /\ ~ In submit_click added.

(** The keys that [_fill_out_basic_info] reads, in order. *)
Definition basic_keys : list string :=
  ["name"; "email"; "phone"; "location"; "current_company";
   "linkedin"; "gender"; "race"; "veteran_status"].

(* ------------------------------------------------------------------------- *)
(** ** demo.py: applying to the postings not applied to yet *)
(* ------------------------------------------------------------------------- *)

(** Equality of two cells of the [apply] column; two missing cells count as
    the same value for [unique]. *)
Definition cell_eqb (x y : option string) : bool :=
  match x, y with
  | Some a, Some b => a =? b
  | None, None => true
  | _, _ => false
  end.

(** [Series.unique()]: the distinct values in order of first appearance. *)
Fixpoint unique (l : list (option string)) : list (option string) :=
  match l with
  | [] => []
  | x :: rest => x :: filter (fun y => negb (cell_eqb x y)) (unique rest)
  end.

(** [scraped_jobs.query('applied == False')['apply'].unique()]. *)
Definition not_applied_urls {F : Type} (scraped_jobs : list (PostingRecord F))
  : list (option string) :=
  unique (map rec_apply (filter (fun r => negb (rec_applied r)) scraped_jobs)).

Section Demo.

Variable F : Type.
Variable user_info : string -> option string.
Variable raises : list browser_call -> browser_call -> bool.

(** The custom questions of the application page of a URL. *)
Variable questions_of : option string -> list Question.

(** The loop of [demo.py]: [bot.apply_to_job] and then
    [bot.record_job_as_applied_to], for each URL in turn; the table is
    returned when no application raises. *)
Fixpoint apply_loop (urls : list (option string)) (scraped_jobs : list (PostingRecord F))
  : Apply (list (PostingRecord F)) :=
  match urls with
  | [] => apply_ret scraped_jobs
  | iUrl :: rest =>
      _apply_to_job user_info raises (questions_of iUrl) iUrl ;;;
      apply_loop rest (record_job_as_applied_to iUrl scraped_jobs)
  end.

(** [demo.py] from the [web_driver.quit()] that ends its scraping part to
    the end of the application loop, on the table read from
    [files/output/main.csv]: the browser that [bot.apply_to_job] uses is
    the one that was quit.  The result is the table that
    [scraped_jobs.to_csv] writes back, or the exception that ends the
    script before it. *)
Definition demo_apply (scraped_jobs : list (PostingRecord F))
  : Apply (list (PostingRecord F)) :=
  call raises quit tt ;;;
  apply_loop (not_applied_urls scraped_jobs) scraped_jobs.

End Demo.

(** The calls that are the click on the submit button. *)
Definition is_submit (c : browser_call) : bool :=
  match c with
  | click_button By_ID s => s =? "btn-submit"
  | _ => false
  end.

(** The number of clicks on the submit button among some calls. *)
Definition submit_count (log : list browser_call) : nat :=
  List.length (filter is_submit log).

(* ------------------------------------------------------------------------- *)
(** ** Link validation as the specification words it *)
(* ------------------------------------------------------------------------- *)

(** Modelled from the spec: stripping the canonical prefix takes the text
    [https://jobs.lever.co/] off the front of a link that starts with it
    and leaves every other link as it is. *)
Definition strip_canonical_prefix (link : string) : string :=
  if prefix canonical_prefix link
  then substring (String.length canonical_prefix)
                 (String.length link - String.length canonical_prefix) link
  else link.

(** Modelled from the spec: the five conditions of link validation as
    worded, the segments being counted after the prefix is stripped. *)
Definition validate_as_worded (url link : string) : bool :=
  negb (link =? "") && (String.length url <? String.length link)%nat &&
  prefix url link && negb (str_in "/?q=" link) &&
  (1 <? List.length (split "/" (strip_canonical_prefix link)))%nat.

(** [line_safe] as a test. *)
Definition line_safeb (u : string) : bool :=
  negb (char_in lf u) && negb (char_in cr u) && (rstrip u =? u).

(** The call that quits the driver. *)
Definition is_quit (c : browser_call) : bool :=
  match c with
  | quit => true
  | _ => false
  end.

(* ------------------------------------------------------------------------- *)
(** ** An instance of the float interface, for evaluating examples *)
(* ------------------------------------------------------------------------- *)

(** The value of a decimal digit. *)
Definition digit_of (c : ascii) : option Z :=
  let n := nat_of_ascii c in
  if ((48 <=? n) && (n <=? 57))%nat then Some (Z.of_nat (n - 48)) else None.

Fixpoint digits_value (acc : Z) (s : string) : option Z :=
  match s with
  | EmptyString => Some acc
  | String c s' =>
      match digit_of c with
      | Some d => digits_value (10 * acc + d) s'
      | None => None
      end
  end.

(** [float] on the literals made of decimal digits only, whose value is the
    integer they denote (exactly, below 2^53).  It is used on such literals
    and on strings that [float] rejects: the empty string, and a string with
    a letter or a line feed between its digits.  The other literals that
    [float] accepts (sign, exponent, underscores, surrounding white space,
    [inf], [nan]) are outside this instance. *)
Definition float_of_digits (s : string) : option Z :=
  match s with
  | EmptyString => None
  | String _ _ => digits_value 0 s
  end.

(** [s.split()] without a separator: the maximal runs of characters that
    are not white space. *)
Fixpoint split_whitespace_from (cur : string) (s : string) : list string :=
  match s with
  | EmptyString => match cur with EmptyString => [] | _ => [cur] end
  | String c s' =>
      if is_space c
      then match cur with
           | EmptyString => split_whitespace_from EmptyString s'
           | _ => cur :: split_whitespace_from EmptyString s'
           end
      else split_whitespace_from (cur ++ String c EmptyString) s'
  end.

Definition split_whitespace (s : string) : list string :=
  split_whitespace_from EmptyString s.

(** The line feed character. *)
Definition LF : string := String (ascii_of_nat 10) "".

(* ------------------------------------------------------------------------- *)
(** ** Sample data *)
(* ------------------------------------------------------------------------- *)

(** Reference tables for evaluating the classifier. *)
Definition sample_tables : ReferenceTables :=
  {| us_states_full := ["california"; "texas"];
     us_states_abbreviated := ["ca"; "tx"];
     us_cities := ["boston"];
     non_us_cities := ["berlin"];
     foreign_countries := ["germany"] |}.

(** A posting page for evaluating the parser. *)
Definition sample_page : Page :=
  {| title_tag := Some "Acme - Data Scientist";
     div_location := Some "Boston, MA /";
     div_department := Some "Data /";
     div_commitment := Some "Full-time /";
     div_workplaceTypes := Some "Hybrid /";
     sections := [["intro"]; ["Build models"; "[x]"]; ["Python"; "SQL"]];
     salary_range := Some "Range: $120,000- $150,000";
     closing_description := None |}.

(** The same page with a salary text that [float] rejects. *)
Definition sample_page_tbd : Page :=
  {| title_tag := Some "Acme - Data Scientist";
     div_location := Some "Boston, MA /";
     div_department := Some "Data /";
     div_commitment := Some "Full-time /";
     div_workplaceTypes := Some "Hybrid /";
     sections := [["intro"]; ["Build models"; "[x]"]; ["Python"; "SQL"]];
     salary_range := Some "$120,000 $150,000 $TBD";
     closing_description := None |}.

(** The same page with the two amounts on two lines. *)
Definition sample_page_two_lines : Page :=
  {| title_tag := Some "Acme - Data Scientist";
     div_location := Some "Boston, MA /";
     div_department := Some "Data /";
     div_commitment := Some "Full-time /";
     div_workplaceTypes := Some "Hybrid /";
     sections := [["intro"]; ["Build models"; "[x]"]; ["Python"; "SQL"]];
     salary_range := Some ("$120,000" ++ LF ++ "$150,000");
     closing_description := None |}.

(** A posting page whose title mentions remote work. *)
Definition sample_page_remote : Page :=
  {| title_tag := Some "Acme - Data Scientist (REMOTE)";
     div_location := Some "Boston, MA /";
     div_department := None;
     div_commitment := Some "Full-time /";
     div_workplaceTypes := None;
     sections := [["intro"]];
     salary_range := None;
     closing_description := Some "We pay $TBD";
  |}.

(** A page without a location region. *)
Definition sample_page_no_location : Page :=
  {| title_tag := Some "Acme - Analyst";
     div_location := None;
     div_department := Some "Data /";
     div_commitment := None;
     div_workplaceTypes := None;
     sections := [];
     salary_range := None;
     closing_description := None |}.

(** A network on which two postings can be fetched and all others fail. *)
Definition sample_urlopen (u : string) : result Page :=
  if u =? "lever.co/acme/123" then inr sample_page
  else if u =? "lever.co/acme/456" then inr sample_page_no_location
  else inl URLError.

Definition sample_job (u : string) : LinkRecord :=
  {| link_desc := Some u; link_apply := Some (u ++ "/apply") |}.

(** The record exported for [sample_page]. *)
Definition sample_record : PostingRecord Z :=
  export_posting_info float_of_digits Z.ltb
    (LeverJob_init Z sample_page (Some "lever.co/acme/123")
                   (Some "lever.co/acme/123/apply") "11/03/2026").

(** A page whose four regions hold the same text, ending in slashes. *)
Definition sample_page_slashes : Page :=
  {| title_tag := Some "Acme Data Scientist";
     div_location := Some "Data //";
     div_department := Some "Data //";
     div_commitment := Some "Data //";
     div_workplaceTypes := Some "Data //";
     sections := [];
     salary_range := Some "$120,000-$150,000";
     closing_description := None |}.

(** The record exported for a page on which nothing is found and for a link
    record without URLs. *)
Definition LeverJob_export_blank (F : Type) : PostingRecord F :=
  _record_of_details (LeverJob_init F (mkPage None None None None None [] None None)
                                    None None "").

(** A [user_info] with the ten required keys and both answers. *)
Definition sample_user_info (key : string) : option string :=
  if key =? "authorized" then Some "Yes"
  else if key =? "sponsor" then Some "No"
  else if key =? "resume_path" then Some "files/resume.pdf"
  else if existsb (String.eqb key) required_keys then Some "Ada"
  else None.

(** The same without the [name] key and without the [authorized] answer. *)
Definition sample_user_info_partial (key : string) : option string :=
  if (key =? "name") || (key =? "authorized") then None else sample_user_info key.

(** A browser in which every upload and every write raises. *)
Definition sample_flaky : list browser_call -> browser_call -> bool :=
  fun _ c =>
    match c with
    | upload_file _ _ _ => true
    | write_input _ _ _ => true
    | _ => false
    end.

(** A browser in which the navigation raises. *)
Definition sample_offline : list browser_call -> browser_call -> bool :=
  fun _ c =>
    match c with
    | navigate _ => true
    | _ => false
    end.

(** A question that mentions both authorization and sponsorship. *)
Definition sample_question : Question :=
  {| question_id := 1;
     question_text := "Are you AUTHORIZED to work here without sponsorship?";
     question_inputs := [mkElement 10 (Some "yes"); mkElement 11 (Some "no")] |}.

(** An eligibility question whose first input has no value attribute. *)
Definition sample_question_no_value : Question :=
  {| question_id := 2;
     question_text := "Are you eligible?";
     question_inputs := [mkElement 20 None; mkElement 21 (Some "yes")] |}.

(** An eligibility question with a value on every input. *)
Definition sample_question_eligible : Question :=
  {| question_id := 3;
     question_text := "Are you ELIGIBLE to work in the US?";
     question_inputs := [mkElement 30 (Some "Yes"); mkElement 31 (Some "No")] |}.

(** A browser that works until it is quit and raises on every call
    afterwards. *)
Definition sample_closed : list browser_call -> browser_call -> bool :=
  fun log _ => existsb is_quit log.

(* ------------------------------------------------------------------------- *)
(** ** Evaluation on examples *)
(* ------------------------------------------------------------------------- *)

Example validate_posting :
  _validate_link Lever_url "lever.co/acme/123" = true.
Proof. reflexivity. Qed.

Example validate_listing :
  _validate_link Lever_url "lever.co" = false.
Proof. reflexivity. Qed.

Example process_posting :
  _process_links Lever_url ["lever.co/acme/123"; "lever.co/?q=x/1"; "lever.co/acme/9/apply"] =
  [ {| link_desc := Some "lever.co/acme/123"; link_apply := Some "lever.co/acme/123/apply" |};
    {| link_desc := Some "lever.co/acme/9/"; link_apply := Some "lever.co/acme/9/apply" |} ].
Proof. reflexivity. Qed.

Example clean_example :
  _clean_desc_and_qual ["ab"; "valid text"; "[bracketed]"; "x"] = "valid text bracketed ".
Proof. reflexivity. Qed.

(* ------------------------------------------------------------------------- *)
(** ** Facts about the string primitives *)
(* ------------------------------------------------------------------------- *)

Lemma str_app_assoc (a b c : string) : (a ++ b) ++ c = a ++ (b ++ c).
Proof. induction a as [|x a IH]; simpl; [reflexivity | now rewrite IH]. Qed.

Lemma str_app_nil_r (a : string) : a ++ "" = a.
Proof. induction a as [|x a IH]; simpl; [reflexivity | now rewrite IH]. Qed.

Lemma str_app_length (a b : string) :
  String.length (a ++ b) = String.length a + String.length b.
Proof. induction a as [|x a IH]; simpl; [reflexivity | now rewrite IH]. Qed.

Lemma prefix_app (p r : string) : prefix p (p ++ r) = true.
Proof.
  induction p as [|x p IH]; simpl; [now destruct r|].
  destruct (ascii_dec x x) as [_|n]; [exact IH | now elim n].
Qed.

Lemma prefix_exists (p s : string) :
  prefix p s = true <-> exists r, s = p ++ r.
Proof.
  split.
  - revert s; induction p as [|x p IH]; intros s H.
    + now exists s.
    + destruct s as [|y s]; simpl in H; [discriminate|].
      destruct (ascii_dec x y) as [->|]; [|discriminate].
      destruct (IH _ H) as [r ->]. now exists r.
  - intros [r ->]. apply prefix_app.
Qed.

Lemma prefix_length (p s : string) :
  prefix p s = true -> String.length p <= String.length s.
Proof.
  intros H. apply prefix_exists in H as [r ->]. rewrite str_app_length. lia.
Qed.

Lemma prefix_same_length (p s : string) :
  prefix p s = true -> String.length s <= String.length p -> s = p.
Proof.
  intros H L. apply prefix_exists in H as [r ->].
  rewrite str_app_length in L.
  destruct r; [apply str_app_nil_r | simpl in L; lia].
Qed.

Lemma str_in_nil (sub : string) : str_in sub "" = prefix sub "".
Proof. unfold str_in. apply orb_false_r. Qed.

Lemma str_in_cons (sub : string) (c : ascii) (s : string) :
  str_in sub (String c s) = prefix sub (String c s) || str_in sub s.
Proof. reflexivity. Qed.

Lemma str_in_exists (sub s : string) :
  str_in sub s = true <-> exists a b, s = a ++ sub ++ b.
Proof.
  split.
  - induction s as [|c s IH]; intros H.
    + rewrite str_in_nil in H. apply prefix_exists in H as [r Hr].
      exists "", r. exact Hr.
    + rewrite str_in_cons in H. apply orb_true_iff in H as [H|H].
      * apply prefix_exists in H as [r Hr]. exists "", r. exact Hr.
      * destruct (IH H) as (a & b & ->). now exists (String c a), b.
  - intros (a & b & ->). induction a as [|c a IH].
    + change ("" ++ sub ++ b) with (sub ++ b).
      destruct (sub ++ b) eqn:E.
      * rewrite str_in_nil, <- E. apply prefix_app.
      * rewrite str_in_cons, <- E, prefix_app. reflexivity.
    + change (String c a ++ sub ++ b) with (String c (a ++ sub ++ b)).
      rewrite str_in_cons, IH. apply orb_true_r.
Qed.

Lemma str_in_short (sub s : string) :
  String.length s <= String.length sub -> str_in sub s = true -> s = sub.
Proof.
  induction s as [|c s IH]; intros L H.
  - rewrite str_in_nil in H. now apply prefix_same_length.
  - rewrite str_in_cons in H. apply orb_true_iff in H as [H|H].
    + apply prefix_same_length; [exact H | exact L].
    + assert (s = sub) as -> by (apply IH; [simpl in L; lia | exact H]).
      simpl in L. lia.
Qed.

Lemma str_in_refl (s : string) : str_in s s = true.
Proof. apply str_in_exists. exists "", "". simpl. now rewrite str_app_nil_r. Qed.

Lemma slice_to_length (n : nat) (s : string) : String.length (slice_to n s) <= n.
Proof.
  unfold slice_to. revert s; induction n as [|n IH]; intros [|c s]; simpl; try lia.
  specialize (IH s). lia.
Qed.

Lemma slice_to_app (p r : string) : slice_to (String.length p) (p ++ r) = p.
Proof.
  unfold slice_to. induction p as [|x p IH]; simpl.
  - now destruct r.
  - now rewrite IH.
Qed.

(** [url in link[:len(url)]] is [link.startswith(url)]. *)
Lemma starts_with_iff (url link : string) :
  str_in url (slice_to (String.length url) link) = true <-> exists rest, link = url ++ rest.
Proof.
  split.
  - intros H.
    apply str_in_short in H; [|apply slice_to_length].
    apply prefix_exists. apply prefix_correct. exact H.
  - intros [rest ->]. rewrite slice_to_app. apply str_in_refl.
Qed.

(* ------------------------------------------------------------------------- *)
(** ** Link validation *)
(* ------------------------------------------------------------------------- *)

Lemma process_links_app (url : string) (xs ys : list string) :
  _process_links url (xs ++ ys)%list = (_process_links url xs ++ _process_links url ys)%list.
Proof.
  induction xs as [|x xs IH]; simpl; [reflexivity|].
  destruct (_validate_link url x); simpl; now rewrite IH.
Qed.

Lemma validate_link_true (url link : string) :
  _validate_link url link = true <->
  (link =? "") = false /\
  (String.length url <? String.length link)%nat = true /\
  str_in url (slice_to (String.length url) link) = true /\
  str_in "/?q=" link = false /\
  (1 <? List.length (split "/" (replace canonical_prefix "" link)))%nat = true.
Proof.
  unfold _validate_link.
  destruct (link =? ""); cbn [negb]; [intuition congruence|].
  destruct (String.length url <? String.length link)%nat; [|intuition congruence].
  destruct (str_in url (slice_to (String.length url) link)); [|intuition congruence].
  destruct (str_in "/?q=" link); cbn [negb]; [intuition congruence|].
  destruct (1 <? List.length (split "/" (replace canonical_prefix "" link)))%nat;
    intuition congruence.
Qed.

(** C6, amended.  [_validate_link url link] is true exactly when the link
    is non-empty, strictly longer than the domain, starts with the domain,
    has no occurrence of [/?q=], and splits on [/] into more than one
    segment once every occurrence of the text [https://jobs.lever.co/] is
    deleted from it, wherever it stands in the link (the code's
    [replace]); and [_process_links] emits no record for a link on which
    it is false. *)
Theorem validate_link_iff (url link : string) :
  (_validate_link url link = true <->
     link <> "" /\
     String.length url < String.length link /\
     (exists rest, link = url ++ rest) /\
     ~ (exists a b, link = a ++ "/?q=" ++ b) /\
     1 < List.length (split "/" (replace "https://jobs.lever.co/" "" link)))
  /\
  (_validate_link url link = false ->
     _process_links url [link] = [] /\
     forall pre post,
       _process_links url (pre ++ link :: post)%list =
       (_process_links url pre ++ _process_links url post)%list).
Proof.
  split.
  - rewrite validate_link_true, String.eqb_neq, Nat.ltb_lt, starts_with_iff, Nat.ltb_lt.
    rewrite <- str_in_exists, not_true_iff_false. reflexivity.
  - intros H. split.
    + simpl. now rewrite H.
    + intros pre post. rewrite process_links_app. simpl. now rewrite H.
Qed.

Lemma validate_link_iff_witness :
  _process_links Lever_url ["lever.co/?q=remote"] = [].
Proof.
  exact (proj1 (proj2 (validate_link_iff Lever_url "lever.co/?q=remote") eq_refl)).
Defined.

(** C6 as stated fails.  These two links are non-empty, longer than the
    domain, start with the domain and hold no [/?q=]; neither starts with
    [https://jobs.lever.co/], so stripping that prefix leaves them as they
    are, with four segments each.  The code deletes the text where it
    stands inside the link, is left with a single segment, and rejects
    both links. *)
Lemma validate_link_counterexample :
  (validate_as_worded Lever_url "lever.co?next=https://jobs.lever.co/acme" = true /\
   strip_canonical_prefix "lever.co?next=https://jobs.lever.co/acme" =
     "lever.co?next=https://jobs.lever.co/acme" /\
   split "/" "lever.co?next=https://jobs.lever.co/acme" =
     ["lever.co?next=https:"; ""; "jobs.lever.co"; "acme"] /\
   split "/" (replace "https://jobs.lever.co/" "" "lever.co?next=https://jobs.lever.co/acme") =
     ["lever.co?next=acme"] /\
   _validate_link Lever_url "lever.co?next=https://jobs.lever.co/acme" = false) /\
  (validate_as_worded Lever_url "lever.cohttps://jobs.lever.co/" = true /\
   split "/" (replace "https://jobs.lever.co/" "" "lever.cohttps://jobs.lever.co/") =
     ["lever.co"] /\
   _validate_link Lever_url "lever.cohttps://jobs.lever.co/" = false).
Proof. repeat split. Qed.

(** C10. A link is accepted only when its first [len(url)] characters are
    the domain itself; with the configured domain [lever.co] every link that
    begins with a scheme ([https://] or [http://]) is rejected and yields no
    record, although the segment count is taken after removing
    [https://jobs.lever.co/]. *)
Theorem validate_link_scheme_rejected :
  (forall url link,
     _validate_link url link = true -> slice_to (String.length url) link = url) /\
  (forall rest,
     _validate_link Lever_url ("https://" ++ rest) = false /\
     _process_links Lever_url ["https://" ++ rest] = []) /\
  (forall rest,
     _validate_link Lever_url ("http://" ++ rest) = false /\
     _process_links Lever_url ["http://" ++ rest] = []) /\
  replace canonical_prefix "" "https://jobs.lever.co/acme/123" = "acme/123".
Proof.
  assert (R : forall s, str_in Lever_url (slice_to (String.length Lever_url) s) = false ->
                        _validate_link Lever_url s = false /\
                        _process_links Lever_url [s] = []).
  { intros s H.
    assert (V : _validate_link Lever_url s = false).
    { unfold _validate_link. rewrite H.
      destruct (negb (s =? "")); [|reflexivity].
      now destruct (String.length Lever_url <? String.length s)%nat. }
    split; [exact V | simpl; now rewrite V]. }
  split; [|split; [|split]].
  - intros url link H. apply validate_link_true in H as (_ & _ & H & _).
    apply str_in_short in H; [exact H | apply slice_to_length].
  - intros rest. apply R. apply not_true_is_false. intros E.
    apply starts_with_iff in E as [r E]. discriminate E.
  - intros rest. apply R. apply not_true_is_false. intros E.
    apply starts_with_iff in E as [r E]. discriminate E.
  - reflexivity.
Qed.

Lemma validate_link_scheme_rejected_witness :
  slice_to (String.length Lever_url) "lever.co/acme/123" = Lever_url.
Proof.
  exact (proj1 validate_link_scheme_rejected Lever_url "lever.co/acme/123" eq_refl).
Defined.

(* ------------------------------------------------------------------------- *)
(** ** Appending a suffix: prefixes, occurrences, replacement, segments *)
(* ------------------------------------------------------------------------- *)

Lemma prefix_nil_l (s : string) : prefix "" s = true.
Proof. now destruct s. Qed.

Lemma prefix_cons (a b : ascii) (p s : string) :
  prefix (String a p) (String b s) = true <-> a = b /\ prefix p s = true.
Proof.
  simpl. destruct (ascii_dec a b) as [->|n]; [tauto|].
  split; [discriminate | intros [E _]; now elim n].
Qed.

(** A prefix of [s ++ t] either lies within [s] or runs over into [t]. *)
Lemma prefix_app_cases (old s t : string) :
  prefix old (s ++ t) = true ->
  prefix old s = true \/
  exists o1 o2, old = o1 ++ o2 /\ o2 <> "" /\ s = o1 /\ prefix o2 t = true.
Proof.
  revert s; induction old as [|a old IH]; intros s H.
  - left. apply prefix_nil_l.
  - destruct s as [|b s].
    + right. exists "", (String a old). repeat split; [discriminate | exact H].
    + change (String b s ++ t) with (String b (s ++ t)) in H.
      apply prefix_cons in H as [-> H].
      destruct (IH _ H) as [H1 | (o1 & o2 & -> & Hne & -> & Hp)].
      * left. now apply prefix_cons.
      * right. exists (String b o1), o2. now repeat split.
Qed.

Lemma str_last_app (o1 o2 : string) :
  o2 <> "" -> str_last (o1 ++ o2) = str_last o2.
Proof.
  intros Hne. induction o1 as [|c o1 IH]; [reflexivity|].
  change (String c o1 ++ o2) with (String c (o1 ++ o2)).
  destruct (o1 ++ o2) eqn:E; [|exact IH].
  destruct o1; [simpl in E; now elim Hne | discriminate E].
Qed.

Lemma prefix_last_in (o t : string) :
  prefix o t = true -> o <> "" -> exists c, str_last o = Some c /\ char_in c t = true.
Proof.
  revert t; induction o as [|a o IH]; intros t H Hne; [now elim Hne|].
  destruct t as [|b t]; [discriminate H|].
  apply prefix_cons in H as [-> H].
  destruct o as [|a' o].
  - exists b. split; [reflexivity|]. simpl. now rewrite Ascii.eqb_refl.
  - destruct (IH _ H) as (c & Hc & Hin); [discriminate|].
    exists c. split; [exact Hc|]. simpl. rewrite Hin. apply orb_true_r.
Qed.

(** When the last character of [p] does not occur in [t], appending [t]
    creates no new match of [p] at the front. *)
Lemma prefix_app_last (p : string) (c : ascii) (t : string) :
  str_last p = Some c -> char_in c t = false ->
  forall s, prefix p (s ++ t) = prefix p s.
Proof.
  intros Hl Hc s. destruct (prefix p s) eqn:E.
  - apply prefix_exists in E as [r ->]. rewrite str_app_assoc. apply prefix_app.
  - apply not_true_is_false. intros H.
    apply prefix_app_cases in H as [H | (o1 & o2 & -> & Hne & -> & Hp)]; [congruence|].
    destruct (prefix_last_in _ _ Hp Hne) as (c' & Hc' & Hin).
    rewrite (str_last_app _ _ Hne) in Hl. congruence.
Qed.

Lemma str_in_app_tail (p t : string) :
  (forall s, prefix p (s ++ t) = prefix p s) -> str_in p t = false ->
  forall s, str_in p (s ++ t) = str_in p s.
Proof.
  intros Hp Ht s. induction s as [|c s IH].
  - change ("" ++ t) with t. rewrite Ht, str_in_nil.
    rewrite <- (Hp ""). change ("" ++ t) with t.
    destruct t; [now rewrite str_in_nil in Ht|].
    rewrite str_in_cons in Ht. apply orb_false_iff in Ht as [Ht _]. now rewrite Ht.
  - change (String c s ++ t) with (String c (s ++ t)).
    rewrite !str_in_cons, IH. f_equal. exact (Hp (String c s)).
Qed.

(** A suffix [t] that neither contains [old] nor completes an occurrence
    of it passes through [replace] unchanged. *)
Lemma replace_from_app (old new t : string) (P : string -> Prop) :
  (forall c s, P (String c s) -> P s) ->
  (forall s, P s -> prefix old (s ++ t) = prefix old s) ->
  replace_from old new 0 t = t ->
  forall s k, P s -> k <= String.length s ->
    replace_from old new k (s ++ t) = replace_from old new k s ++ t.
Proof.
  intros Hcl Hp Ht s. induction s as [|c s IH]; intros k HP Hk.
  - simpl in Hk. assert (k = 0) as -> by lia. exact Ht.
  - change (String c s ++ t) with (String c (s ++ t)).
    destruct k as [|k].
    + cbn [replace_from].
      change (String c (s ++ t)) with (String c s ++ t). rewrite (Hp _ HP).
      destruct (prefix old (String c s)) eqn:E.
      * rewrite IH; [now rewrite str_app_assoc | now apply Hcl with c |].
        apply prefix_length in E. simpl in E. lia.
      * simpl. f_equal. apply IH; [now apply Hcl with c | lia].
    + cbn [replace_from]. apply IH; [now apply Hcl with c | simpl in Hk; lia].
Qed.

Lemma split_length_cons (sep c : ascii) (s : string) :
  List.length (split sep (String c s)) =
  (if Ascii.eqb c sep then 1 else 0) + List.length (split sep s).
Proof.
  simpl. destruct (Ascii.eqb c sep); [reflexivity|].
  destruct (split sep s) eqn:E; [|reflexivity].
  destruct s as [|d s]; simpl in E; [discriminate|].
  destruct (Ascii.eqb d sep); [discriminate|].
  now destruct (split sep s).
Qed.

Lemma split_length_pos (sep : ascii) (s : string) : 1 <= List.length (split sep s).
Proof.
  induction s as [|c s IH]; [simpl; lia|]. rewrite split_length_cons. lia.
Qed.

Lemma split_length_app (sep : ascii) (s t : string) :
  List.length (split sep (s ++ t)) =
  List.length (split sep s) + List.length (split sep t) - 1.
Proof.
  induction s as [|c s IH].
  - simpl. lia.
  - change (String c s ++ t) with (String c (s ++ t)).
    rewrite !split_length_cons, IH.
    pose proof (split_length_pos sep s). pose proof (split_length_pos sep t). lia.
Qed.

(* ------------------------------------------------------------------------- *)
(** ** Link processing *)
(* ------------------------------------------------------------------------- *)

Lemma str_snoc_inj (a b : string) (c : ascii) :
  a ++ String c "" = b ++ String c "" -> a = b.
Proof.
  revert b; induction a as [|x a IH]; intros [|y b] H; simpl in H.
  - reflexivity.
  - injection H as _ H. destruct b; discriminate H.
  - injection H as _ H. destruct a; discriminate H.
  - injection H as -> H. f_equal. now apply IH.
Qed.

Lemma replace_canonical_unfold (s : string) :
  replace canonical_prefix "" s = replace_from canonical_prefix "" 0 s.
Proof. reflexivity. Qed.

(** Appending [/apply] completes an occurrence of [https://jobs.lever.co/]
    only behind the text [https://jobs.lever.co]. *)
Lemma prefix_canonical_slash_apply (s : string) :
  s <> "https://jobs.lever.co" ->
  prefix canonical_prefix (s ++ "/apply") = prefix canonical_prefix s.
Proof.
  intros Hs. destruct (prefix canonical_prefix s) eqn:E.
  - apply prefix_exists in E as [r ->]. rewrite str_app_assoc. apply prefix_app.
  - apply not_true_is_false. intros H.
    apply prefix_app_cases in H as [H | (o1 & o2 & Ho & Hne & -> & Hp)]; [congruence|].
    destruct o2 as [|c1 o2]; [now elim Hne|].
    apply prefix_cons in Hp as [-> Hp].
    destruct o2 as [|c2 o2].
    + apply Hs. apply str_snoc_inj with "/"%char. now rewrite <- Ho.
    + destruct (prefix_last_in _ _ Hp) as (c & Hc & Hin); [discriminate|].
      assert (L : str_last canonical_prefix = Some c).
      { rewrite Ho, str_last_app by discriminate. exact Hc. }
      injection L as <-. discriminate Hin.
Qed.

Lemma replace_canonical_app_apply (s : string) :
  replace canonical_prefix "" (s ++ "apply") = replace canonical_prefix "" s ++ "apply".
Proof.
  rewrite !replace_canonical_unfold.
  apply replace_from_app with (P := fun _ => True); auto; [|lia].
  intros s' _. now apply prefix_app_last with "/"%char.
Qed.

Lemma replace_canonical_app_slash_apply (s : string) :
  (forall q, s <> q ++ "https://jobs.lever.co") ->
  replace canonical_prefix "" (s ++ "/apply") = replace canonical_prefix "" s ++ "/apply".
Proof.
  intros Hs. rewrite !replace_canonical_unfold.
  apply replace_from_app with (P := fun s => forall q, s <> q ++ "https://jobs.lever.co");
    auto; [| |lia].
  - intros c s' H q ->. now apply (H (String c q)).
  - intros s' H. apply prefix_canonical_slash_apply. exact (H "").
Qed.

Lemma str_in_query_app (s t : string) :
  char_in "=" t = false -> str_in "/?q=" t = false ->
  str_in "/?q=" (s ++ t) = str_in "/?q=" s.
Proof.
  intros Hc Ht. apply str_in_app_tail; [|exact Ht].
  now apply prefix_app_last with "="%char.
Qed.

Lemma apply_suffix_cases (iLink : string) :
  apply_suffix iLink = "apply" \/ apply_suffix iLink = "/apply".
Proof.
  unfold apply_suffix. destruct (str_last iLink) as [c|]; [|now left].
  destruct (Ascii.eqb c "/"); [now left | now right].
Qed.

Lemma link_record_description (iLink : string) :
  lower (last (split "/" iLink) "") <> "apply" ->
  link_record iLink =
  {| link_desc := Some iLink; link_apply := Some (iLink ++ apply_suffix iLink) |}.
Proof.
  intros H. unfold link_record, apply_suffix.
  apply String.eqb_neq in H. rewrite H. cbn [negb].
  destruct (str_last iLink) as [c|]; [|reflexivity].
  destruct (Ascii.eqb c "/"); cbn [negb]; [reflexivity|].
  now rewrite str_app_assoc.
Qed.

Lemma str_last_slash (s : string) :
  str_last s = Some "/"%char <-> exists p, s = p ++ "/".
Proof.
  split.
  - induction s as [|c s IH]; [discriminate|].
    destruct s as [|d s].
    + intros [= ->]. now exists "".
    + intros H. destruct (IH H) as [p ->]. now exists (String c p).
  - intros [p ->]. now rewrite str_last_app.
Qed.

(** Where an appended suffix keeps a valid link valid. *)
Lemma validate_link_app (url link t : string) :
  _validate_link url link = true ->
  char_in "=" t = false -> str_in "/?q=" t = false ->
  replace canonical_prefix "" (link ++ t) = replace canonical_prefix "" link ++ t ->
  _validate_link url (link ++ t) = true.
Proof.
  intros V Hc Ht Hr. apply validate_link_true in V as (V1 & V2 & V3 & V4 & V5).
  apply validate_link_true. repeat split.
  - destruct link; [discriminate V1 | reflexivity].
  - apply Nat.ltb_lt in V2. apply Nat.ltb_lt. rewrite str_app_length. lia.
  - apply starts_with_iff in V3 as [rest ->]. apply starts_with_iff.
    exists (rest ++ t). apply str_app_assoc.
  - now rewrite str_in_query_app.
  - apply Nat.ltb_lt in V5. apply Nat.ltb_lt. rewrite Hr, split_length_app.
    pose proof (split_length_pos "/" t). lia.
Qed.

(** The description side of [_process_links]: both URLs are set, the
    description URL is the link itself, and the application URL is the link
    followed by [apply], after one [/] unless the link already ends in one. *)
Lemma process_links_description_side (url link : string) :
  _validate_link url link = true ->
  lower (last (split "/" link) "") <> "apply" ->
  link <> "" /\
  ((exists p, link = p ++ "/") ->
     _process_links url [link] =
     [{| link_desc := Some link; link_apply := Some (link ++ "apply") |}]) /\
  (~ (exists p, link = p ++ "/") ->
     _process_links url [link] =
     [{| link_desc := Some link; link_apply := Some (link ++ "/apply") |}]).
Proof.
  intros V H. simpl. rewrite V, (link_record_description _ H).
  split; [|split].
  - apply validate_link_true in V as (V1 & _). now apply String.eqb_neq.
  - intros E. apply str_last_slash in E. unfold apply_suffix. now rewrite E.
  - intros E. unfold apply_suffix. destruct (str_last link) as [c|] eqn:L.
    + destruct (Ascii.eqb_spec c "/") as [->|]; [|reflexivity].
      elim E. now apply str_last_slash.
    + apply validate_link_true in V as (V1 & _). destruct link as [|c [|d l]]; try discriminate.
      clear - L. exfalso. revert c d L. induction l as [|e l IH]; intros c d L.
      * discriminate L.
      * exact (IH d e L).
Qed.

(** C2 (the application side breaks it).  A link whose last segment is
    [APPLY] passes the case-insensitive test, but the case-sensitive
    [replace('apply', '')] leaves it in place, so the description URL is the
    application URL itself; and for a lower-case [/apply] link [replace]
    also deletes every other occurrence of [apply], so the description URL
    is not the link with its last segment removed. *)
Theorem process_links_apply_side_defect :
  _validate_link Lever_url "lever.co/acme/123/APPLY" = true /\
  lower (last (split "/" "lever.co/acme/123/APPLY") "") = "apply" /\
  _process_links Lever_url ["lever.co/acme/123/APPLY"] =
    [{| link_desc := Some "lever.co/acme/123/APPLY";
        link_apply := Some "lever.co/acme/123/APPLY" |}] /\
  _validate_link Lever_url "lever.co/applydigital/123/apply" = true /\
  _process_links Lever_url ["lever.co/applydigital/123/apply"] =
    [{| link_desc := Some "lever.co/digital/123/";
        link_apply := Some "lever.co/applydigital/123/apply" |}].
Proof. repeat split. Qed.

(** C7, amended (description side).  For a valid link whose last segment is
    not [apply] and which does not end with the text
    [https://jobs.lever.co], [_process_links] yields one record whose
    application URL is valid again. *)
Theorem roundtrip_description_side (url link : string) :
  _validate_link url link = true ->
  lower (last (split "/" link) "") <> "apply" ->
  (forall p, link <> p ++ "https://jobs.lever.co") ->
  exists a,
    _process_links url [link] = [{| link_desc := Some link; link_apply := Some a |}] /\
    _validate_link url a = true.
Proof.
  intros V H E. exists (link ++ apply_suffix link). split.
  - simpl. now rewrite V, (link_record_description _ H).
  - destruct (apply_suffix_cases link) as [-> | ->].
    + apply validate_link_app; auto. apply replace_canonical_app_apply.
    + apply validate_link_app; auto. now apply replace_canonical_app_slash_apply.
Qed.

Lemma roundtrip_description_side_witness :
  exists a,
    _process_links Lever_url ["lever.co/acme/123"] =
      [{| link_desc := Some "lever.co/acme/123"; link_apply := Some a |}] /\
    _validate_link Lever_url a = true.
Proof.
  apply (roundtrip_description_side Lever_url "lever.co/acme/123").
  - reflexivity.
  - discriminate.
  - intros p E. apply (f_equal String.length) in E.
    rewrite str_app_length in E. simpl in E. lia.
Defined.

(** C7 as stated fails: this link is valid and is a description link, and
    the application URL derived from it is rejected, because the appended
    [/] completes an occurrence of [https://jobs.lever.co/], whose removal
    leaves a single segment. *)
Lemma roundtrip_counterexample :
  _validate_link Lever_url "lever.cohttps://jobs.lever.co" = true /\
  _process_links Lever_url ["lever.cohttps://jobs.lever.co"] =
    [{| link_desc := Some "lever.cohttps://jobs.lever.co";
        link_apply := Some "lever.cohttps://jobs.lever.co/apply" |}] /\
  _validate_link Lever_url "lever.cohttps://jobs.lever.co/apply" = false.
Proof. repeat split. Qed.

(** On the application side the round trip breaks through the same
    [replace('apply', '')] as above: deleting an inner [apply] can leave the
    query marker [/?q=] behind. *)
Example roundtrip_apply_side_defect :
  _validate_link Lever_url "lever.co/apply?q=x/apply" = true /\
  _process_links Lever_url ["lever.co/apply?q=x/apply"] =
    [{| link_desc := Some "lever.co/?q=x/";
        link_apply := Some "lever.co/apply?q=x/apply" |}] /\
  _validate_link Lever_url "lever.co/?q=x/" = false.
Proof. repeat split. Qed.

(* ------------------------------------------------------------------------- *)
(** ** Location classification *)
(* ------------------------------------------------------------------------- *)

Lemma check_if_exists_In (v : string) (a : list string) :
  _check_if_exists_in_array v a = true <-> In v a.
Proof.
  unfold _check_if_exists_in_array. rewrite existsb_exists. split.
  - intros (x & Hx & E). apply String.eqb_eq in E. now subst.
  - intros H. exists v. split; [exact H | apply String.eqb_refl].
Qed.

Lemma check_if_exists_not_In (v : string) (a : list string) :
  _check_if_exists_in_array v a = false <-> ~ In v a.
Proof. rewrite <- check_if_exists_In. symmetry. apply not_true_iff_false. Qed.

Lemma abbreviated_rule (T : ReferenceTables) (t : string) :
  ((String.length t =? 2)%nat && _check_if_exists_in_array t (us_states_abbreviated T))%bool
  = true <-> matches_abbreviated T t.
Proof.
  unfold matches_abbreviated.
  now rewrite andb_true_iff, Nat.eqb_eq, check_if_exists_In.
Qed.

Lemma validate_location_skip (T : ReferenceTables) (pre rest : list string) :
  Forall (no_rule_matches T) pre ->
  _validate_location_in_usa (pre ++ rest)%list T = _validate_location_in_usa rest T.
Proof.
  induction 1 as [|u pre (H1 & H2 & H3 & H4 & H5) _ IH]; [reflexivity|].
  simpl. rewrite <- abbreviated_rule in H1. apply not_true_is_false in H1.
  apply check_if_exists_not_In in H2, H3, H4, H5.
  now rewrite H1, H2, H3, H4, H5.
Qed.

Lemma in_no_table_no_rule (T : ReferenceTables) (t : string) :
  in_no_table T t -> no_rule_matches T t.
Proof.
  intros (H1 & H2 & H3 & H4 & H5). repeat split; auto.
  intros [_ H]. now apply H1.
Qed.

(** C1. [_validate_location_in_usa] goes through the tokens in order and
    answers at the first token on which a rule fires; on that token the
    rules are tried in the order: two letters and in the abbreviated states
    (true), foreign country (false), full state (true), US city (true),
    non-US city (false).  When no rule fires on any token the answer is
    [None], which the gate [is_usa is True] rejects.  With [ca] among the
    abbreviated states, [germany] among the foreign countries and [remote]
    in no table, the token lists [ca], [germany] and [remote] give true,
    false and [None]. *)
Theorem validate_location_first_match (T : ReferenceTables) :
  (forall pre t post,
     Forall (no_rule_matches T) pre ->
     (matches_abbreviated T t ->
        _validate_location_in_usa (pre ++ t :: post)%list T = Some true) /\
     (~ matches_abbreviated T t -> In t (foreign_countries T) ->
        _validate_location_in_usa (pre ++ t :: post)%list T = Some false) /\
     (~ matches_abbreviated T t -> ~ In t (foreign_countries T) ->
      In t (us_states_full T) ->
        _validate_location_in_usa (pre ++ t :: post)%list T = Some true) /\
     (~ matches_abbreviated T t -> ~ In t (foreign_countries T) ->
      ~ In t (us_states_full T) -> In t (us_cities T) ->
        _validate_location_in_usa (pre ++ t :: post)%list T = Some true) /\
     (~ matches_abbreviated T t -> ~ In t (foreign_countries T) ->
      ~ In t (us_states_full T) -> ~ In t (us_cities T) -> In t (non_us_cities T) ->
        _validate_location_in_usa (pre ++ t :: post)%list T = Some false)) /\
  (forall locations,
     Forall (no_rule_matches T) locations ->
     _validate_location_in_usa locations T = None /\
     is_True (_validate_location_in_usa locations T) = false) /\
  (forall locations b,
     _validate_location_in_usa locations T = Some b ->
     exists pre t post,
       locations = (pre ++ t :: post)%list /\
       Forall (no_rule_matches T) pre /\ ~ no_rule_matches T t) /\
  (In "ca" (us_states_abbreviated T) ->
     _validate_location_in_usa ["ca"] T = Some true) /\
  (In "germany" (foreign_countries T) ->
     _validate_location_in_usa ["germany"] T = Some false) /\
  (in_no_table T "remote" ->
     _validate_location_in_usa ["remote"] T = None /\
     is_True (_validate_location_in_usa ["remote"] T) = false).
Proof.
  assert (Rules : forall pre t post,
     Forall (no_rule_matches T) pre ->
     (matches_abbreviated T t ->
        _validate_location_in_usa (pre ++ t :: post)%list T = Some true) /\
     (~ matches_abbreviated T t -> In t (foreign_countries T) ->
        _validate_location_in_usa (pre ++ t :: post)%list T = Some false) /\
     (~ matches_abbreviated T t -> ~ In t (foreign_countries T) ->
      In t (us_states_full T) ->
        _validate_location_in_usa (pre ++ t :: post)%list T = Some true) /\
     (~ matches_abbreviated T t -> ~ In t (foreign_countries T) ->
      ~ In t (us_states_full T) -> In t (us_cities T) ->
        _validate_location_in_usa (pre ++ t :: post)%list T = Some true) /\
     (~ matches_abbreviated T t -> ~ In t (foreign_countries T) ->
      ~ In t (us_states_full T) -> ~ In t (us_cities T) -> In t (non_us_cities T) ->
        _validate_location_in_usa (pre ++ t :: post)%list T = Some false)).
  { intros pre t post Hpre. rewrite (validate_location_skip T pre (t :: post) Hpre).
    cbn [_validate_location_in_usa].
    rewrite <- abbreviated_rule, <- !check_if_exists_In.
    destruct ((String.length t =? 2)%nat &&
              _check_if_exists_in_array t (us_states_abbreviated T))%bool;
      [repeat split; intros; congruence|].
    destruct (_check_if_exists_in_array t (foreign_countries T));
      [repeat split; intros; congruence|].
    destruct (_check_if_exists_in_array t (us_states_full T));
      [repeat split; intros; congruence|].
    destruct (_check_if_exists_in_array t (us_cities T));
      [repeat split; intros; congruence|].
    destruct (_check_if_exists_in_array t (non_us_cities T));
      repeat split; intros; congruence. }
  assert (NoRule : forall locations,
     Forall (no_rule_matches T) locations ->
     _validate_location_in_usa locations T = None).
  { intros locations H.
    rewrite <- (app_nil_r locations). now rewrite validate_location_skip. }
  split; [exact Rules|]. split; [|split; [|split; [|split]]].
  - intros locations H. now rewrite (NoRule locations H).
  - induction locations as [|u rest IH]; intros b H; [discriminate|].
    assert (D : no_rule_matches T u \/ ~ no_rule_matches T u).
    { unfold no_rule_matches.
      rewrite <- abbreviated_rule, <- !check_if_exists_In.
      destruct ((String.length u =? 2)%nat &&
                _check_if_exists_in_array u (us_states_abbreviated T))%bool;
        [right; intuition congruence|].
      destruct (_check_if_exists_in_array u (foreign_countries T));
        [right; intuition congruence|].
      destruct (_check_if_exists_in_array u (us_states_full T));
        [right; intuition congruence|].
      destruct (_check_if_exists_in_array u (us_cities T));
        [right; intuition congruence|].
      destruct (_check_if_exists_in_array u (non_us_cities T));
        [right; intuition congruence | left; intuition congruence]. }
    destruct D as [D|D].
    + change (u :: rest) with ([u] ++ rest)%list in H.
      rewrite (validate_location_skip T [u] rest) in H by (now constructor).
      destruct (IH b H) as (pre & t & post & -> & Hpre & Ht).
      exists (u :: pre), t, post. repeat split; [now constructor | exact Ht].
    + exists [], u, rest. repeat split; [constructor | exact D].
  - intros H. apply (proj1 (Rules [] "ca" [] (Forall_nil _))).
    split; [reflexivity | exact H].
  - intros H. apply (proj1 (proj2 (Rules [] "germany" [] (Forall_nil _)))); [|exact H].
    intros [L _]. discriminate L.
  - intros H. apply in_no_table_no_rule in H.
    now rewrite (NoRule ["remote"]) by (now constructor).
Qed.

Lemma validate_location_first_match_witness :
  _validate_location_in_usa ["remote"; "berlin"; "ca"] sample_tables = Some false /\
  _validate_location_in_usa ["ca"] sample_tables = Some true /\
  _validate_location_in_usa ["germany"] sample_tables = Some false /\
  _validate_location_in_usa ["remote"] sample_tables = None.
Proof.
  pose proof (validate_location_first_match sample_tables) as (R & _ & _ & Ca & De & Re).
  assert (N : in_no_table sample_tables "remote").
  { unfold in_no_table, sample_tables; simpl. intuition discriminate. }
  split; [|split; [|split]].
  - apply (R ["remote"] "berlin" ["ca"]).
    + constructor; [now apply in_no_table_no_rule | constructor].
    + intros [L _]. discriminate L.
    + simpl. intuition discriminate.
    + simpl. intuition discriminate.
    + simpl. intuition discriminate.
    + simpl. now left.
  - apply Ca. simpl. now left.
  - apply De. simpl. now left.
  - apply (proj1 (Re N)).
Defined.

(* ------------------------------------------------------------------------- *)
(** ** Cleaning of description and qualification items *)
(* ------------------------------------------------------------------------- *)

Lemma char_in_app (c : ascii) (a b : string) :
  char_in c (a ++ b) = char_in c a || char_in c b.
Proof.
  induction a as [|x a IH]; simpl; [reflexivity|]. now rewrite IH, orb_assoc.
Qed.

(** Deleting the one-character string [c] leaves no [c]. *)
Lemma replace_from_deletes_char (c : ascii) (s : string) :
  char_in c (replace_from (String c "") "" 0 s) = false.
Proof.
  induction s as [|d s IH]; [reflexivity|].
  cbn [replace_from]. destruct (prefix (String c "") (String d s)) eqn:E.
  - exact IH.
  - simpl. rewrite IH, orb_false_r. apply Ascii.eqb_neq. intros ->.
    simpl in E. destruct (ascii_dec d d) as [_|n]; [|now elim n].
    now rewrite prefix_nil_l in E.
Qed.

(** Deleting occurrences of [old] introduces no character. *)
Lemma replace_from_delete_subset (old : string) (d : ascii) (s : string) (k : nat) :
  char_in d s = false -> char_in d (replace_from old "" k s) = false.
Proof.
  revert k; induction s as [|x s IH]; intros k H; [reflexivity|].
  simpl in H. apply orb_false_iff in H as [Hx Hs].
  destruct k as [|k]; cbn [replace_from].
  - destruct (prefix old (String x s)).
    + now apply IH.
    + simpl. now rewrite Hx, IH.
  - now apply IH.
Qed.


Lemma fold_left_append_acc (f : string -> string) (l : list string) (acc : string) :
  fold_left (fun a x => a ++ f x) l acc = acc ++ fold_left (fun a x => a ++ f x) l "".
Proof.
  revert acc; induction l as [|x l IH]; intros acc; simpl.
  - now rewrite str_app_nil_r.
  - rewrite IH, (IH (f x)). now rewrite str_app_assoc.
Qed.

Lemma clean_desc_and_qual_cons (j : string) (rest : list string) :
  _clean_desc_and_qual (j :: rest) =
  if (3 <? String.length j)%nat
  then replace dquote "" (clean_item j) ++ " " ++ _clean_desc_and_qual rest
  else _clean_desc_and_qual rest.
Proof.
  unfold _clean_desc_and_qual. cbn [filter].
  destruct (3 <? String.length j)%nat; [|reflexivity].
  cbn [map fold_left].
  rewrite (fold_left_append_acc (fun i => replace dquote "" i ++ " ")).
  change ("" ++ replace dquote "" (clean_item j) ++ " ")
    with (replace dquote "" (clean_item j) ++ " ").
  now rewrite str_app_assoc.
Qed.




(* ------------------------------------------------------------------------- *)
(** ** Salary parsing *)
(* ------------------------------------------------------------------------- *)

Section SortReverse.

Variable F : Type.
Variable ltb : F -> F -> bool.

(** The values on which [<] behaves as a total order (no NaN among them). *)
Variable P : F -> Prop.
Hypothesis ltb_asym : forall x y, P x -> P y -> ltb x y = true -> ltb y x = false.
Hypothesis ltb_negtrans :
  forall x y z, P x -> P y -> P z -> ltb x y = false -> ltb y z = false -> ltb x z = false.

Lemma insert_desc_perm (x : F) (l : list F) : Permutation (insert_desc ltb x l) (x :: l).
Proof.
  induction l as [|y l IH]; simpl; [apply Permutation_refl|].
  destruct (ltb x y); [|apply Permutation_refl].
  apply perm_trans with (y :: x :: l); [now apply perm_skip | apply perm_swap].
Qed.

Lemma sort_reverse_perm (l : list F) : Permutation (sort_reverse ltb l) l.
Proof.
  induction l as [|x l IH]; simpl; [apply perm_nil|].
  apply perm_trans with (x :: sort_reverse ltb l);
    [apply insert_desc_perm | now apply perm_skip].
Qed.

Lemma insert_desc_sorted (x : F) (l : list F) :
  P x -> Forall P l ->
  StronglySorted (not_below ltb) l -> StronglySorted (not_below ltb) (insert_desc ltb x l).
Proof.
  intros Px Pl Hs. induction Hs as [|y l Hs IH Hy]; simpl.
  - constructor; constructor.
  - inversion Pl as [|? ? Py Pl']; subst.
    destruct (ltb x y) eqn:E.
    + constructor; [now apply IH|].
      apply (Permutation_Forall (Permutation_sym (insert_desc_perm x l))).
      constructor; [now apply ltb_asym | exact Hy].
    + constructor; [now constructor|].
      constructor; [exact E|].
      rewrite Forall_forall in Hy, Pl' |- *. intros z Hz.
      apply ltb_negtrans with y; auto. now apply Hy.
Qed.

Lemma sort_reverse_sorted (l : list F) :
  Forall P l -> StronglySorted (not_below ltb) (sort_reverse ltb l).
Proof.
  induction 1 as [|x l Px Pl IH]; simpl; [constructor|].
  apply insert_desc_sorted; auto.
  apply (Permutation_Forall (Permutation_sym (sort_reverse_perm l))). exact Pl.
Qed.

Lemma sort_reverse_length (l : list F) : List.length (sort_reverse ltb l) = List.length l.
Proof. apply Permutation_length, sort_reverse_perm. Qed.

End SortReverse.

Section SalaryFacts.

Variable F : Type.
Variable float_of : string -> option F.
Variable ltb : F -> F -> bool.

Let parse (i : string) : result F := float float_of (clean_money_token i).

Lemma mapM_float_ok (toks : list string) (nums : list F) :
  map (fun t => float_of (clean_money_token t)) toks = map Some nums ->
  mapM parse toks = inr nums.
Proof.
  revert nums; induction toks as [|t toks IH]; intros [|n nums] H; try discriminate.
  - reflexivity.
  - simpl in H. injection H as Ht H. simpl. unfold parse at 1, float.
    rewrite Ht. simpl. now rewrite (IH nums H).
Qed.

Lemma mapM_float_fail (toks : list string) (tok : string) :
  In tok toks -> float_of (clean_money_token tok) = None ->
  exists e, mapM parse toks = inl e.
Proof.
  induction toks as [|t toks IH]; intros Hin Hf; [contradiction|].
  simpl. destruct (parse t) as [e|x] eqn:E; [now exists e|].
  destruct Hin as [->|Hin].
  - unfold parse, float in E. rewrite Hf in E. discriminate E.
  - destruct (IH Hin Hf) as [e ->]. now exists e.
Qed.

(** The list that [_parse_salary] sorts. *)
Lemma parse_salary_body_tokens (self : LeverJob F) :
  parse_salary_body float_of ltb self =
  (salary <- mapM parse (section_tokens (job_page_source self)) ;;
   if (1 <? List.length salary)%nat then
     match sort_reverse ltb salary with
     | s0 :: s1 :: _ => ret (set_min_salary (Some s1) (set_max_salary (Some s0) self))
     | _ => raise IndexError
     end
   else ret self).
Proof.
  unfold parse_salary_body, section_tokens, salary_section_text.
  destruct (salary_range (job_page_source self)); [reflexivity|].
  destruct (closing_description (job_page_source self)); reflexivity.
Qed.

(** The salary attributes after [_parse_salary], by the outcome of [float]
    on the money tokens of the page. *)
Lemma parse_salary_fields (self : LeverJob F) :
  ((exists tok, In tok (section_tokens (job_page_source self)) /\
                float_of (clean_money_token tok) = None) ->
     max_salary (_parse_salary float_of ltb self) = None /\
     min_salary (_parse_salary float_of ltb self) = None) /\
  (forall nums,
     map (fun t => float_of (clean_money_token t)) (section_tokens (job_page_source self)) =
       map Some nums ->
     (List.length nums < 2 -> _parse_salary float_of ltb self = self) /\
     (2 <= List.length nums ->
      exists x y rest,
        Permutation nums (x :: y :: rest) /\
        max_salary (_parse_salary float_of ltb self) = Some x /\
        min_salary (_parse_salary float_of ltb self) = Some y)).
Proof.
  unfold _parse_salary. rewrite parse_salary_body_tokens. split.
  - intros (tok & Hin & Hf).
    destruct (mapM_float_fail _ _ Hin Hf) as [e ->]. now split.
  - intros nums H. rewrite (mapM_float_ok _ _ H). cbn [bind]. split.
    + intros L. destruct (Nat.ltb_spec 1 (List.length nums)); [lia | reflexivity].
    + intros L. destruct (Nat.ltb_spec 1 (List.length nums)); [|lia].
      pose proof (sort_reverse_perm F ltb nums) as Hp.
      pose proof (sort_reverse_length F ltb nums) as Hl.
      destruct (sort_reverse ltb nums) as [|s0 [|s1 r]];
        [simpl in Hl; lia | simpl in Hl; lia |].
      exists s0, s1, r. split; [now apply Permutation_sym | now split].
Qed.

(** C3, amended.  [_parse_salary] reads the salary-range section, or the
    closing-description section when there is no salary-range section;
    it takes the pieces between single spaces that contain [$], deletes
    [,], [$], [.] and [-] from each and passes each to [float].  If
    [float] rejects one of them, both salaries are absent.  If all parse
    and fewer than two numbers result, nothing is changed.  If two or
    more result, the maximum and the minimum salary are set to two of
    them, taken at different positions; and when [<] is a strict weak
    order on the parsed numbers (asymmetric and negatively transitive,
    which holds unless one of them is NaN), the maximum salary is the
    largest and the minimum salary the second largest.  The tokens
    [$120,000-] and [$150,000] give 150000 and 120000, the values of
    [float] on [120000] and [150000] being in that order. *)
Theorem parse_salary_single_space_tokens (self : LeverJob F) :
  let toks := section_tokens (job_page_source self) in
  let self' := _parse_salary float_of ltb self in
  ((exists tok, In tok toks /\ float_of (clean_money_token tok) = None) ->
     max_salary self' = None /\ min_salary self' = None) /\
  (forall nums,
     map (fun t => float_of (clean_money_token t)) toks = map Some nums ->
     (List.length nums < 2 -> self' = self) /\
     (2 <= List.length nums ->
      exists mx mn rest,
        Permutation nums (mx :: mn :: rest) /\
        max_salary self' = Some mx /\ min_salary self' = Some mn /\
        ((forall x y, In x nums -> In y nums -> ltb x y = true -> ltb y x = false) ->
         (forall x y z, In x nums -> In y nums -> In z nums ->
                        ltb x y = false -> ltb y z = false -> ltb x z = false) ->
         Forall (not_below ltb mx) (mn :: rest) /\
         Forall (not_below ltb mn) rest))) /\
  (forall a b,
     toks = ["$120,000-"; "$150,000"] ->
     float_of "120000" = Some a -> float_of "150000" = Some b -> ltb a b = true ->
     max_salary self' = Some b /\ min_salary self' = Some a).
Proof.
  cbv zeta. unfold _parse_salary. rewrite parse_salary_body_tokens.
  split; [|split].
  - intros (tok & Hin & Hf).
    destruct (mapM_float_fail _ _ Hin Hf) as [e ->]. now split.
  - intros nums H. rewrite (mapM_float_ok _ _ H). cbn [bind]. split.
    + intros L. destruct (Nat.ltb_spec 1 (List.length nums)); [lia | reflexivity].
    + intros L.
      destruct (Nat.ltb_spec 1 (List.length nums)); [|lia].
      pose proof (sort_reverse_perm F ltb nums) as Hp.
      pose proof (fun Hasym Htrans =>
                    sort_reverse_sorted F ltb (fun x => In x nums) Hasym Htrans nums) as Hs.
      pose proof (sort_reverse_length F ltb nums) as Hl.
      destruct (sort_reverse ltb nums) as [|s0 [|s1 r]];
        [simpl in Hl; lia | simpl in Hl; lia |].
      exists s0, s1, r.
      split; [now apply Permutation_sym|]. split; [reflexivity|]. split; [reflexivity|].
      intros Hasym Htrans.
      assert (Hs' : StronglySorted (not_below ltb) (s0 :: s1 :: r)).
      { apply Hs; auto. now apply Forall_forall. }
      inversion Hs' as [|? ? Hs1 Hge0]; subst.
      inversion Hs1 as [|? ? _ Hge1]; subst.
      now split.
  - intros a b Ht Ha Hb Hab. rewrite Ht. cbn [mapM]. unfold parse, float.
    change (clean_money_token "$120,000-") with "120000".
    change (clean_money_token "$150,000") with "150000".
    rewrite Ha, Hb. simpl. rewrite Hab. now split.
Qed.

End SalaryFacts.

Lemma parse_salary_single_space_tokens_witness :
  (max_salary (_parse_salary float_of_digits Z.ltb
                 (LeverJob_init Z sample_page_tbd None None "")) = None /\
   min_salary (_parse_salary float_of_digits Z.ltb
                 (LeverJob_init Z sample_page_tbd None None "")) = None) /\
  (exists mx mn rest,
     Permutation [120000%Z; 150000%Z] (mx :: mn :: rest) /\
     max_salary (_parse_salary float_of_digits Z.ltb
                   (LeverJob_init Z sample_page None None "")) = Some mx /\
     min_salary (_parse_salary float_of_digits Z.ltb
                   (LeverJob_init Z sample_page None None "")) = Some mn /\
     Forall (not_below Z.ltb mx) (mn :: rest) /\
     Forall (not_below Z.ltb mn) rest) /\
  (max_salary (_parse_salary float_of_digits Z.ltb
                 (LeverJob_init Z sample_page None None "")) = Some 150000%Z /\
   min_salary (_parse_salary float_of_digits Z.ltb
                 (LeverJob_init Z sample_page None None "")) = Some 120000%Z).
Proof.
  split; [|split].
  - apply (proj1 (parse_salary_single_space_tokens Z float_of_digits Z.ltb
                    (LeverJob_init Z sample_page_tbd None None ""))).
    exists "$TBD". split; [simpl; auto | reflexivity].
  - destruct (proj2 (proj1 (proj2 (parse_salary_single_space_tokens Z float_of_digits Z.ltb
                    (LeverJob_init Z sample_page None None "")))
                    [120000%Z; 150000%Z] eq_refl) ltac:(simpl; lia))
      as (mx & mn & rest & Hp & Hmx & Hmn & Hord).
    exists mx, mn, rest. split; [exact Hp|]. split; [exact Hmx|]. split; [exact Hmn|].
    apply Hord.
    + intros x y _ _ H. apply Z.ltb_lt in H. apply Z.ltb_ge. lia.
    + intros x y z _ _ _ H1 H2. apply Z.ltb_ge in H1, H2. apply Z.ltb_ge. lia.
  - apply (proj2 (proj2 (parse_salary_single_space_tokens Z float_of_digits Z.ltb
                    (LeverJob_init Z sample_page None None "")))
                 120000%Z 150000%Z); reflexivity.
Defined.

(** C3 as stated fails.  With the two amounts separated by a line feed
    there are two white-space-delimited tokens with a dollar sign, each of
    which parses once its punctuation is stripped; the code splits on
    single spaces only, hands [float] both amounts as one string with the
    line feed inside, and leaves both salaries absent.  And with three
    space-separated tokens of which two parse and [$TBD] does not, two
    numbers result, yet the exception of the third leaves both salaries
    absent. *)
Lemma parse_salary_counterexample :
  (filter (str_in "$") (split_whitespace ("$120,000" ++ LF ++ "$150,000")) =
     ["$120,000"; "$150,000"] /\
   map (fun t => float_of_digits (clean_money_token t)) ["$120,000"; "$150,000"] =
     [Some 120000%Z; Some 150000%Z] /\
   section_tokens sample_page_two_lines = ["$120,000" ++ LF ++ "$150,000"] /\
   max_salary (_parse_salary float_of_digits Z.ltb
                 (LeverJob_init Z sample_page_two_lines None None "")) = None /\
   min_salary (_parse_salary float_of_digits Z.ltb
                 (LeverJob_init Z sample_page_two_lines None None "")) = None) /\
  (section_tokens sample_page_tbd = ["$120,000"; "$150,000"; "$TBD"] /\
   map (fun t => float_of_digits (clean_money_token t)) ["$120,000"; "$150,000"; "$TBD"] =
     [Some 120000%Z; Some 150000%Z; None] /\
   max_salary (_parse_salary float_of_digits Z.ltb
                 (LeverJob_init Z sample_page_tbd None None "")) = None /\
   min_salary (_parse_salary float_of_digits Z.ltb
                 (LeverJob_init Z sample_page_tbd None None "")) = None).
Proof. repeat split. Qed.

(* ------------------------------------------------------------------------- *)
(** ** The record store *)
(* ------------------------------------------------------------------------- *)

(** C4. [save_job_info] writes to the destination exactly when the batch
    holds more than one record.  When it writes, a destination that does
    not exist is created with the header row followed by the rows; on a
    destination that exists the exclusive creation raises
    [FileExistsError], and the handler appends all rows without a header. *)
Theorem store_job_info_threshold (F : Type) (job_info : list (PostingRecord F))
        (fs : file_state F) :
  (List.length job_info <= 1 -> store_job_info job_info fs = fs) /\
  (1 < List.length job_info ->
     (fs = None ->
        to_csv_x job_info fs = inr (Some (Header :: map Row job_info)) /\
        store_job_info job_info fs = Some (Header :: map Row job_info)) /\
     (forall old, fs = Some old ->
        to_csv_x job_info fs = inl FileExistsError /\
        store_job_info job_info fs = Some (old ++ map Row job_info)%list)) /\
  (store_job_info job_info fs <> fs <-> 1 < List.length job_info).
Proof.
  unfold store_job_info.
  destruct (Nat.ltb_spec 1 (List.length job_info)) as [L|L].
  - split; [lia|]. split.
    + intros _. split.
      * intros ->. now split.
      * intros old ->. now split.
    + split; [auto|]. intros _. destruct fs as [old|]; simpl; [|discriminate].
      intros [= E]. apply (f_equal (@List.length _)) in E.
      rewrite length_app, length_map in E. lia.
  - split; [auto|]. split; [lia|]. split; [intros H; now elim H | lia].
Qed.

Lemma store_job_info_threshold_witness :
  store_job_info [sample_record] (Some [Header; Row sample_record]) =
    Some [Header; Row sample_record] /\
  store_job_info [sample_record; sample_record] None =
    Some [Header; Row sample_record; Row sample_record] /\
  store_job_info [sample_record; sample_record] (Some [Header]) =
    Some [Header; Row sample_record; Row sample_record].
Proof.
  split; [|split].
  - apply (proj1 (store_job_info_threshold Z [sample_record]
                    (Some [Header; Row sample_record]))). simpl. lia.
  - apply (proj1 (proj2 (store_job_info_threshold Z [sample_record; sample_record] None))).
    + simpl. lia.
    + reflexivity.
  - apply (proj2 (proj1 (proj2 (store_job_info_threshold Z [sample_record; sample_record]
                                  (Some [Header])))
                        ltac:(simpl; lia)) [Header] eq_refl).
Defined.

(* ------------------------------------------------------------------------- *)
(** ** The posting parser *)
(* ------------------------------------------------------------------------- *)

Section ParserFacts.

Variable F : Type.
Variable float_of : string -> option F.
Variable ltb : F -> F -> bool.

(** [_parse_salary] either leaves [self] as it is or assigns the two
    salary attributes. *)
Lemma parse_salary_shape (self : LeverJob F) :
  exists mx mn,
    _parse_salary float_of ltb self = set_min_salary mn (set_max_salary mx self).
Proof.
  unfold _parse_salary. rewrite parse_salary_body_tokens.
  destruct (mapM _ _) as [e|salary]; cbn [bind].
  - now exists None, None.
  - destruct (1 <? List.length salary)%nat.
    + destruct (sort_reverse ltb salary) as [|s0 [|s1 r]].
      * now exists None, None.
      * now exists None, None.
      * now exists (Some s0), (Some s1).
    + exists (max_salary self), (min_salary self). now destruct self.
Qed.

Lemma parse_using_title_tag_eq (self : LeverJob F) :
  _parse_using_title_tag self =
  match title_tag (job_page_source self) with
  | Some h =>
      let self2 :=
        set_title (Some (strip (last (split "-" h) "")))
                  (set_company (Some (strip (hd "" (split "-" h)))) self) in
      if str_in "remote" (lower h) then set_location (Some "Remote") self2 else self2
  | None => self
  end.
Proof.
  unfold _parse_using_title_tag. destruct (title_tag _) as [h|]; [|reflexivity].
  unfold index. pose proof (split_length_pos "-" h) as H.
  destruct (split "-" h) as [|seg segs]; [simpl in H; lia | reflexivity].
Qed.

Lemma parse_location_eq (self : LeverJob F) :
  _parse_location self =
  match location self with
  | None => set_location (option_map rstrip_slash (div_location (job_page_source self))) self
  | Some _ => self
  end.
Proof.
  unfold _parse_location. destruct (location self); [reflexivity|].
  now destruct (div_location _).
Qed.

Lemma parse_team_eq (self : LeverJob F) :
  _parse_team self =
  set_team (option_map rstrip_slash (div_department (job_page_source self))) self.
Proof. unfold _parse_team. now destruct (div_department _). Qed.

Lemma parse_hours_eq (self : LeverJob F) :
  _parse_hours self =
  set_hours (option_map rstrip_slash (div_commitment (job_page_source self))) self.
Proof. unfold _parse_hours. now destruct (div_commitment _). Qed.

Lemma parse_wfh_eq (self : LeverJob F) :
  _parse_wfh self =
  set_wfh (option_map rstrip_slash (div_workplaceTypes (job_page_source self))) self.
Proof. unfold _parse_wfh. now destruct (div_workplaceTypes _). Qed.

Lemma parse_desc_and_qual_eq (self : LeverJob F) :
  _parse_desc_and_qual self =
  set_qual (option_map _clean_desc_and_qual (nth_error (sections (job_page_source self)) 2))
    (set_desc (option_map _clean_desc_and_qual
                 (nth_error (sections (job_page_source self)) 1)) self).
Proof.
  unfold _parse_desc_and_qual, index.
  destruct (nth_error _ 1), (nth_error _ 2); reflexivity.
Qed.

(** The attributes after the steps before [_parse_salary], on a fresh
    instance. *)
Lemma parse_before_salary_init (page : Page) (d a : option string) (today : string) :
  parse_before_salary (LeverJob_init F page d a today) =
  {| job_page_source := page;
     location :=
       match title_tag page with
       | Some h =>
           if str_in "remote" (lower h) then Some "Remote"
           else option_map rstrip_slash (div_location page)
       | None => option_map rstrip_slash (div_location page)
       end;
     company := option_map (fun h => strip (hd "" (split "-" h))) (title_tag page);
     title := option_map (fun h => strip (last (split "-" h) "")) (title_tag page);
     team := option_map rstrip_slash (div_department page);
     hours := option_map rstrip_slash (div_commitment page);
     wfh := option_map rstrip_slash (div_workplaceTypes page);
     min_salary := None;
     max_salary := None;
     desc := option_map _clean_desc_and_qual (nth_error (sections page) 1);
     qual := option_map _clean_desc_and_qual (nth_error (sections page) 2);
     posting := d;
     apply := a;
     scraped := today |}.
Proof.
  unfold parse_before_salary.
  rewrite parse_desc_and_qual_eq, parse_wfh_eq, parse_hours_eq, parse_team_eq,
    parse_location_eq, parse_using_title_tag_eq.
  unfold LeverJob_init. cbn [job_page_source].
  destruct (title_tag page) as [h|]; [|reflexivity].
  cbv zeta. destruct (str_in "remote" (lower h)); reflexivity.
Qed.

(** C8. When the title text contains [remote] in any letter case, the
    title step sets the location to [Remote]; [_parse_location] reads the
    location region only while the location is unset, so it leaves that
    value alone and the exported record carries it. *)
Theorem title_remote_location (self : LeverJob F) (header_text : string) :
  title_tag (job_page_source self) = Some header_text ->
  (exists a b, lower header_text = a ++ "remote" ++ b) ->
  location (_parse_using_title_tag self) = Some "Remote" /\
  _parse_location (_parse_using_title_tag self) = _parse_using_title_tag self /\
  rec_location (export_posting_info float_of ltb self) = Some "Remote" /\
  (forall other : LeverJob F,
     location other <> None -> _parse_location other = other) /\
  (forall other : LeverJob F,
     location other = None ->
     location (_parse_location other) =
     option_map rstrip_slash (div_location (job_page_source other))).
Proof.
  intros Ht Hr. apply str_in_exists in Hr.
  assert (L : location (_parse_using_title_tag self) = Some "Remote").
  { rewrite parse_using_title_tag_eq, Ht. cbv zeta. now rewrite Hr. }
  assert (K : forall other : LeverJob F,
              location other <> None -> _parse_location other = other).
  { intros other H. rewrite parse_location_eq.
    destruct (location other); [reflexivity | now elim H]. }
  split; [exact L|]. split; [|split; [|split; [exact K|]]].
  - apply K. now rewrite L.
  - unfold export_posting_info.
    destruct (parse_salary_shape
                (_parse_desc_and_qual
                   (_parse_wfh (_parse_hours (_parse_team
                      (_parse_location (_parse_using_title_tag self))))))) as (mx & mn & ->).
    rewrite K by (now rewrite L).
    rewrite parse_desc_and_qual_eq, parse_wfh_eq, parse_hours_eq, parse_team_eq.
    exact L.
  - intros other H. rewrite parse_location_eq, H. reflexivity.
Qed.

End ParserFacts.

Lemma title_remote_location_witness :
  rec_location (export_posting_info float_of_digits Z.ltb
                  (LeverJob_init Z sample_page_remote None None "")) = Some "Remote".
Proof.
  apply (title_remote_location Z float_of_digits Z.ltb
           (LeverJob_init Z sample_page_remote None None "")
           "Acme - Data Scientist (REMOTE)").
  - reflexivity.
  - exists "acme - data scientist (", ")". reflexivity.
Defined.

(* ------------------------------------------------------------------------- *)
(** ** Fault isolation *)
(* ------------------------------------------------------------------------- *)

Section BatchFacts.

Variable F : Type.
Variable float_of : string -> option F.
Variable ltb : F -> F -> bool.
Variable urlopen_soup : string -> result Page.
Variable set_iter : list string -> list string.
Variable T : ReferenceTables.
Variable today : string.

Let collect := collect_job_info float_of ltb urlopen_soup set_iter T today.

Lemma collect_cons (acc : list (PostingRecord F)) (iJob : LinkRecord)
      (rest : list LinkRecord) :
  collect acc (iJob :: rest) = collect (acc ++ collect [] [iJob])%list rest.
Proof.
  unfold collect. cbn [collect_job_info].
  destruct (_get_job_desc_page_source urlopen_soup iJob) as [page|];
    [|now rewrite app_nil_r].
  destruct (_parse_location_info set_iter page) as [loc|]; [|now rewrite app_nil_r].
  destruct (is_True (_validate_location_in_usa loc T)); [reflexivity|].
  now rewrite app_nil_r.
Qed.

Lemma collect_acc (acc : list (PostingRecord F)) (jobs : list LinkRecord) :
  collect acc jobs = (acc ++ collect [] jobs)%list.
Proof.
  revert acc; induction jobs as [|iJob rest IH]; intros acc.
  - unfold collect. simpl. now rewrite app_nil_r.
  - rewrite (collect_cons acc iJob rest), (collect_cons [] iJob rest).
    rewrite (IH (acc ++ collect [] [iJob])%list), (IH ([] ++ collect [] [iJob])%list).
    now rewrite app_assoc.
Qed.

Lemma collect_app (pre post : list LinkRecord) :
  collect [] (pre ++ post)%list = (collect [] pre ++ collect [] post)%list.
Proof.
  induction pre as [|iJob pre IH]; [reflexivity|].
  change ((iJob :: pre) ++ post)%list with (iJob :: (pre ++ post))%list.
  rewrite (collect_cons [] iJob (pre ++ post)), (collect_cons [] iJob pre).
  rewrite (collect_acc _ (pre ++ post)), (collect_acc _ pre), IH.
  now rewrite app_assoc.
Qed.

(** C9. A posting whose fetch fails is skipped and the postings before
    and after it are processed as if it were not in the batch; the same
    holds when the location region is missing.  Within one posting every
    step catches its own failure: the exported record always exists, and
    each field is determined by its own region of the page, absent when
    that region is missing, whatever the other regions hold.  The salary
    step is no exception: a money token that [float] rejects leaves both
    salaries absent and every other field as it is; fewer than two
    numbers leave both absent; two or more set both, to two of the
    parsed numbers. *)
Theorem fault_isolation :
  (forall (iJob : LinkRecord),
     (link_desc iJob = None \/
      exists u e, link_desc iJob = Some u /\ urlopen_soup u = inl e) ->
     _get_job_desc_page_source urlopen_soup iJob = None /\
     forall pre post,
       collect [] (pre ++ iJob :: post)%list = (collect [] pre ++ collect [] post)%list) /\
  (forall (iJob : LinkRecord) u page,
     link_desc iJob = Some u -> urlopen_soup u = inr page -> div_location page = None ->
     forall pre post,
       collect [] (pre ++ iJob :: post)%list = (collect [] pre ++ collect [] post)%list) /\
  (forall pre post,
     collect [] (pre ++ post)%list = (collect [] pre ++ collect [] post)%list) /\
  (forall (page : Page) (d a : option string),
     exists mx mn : option F,
     export_posting_info float_of ltb (LeverJob_init F page d a today) =
     {| rec_company := option_map (fun h => strip (hd "" (split "-" h))) (title_tag page);
        rec_title := option_map (fun h => strip (last (split "-" h) "")) (title_tag page);
        rec_team := option_map rstrip_slash (div_department page);
        rec_location :=
          match title_tag page with
          | Some h =>
              if str_in "remote" (lower h) then Some "Remote"
              else option_map rstrip_slash (div_location page)
          | None => option_map rstrip_slash (div_location page)
          end;
        rec_hours := option_map rstrip_slash (div_commitment page);
        rec_wfh := option_map rstrip_slash (div_workplaceTypes page);
        rec_min_salary := mn;
        rec_max_salary := mx;
        rec_desc := option_map _clean_desc_and_qual (nth_error (sections page) 1);
        rec_qual := option_map _clean_desc_and_qual (nth_error (sections page) 2);
        rec_posting := d;
        rec_apply := a;
        rec_scraped := today;
        rec_applied := false |} /\
     ((exists tok, In tok (section_tokens page) /\
                   float_of (clean_money_token tok) = None) ->
        mx = None /\ mn = None) /\
     (forall nums,
        map (fun t => float_of (clean_money_token t)) (section_tokens page) = map Some nums ->
        (List.length nums < 2 -> mx = None /\ mn = None) /\
        (2 <= List.length nums ->
         exists x y rest,
           Permutation nums (x :: y :: rest) /\ mx = Some x /\ mn = Some y))).
Proof.
  assert (Skip : forall iJob, collect [] [iJob] = [] ->
            forall pre post,
              collect [] (pre ++ iJob :: post)%list =
              (collect [] pre ++ collect [] post)%list).
  { intros iJob H pre post.
    change (iJob :: post) with ([iJob] ++ post)%list.
    now rewrite !collect_app, H. }
  split; [|split; [|split]].
  - intros iJob H.
    assert (G : _get_job_desc_page_source urlopen_soup iJob = None).
    { unfold _get_job_desc_page_source.
      destruct H as [-> | (u & e & -> & E)]; [reflexivity|].
      cbn [bind ret]. now rewrite E. }
    split; [exact G|]. apply Skip. unfold collect. cbn [collect_job_info].
    now rewrite G.
  - intros iJob u page Hd Hu Hl. apply Skip. unfold collect. cbn [collect_job_info].
    unfold _get_job_desc_page_source. rewrite Hd. cbn [bind ret]. rewrite Hu.
    unfold _parse_location_info. now rewrite Hl.
  - apply collect_app.
  - intros page d a.
    pose proof (parse_before_salary_init F page d a today) as I.
    pose proof (parse_salary_fields F float_of ltb
                  (parse_before_salary (LeverJob_init F page d a today))) as [Bad Good].
    assert (Pg : job_page_source (parse_before_salary (LeverJob_init F page d a today)) = page)
      by (now rewrite I).
    assert (Mx : max_salary (parse_before_salary (LeverJob_init F page d a today)) = None)
      by (now rewrite I).
    assert (Mn : min_salary (parse_before_salary (LeverJob_init F page d a today)) = None)
      by (now rewrite I).
    rewrite Pg in Bad, Good.
    exists (max_salary (_parse_salary float_of ltb
                          (parse_before_salary (LeverJob_init F page d a today)))),
           (min_salary (_parse_salary float_of ltb
                          (parse_before_salary (LeverJob_init F page d a today)))).
    split; [|split].
    + unfold export_posting_info.
      fold (parse_before_salary (LeverJob_init F page d a today)).
      destruct (parse_salary_shape F float_of ltb
                  (parse_before_salary (LeverJob_init F page d a today)))
        as (mx & mn & ->).
      rewrite I. reflexivity.
    + exact Bad.
    + intros nums H. destruct (Good nums H) as [Few Many]. split.
      * intros L. rewrite (Few L). now split.
      * exact Many.
Qed.

End BatchFacts.

Lemma fault_isolation_witness :
  collect_job_info float_of_digits Z.ltb sample_urlopen (fun l => l) sample_tables
    "11/03/2026" []
    [sample_job "lever.co/acme/123"; sample_job "lever.co/gone/1";
     sample_job "lever.co/acme/123"] =
  [sample_record; sample_record] /\
  collect_job_info float_of_digits Z.ltb sample_urlopen (fun l => l) sample_tables
    "11/03/2026" []
    [sample_job "lever.co/acme/123"; sample_job "lever.co/acme/456";
     sample_job "lever.co/acme/123"] =
  [sample_record; sample_record] /\
  (rec_max_salary (export_posting_info float_of_digits Z.ltb
                     (LeverJob_init Z sample_page_tbd None None "11/03/2026")) = None /\
   rec_min_salary (export_posting_info float_of_digits Z.ltb
                     (LeverJob_init Z sample_page_tbd None None "11/03/2026")) = None /\
   rec_team (export_posting_info float_of_digits Z.ltb
               (LeverJob_init Z sample_page_tbd None None "11/03/2026")) = Some "Data ").
Proof.
  pose proof (fault_isolation Z float_of_digits Z.ltb sample_urlopen (fun l => l)
                sample_tables "11/03/2026") as (Fetch & Loc & _ & Fields).
  split; [|split].
  3:{ destruct (Fields sample_page_tbd None None) as (mx & mn & -> & Bad & _).
      cbn [rec_max_salary rec_min_salary rec_team].
      destruct Bad as [-> ->].
      - exists "$TBD". split; [simpl; auto | reflexivity].
      - repeat split. }
  - etransitivity;
      [exact (proj2 (Fetch (sample_job "lever.co/gone/1")
                       (or_intror (ex_intro _ "lever.co/gone/1"
                          (ex_intro _ URLError (conj eq_refl eq_refl)))))
                [sample_job "lever.co/acme/123"] [sample_job "lever.co/acme/123"])
      | reflexivity].
  - etransitivity;
      [exact (Loc (sample_job "lever.co/acme/456") "lever.co/acme/456"
                sample_page_no_location eq_refl eq_refl eq_refl
                [sample_job "lever.co/acme/123"] [sample_job "lever.co/acme/123"])
      | reflexivity].
Defined.

(* ------------------------------------------------------------------------- *)
(** ** Further properties of link processing *)
(* ------------------------------------------------------------------------- *)

Lemma process_links_filter_map (url : string) (links : list string) :
  _process_links url links = map link_record (filter (_validate_link url) links).
Proof.
  induction links as [|l links IH]; [reflexivity|].
  simpl. destruct (_validate_link url l); simpl; now rewrite IH.
Qed.

Lemma link_record_urls (iLink : string) :
  exists d a,
    link_desc (link_record iLink) = Some d /\ link_apply (link_record iLink) = Some a /\
    (d = iLink \/ a = iLink).
Proof.
  unfold link_record.
  destruct (negb (lower (last (split "/" iLink) "") =? "apply")); cbn [link_desc link_apply].
  - eexists _, _. split; [reflexivity|]. split; [reflexivity|]. now left.
  - eexists _, _. split; [reflexivity|]. split; [reflexivity|]. now right.
Qed.

(** X1. [_process_links] emits one record per valid link, in input order:
    the records stand position by position against the valid links taken
    in the order of the input, and the records of a concatenation are the
    records of its parts one after the other.  In every record both URLs
    are set and one of the two is the scraped link itself. *)
Theorem process_links_records (url : string) (links : list string) :
  Forall2 (fun link r =>
             exists d a,
               link_desc r = Some d /\ link_apply r = Some a /\ (d = link \/ a = link))
          (filter (_validate_link url) links) (_process_links url links) /\
  (forall pre post,
     links = (pre ++ post)%list ->
     _process_links url links = (_process_links url pre ++ _process_links url post)%list) /\
  List.length (_process_links url links) =
    List.length (filter (_validate_link url) links) /\
  (forall r, In r (_process_links url links) ->
     exists link d a,
       In link links /\ _validate_link url link = true /\
       link_desc r = Some d /\ link_apply r = Some a /\ (d = link \/ a = link)) /\
  (forall link, In link links -> _validate_link url link = true ->
     In (link_record link) (_process_links url links)).
Proof.
  split.
  { rewrite process_links_filter_map.
    induction (filter (_validate_link url) links) as [|l ls IH]; [constructor|].
    cbn [map]. constructor; [|exact IH].
    destruct (link_record_urls l) as (d & a & Hd & Ha & Hor). now exists d, a. }
  split; [intros pre post ->; apply process_links_app|].
  rewrite process_links_filter_map. split; [apply length_map|]. split.
  - intros r Hr. apply in_map_iff in Hr as (link & <- & Hl).
    apply filter_In in Hl as [Hin Hv].
    destruct (link_record_urls link) as (d & a & Hd & Ha & Hor).
    exists link, d, a. auto.
  - intros link Hin Hv. apply in_map. apply filter_In. now split.
Qed.

Lemma process_links_records_witness :
  exists link d a,
    In link ["lever.co"; "lever.co/acme/9/apply"] /\
    _validate_link Lever_url link = true /\
    link_desc (link_record "lever.co/acme/9/apply") = Some d /\
    link_apply (link_record "lever.co/acme/9/apply") = Some a /\ (d = link \/ a = link).
Proof.
  apply (proj1 (proj2 (proj2 (proj2
           (process_links_records Lever_url ["lever.co"; "lever.co/acme/9/apply"]))))).
  simpl. now left.
Defined.

(* ------------------------------------------------------------------------- *)
(** ** Further properties of location classification *)
(* ------------------------------------------------------------------------- *)

(** X2. A verdict of [_validate_location_in_usa] always rests on a token:
    false only if some token is a foreign country or a non-US city, true
    only if some token is a two-letter abbreviated state, a full state or a
    US city, and [None] only if no rule fires on any token. *)
Theorem location_verdict_has_evidence (T : ReferenceTables) (locations : list string) :
  (_validate_location_in_usa locations T = Some false ->
     exists t, In t locations /\
               (In t (foreign_countries T) \/ In t (non_us_cities T))) /\
  (_validate_location_in_usa locations T = Some true ->
     exists t, In t locations /\
               (matches_abbreviated T t \/ In t (us_states_full T) \/ In t (us_cities T))) /\
  (_validate_location_in_usa locations T = None ->
     Forall (no_rule_matches T) locations).
Proof.
  induction locations as [|u rest (IHf & IHt & IHn)].
  - repeat split; try discriminate. constructor.
  - cbn [_validate_location_in_usa].
    destruct ((String.length u =? 2)%nat &&
              _check_if_exists_in_array u (us_states_abbreviated T))%bool eqn:A.
    { apply abbreviated_rule in A. repeat split; try discriminate.
      intros _. exists u. split; [now left | now left]. }
    destruct (_check_if_exists_in_array u (foreign_countries T)) eqn:B.
    { apply check_if_exists_In in B. repeat split; try discriminate.
      intros _. exists u. split; [now left | now left]. }
    destruct (_check_if_exists_in_array u (us_states_full T)) eqn:C.
    { apply check_if_exists_In in C. repeat split; try discriminate.
      intros _. exists u. split; [now left | right; now left]. }
    destruct (_check_if_exists_in_array u (us_cities T)) eqn:D.
    { apply check_if_exists_In in D. repeat split; try discriminate.
      intros _. exists u. split; [now left | right; now right]. }
    destruct (_check_if_exists_in_array u (non_us_cities T)) eqn:E.
    { apply check_if_exists_In in E. repeat split; try discriminate.
      intros _. exists u. split; [now left | now right]. }
    split; [|split].
    + intros H. destruct (IHf H) as (t & Hin & Ht). exists t. split; [now right | exact Ht].
    + intros H. destruct (IHt H) as (t & Hin & Ht). exists t. split; [now right | exact Ht].
    + intros H. constructor; [|now apply IHn].
      apply check_if_exists_not_In in B, C, D, E.
      repeat split; auto. intros M. apply abbreviated_rule in M. congruence.
Qed.

Lemma location_verdict_has_evidence_witness :
  (exists t, In t ["paris"; "berlin"; "ca"] /\
             (In t (foreign_countries sample_tables) \/ In t (non_us_cities sample_tables))) /\
  (exists t, In t ["remote"; "texas"] /\
             (matches_abbreviated sample_tables t \/ In t (us_states_full sample_tables) \/
              In t (us_cities sample_tables))) /\
  Forall (no_rule_matches sample_tables) ["remote"; "anywhere"].
Proof.
  split; [|split].
  - apply (proj1 (location_verdict_has_evidence sample_tables ["paris"; "berlin"; "ca"])).
    reflexivity.
  - apply (proj1 (proj2 (location_verdict_has_evidence sample_tables ["remote"; "texas"]))).
    reflexivity.
  - apply (proj2 (proj2 (location_verdict_has_evidence sample_tables ["remote"; "anywhere"]))).
    reflexivity.
Defined.

Lemma lower_char_idem (c : ascii) : lower_char (lower_char c) = lower_char c.
Proof.
  destruct c as [b0 b1 b2 b3 b4 b5 b6 b7].
  destruct b0, b1, b2, b3, b4, b5, b6, b7; reflexivity.
Qed.

Lemma lower_idem (s : string) : lower (lower s) = lower s.
Proof.
  induction s as [|c s IH]; [reflexivity|]. simpl. now rewrite lower_char_idem, IH.
Qed.

Lemma lower_char_space_comma (c : ascii) :
  Ascii.eqb " " (lower_char c) = Ascii.eqb " " c /\
  Ascii.eqb "," (lower_char c) = Ascii.eqb "," c.
Proof.
  destruct c as [b0 b1 b2 b3 b4 b5 b6 b7].
  destruct b0, b1, b2, b3, b4, b5, b6, b7; split; reflexivity.
Qed.

Lemma lower_keeps_space_comma (s : string) :
  char_in " " (lower s) = char_in " " s /\ char_in "," (lower s) = char_in "," s.
Proof.
  induction s as [|c s [IH1 IH2]]; [now split|]. cbn [lower char_in].
  destruct (lower_char_space_comma c) as [-> ->]. now rewrite IH1, IH2.
Qed.

(** The pieces of [split] do not contain the separator, and carry no
    character that the string does not have. *)
Lemma split_pieces (sep : ascii) (s x : string) :
  In x (split sep s) ->
  char_in sep x = false /\ forall c, char_in c s = false -> char_in c x = false.
Proof.
  revert x; induction s as [|d s IH]; intros x Hin.
  - destruct Hin as [<-|[]]. now split.
  - simpl in Hin. destruct (Ascii.eqb_spec d sep) as [->|Hd].
    + destruct Hin as [<-|Hin]; [now split|].
      destruct (IH x Hin) as [H1 H2]. split; [exact H1|].
      intros c Hc. simpl in Hc. apply orb_false_iff in Hc as [_ Hc]. now apply H2.
    + destruct (split sep s) as [|seg segs] eqn:E.
      * destruct Hin as [<-|[]]. split.
        -- simpl. rewrite orb_false_r. apply Ascii.eqb_neq. congruence.
        -- intros c Hc. simpl in Hc |- *. apply orb_false_iff in Hc as [Hc _].
           now rewrite Hc.
      * destruct Hin as [<-|Hin].
        -- destruct (IH seg (or_introl eq_refl)) as [H1 H2]. split.
           ++ simpl. rewrite H1, orb_false_r. apply Ascii.eqb_neq. congruence.
           ++ intros c Hc. simpl in Hc |- *. apply orb_false_iff in Hc as [Hc1 Hc2].
              now rewrite Hc1, (H2 c Hc2).
        -- destruct (IH x (or_intror Hin)) as [H1 H2]. split; [exact H1|].
           intros c Hc. simpl in Hc. apply orb_false_iff in Hc as [_ Hc]. now apply H2.
Qed.

Lemma lower_nonempty (s : string) : s <> "" -> lower s <> "".
Proof. destruct s; [congruence | discriminate]. Qed.

Lemma check_if_exists_filter (p : string -> bool) (t : string) (tbl : list string) :
  p t = true ->
  _check_if_exists_in_array t (filter p tbl) = _check_if_exists_in_array t tbl.
Proof.
  intros Hp. unfold _check_if_exists_in_array.
  induction tbl as [|e tbl IH]; [reflexivity|]. simpl.
  destruct (p e) eqn:E; simpl; [now rewrite IH|].
  rewrite IH. destruct (String.eqb_spec t e) as [->|]; [congruence | reflexivity].
Qed.

Lemma validate_location_reachable (T : ReferenceTables) (tokens : list string) :
  Forall (fun t => token_shaped t = true) tokens ->
  _validate_location_in_usa tokens (reachable_tables T) = _validate_location_in_usa tokens T.
Proof.
  induction 1 as [|t tokens Ht _ IH]; [reflexivity|].
  cbn [_validate_location_in_usa reachable_tables us_states_abbreviated foreign_countries
       us_states_full us_cities non_us_cities].
  rewrite !(check_if_exists_filter token_shaped t) by exact Ht.
  now rewrite IH.
Qed.

Section LocationTokens.

(** The order in which a Python [set] built from a list is iterated; it
    holds no element that the list does not hold. *)
Variable set_iter : list string -> list string.
Hypothesis set_iter_sub : forall l x, In x (set_iter l) -> In x l.

Lemma parse_location_info_shaped (page : Page) (tokens : list string) :
  _parse_location_info set_iter page = Some tokens ->
  Forall (fun t => token_shaped t = true) tokens.
Proof.
  unfold _parse_location_info. destruct (div_location page) as [text|]; [|discriminate].
  cbn [text_of bind ret]. intros [= <-].
  apply Forall_forall. intros t Ht.
  apply in_map_iff in Ht as (x & <- & Hx).
  apply filter_In in Hx as [Hx Hne]. apply set_iter_sub in Hx.
  apply negb_true_iff, String.eqb_neq in Hne.
  destruct (split_pieces " " _ x Hx) as [Hsp Hsub].
  assert (Hco : char_in "," x = false).
  { apply Hsub. apply (replace_from_deletes_char "," text). }
  destruct (lower_keeps_space_comma x) as [L1 L2].
  unfold token_shaped. rewrite L1, L2, Hsp, Hco, lower_idem, String.eqb_refl.
  apply lower_nonempty, String.eqb_neq in Hne. now rewrite Hne.
Qed.

(** X3. The tokens that [_parse_location_info] extracts are non-empty,
    lower-case and free of spaces and commas; so a table entry that is
    empty, has a space, a comma or an upper-case letter never matches, and
    the verdict on a page is the same with those entries removed. *)
Theorem location_tokens_shape (page : Page) (tokens : list string) (T : ReferenceTables) :
  _parse_location_info set_iter page = Some tokens ->
  Forall (fun t => t <> "" /\ char_in " " t = false /\ char_in "," t = false /\ lower t = t)
         tokens /\
  _validate_location_in_usa tokens (reachable_tables T) = _validate_location_in_usa tokens T.
Proof.
  intros H. pose proof (parse_location_info_shaped page tokens H) as S. split.
  - apply Forall_forall. intros t Ht. rewrite Forall_forall in S. specialize (S t Ht).
    unfold token_shaped in S.
    apply andb_true_iff in S as [S S4]. apply andb_true_iff in S as [S S3].
    apply andb_true_iff in S as [S1 S2].
    apply negb_true_iff in S1, S2, S3. apply String.eqb_neq in S1. apply String.eqb_eq in S4.
    auto.
  - now apply validate_location_reachable.
Qed.

End LocationTokens.

Lemma location_tokens_shape_witness :
  Forall (fun t => t <> "" /\ char_in " " t = false /\ char_in "," t = false /\ lower t = t)
         ["boston"; "ma"; "/"] /\
  _validate_location_in_usa ["boston"; "ma"; "/"] (reachable_tables sample_tables) =
  _validate_location_in_usa ["boston"; "ma"; "/"] sample_tables.
Proof.
  apply (location_tokens_shape (fun l => l) (fun l x H => H) sample_page
           ["boston"; "ma"; "/"] sample_tables).
  reflexivity.
Defined.

(* ------------------------------------------------------------------------- *)
(** ** Further properties of the batch and of the record store *)
(* ------------------------------------------------------------------------- *)

Lemma is_True_iff (v : option bool) : is_True v = true <-> v = Some true.
Proof. destruct v as [[|]|]; simpl; split; congruence. Qed.

Section BatchBounds.

Variable F : Type.
Variable float_of : string -> option F.
Variable ltb : F -> F -> bool.
Variable urlopen_soup : string -> result Page.
Variable set_iter : list string -> list string.
Variable T : ReferenceTables.
Variable today : string.

Let collect := collect_job_info float_of ltb urlopen_soup set_iter T today.
Let save := save_job_info float_of ltb urlopen_soup set_iter T today.

(** What one posting adds to [job_info]. *)
Lemma collect_one (iJob : LinkRecord) :
  collect [] [iJob] = [] \/
  exists page tokens,
    _get_job_desc_page_source urlopen_soup iJob = Some page /\
    _parse_location_info set_iter page = Some tokens /\
    _validate_location_in_usa tokens T = Some true /\
    collect [] [iJob] =
    [export_posting_info float_of ltb
       (LeverJob_init F page (link_desc iJob) (link_apply iJob) today)].
Proof.
  unfold collect. cbn [collect_job_info].
  destruct (_get_job_desc_page_source urlopen_soup iJob) as [page|] eqn:Hf; [|now left].
  destruct (_parse_location_info set_iter page) as [tokens|] eqn:Hl; [|now left].
  destruct (is_True (_validate_location_in_usa tokens T)) eqn:G; [|now left].
  right. exists page, tokens. apply is_True_iff in G. now repeat split.
Qed.

Lemma collect_step (iJob : LinkRecord) (rest : list LinkRecord) :
  collect [] (iJob :: rest) = (collect [] [iJob] ++ collect [] rest)%list.
Proof.
  unfold collect.
  rewrite (collect_cons F float_of ltb urlopen_soup set_iter T today [] iJob rest).
  apply collect_acc.
Qed.

(** X4. A batch yields at most one record per link; hence
    [save_job_info] called with no link or a single link never touches the
    destination. *)
Theorem save_job_info_small_batch (jobs : list LinkRecord) (fs : file_state F) :
  List.length (collect [] jobs) <= List.length jobs /\
  (List.length jobs <= 1 -> save jobs fs = fs).
Proof.
  assert (B : List.length (collect [] jobs) <= List.length jobs).
  { induction jobs as [|iJob rest IH]; [simpl; lia|].
    rewrite collect_step, length_app.
    destruct (collect_one iJob) as [E | (page & tokens & _ & _ & _ & E)];
      rewrite E; cbn [List.length]; lia. }
  split; [exact B|]. intros L. unfold save, save_job_info, store_job_info.
  fold collect. destruct (Nat.ltb_spec 1 (List.length (collect [] jobs))); [lia | reflexivity].
Qed.

Lemma export_init_links (page : Page) (d a : option string) :
  let r := export_posting_info float_of ltb (LeverJob_init F page d a today) in
  rec_posting r = d /\ rec_apply r = a /\ rec_scraped r = today /\ rec_applied r = false.
Proof.
  cbv zeta. unfold export_posting_info.
  fold (parse_before_salary (LeverJob_init F page d a today)).
  destruct (parse_salary_shape F float_of ltb
              (parse_before_salary (LeverJob_init F page d a today))) as (mx & mn & ->).
  rewrite parse_before_salary_init. now repeat split.
Qed.

(** X5. Every record of a batch comes from a link whose page was fetched
    and whose location tokens were classified [True]; it carries the two
    URLs of that link, today's date and [applied = False]. *)
Theorem save_job_info_gate (jobs : list LinkRecord) (r : PostingRecord F) :
  In r (collect [] jobs) ->
  exists iJob page tokens,
    In iJob jobs /\
    _get_job_desc_page_source urlopen_soup iJob = Some page /\
    _parse_location_info set_iter page = Some tokens /\
    _validate_location_in_usa tokens T = Some true /\
    r = export_posting_info float_of ltb
          (LeverJob_init F page (link_desc iJob) (link_apply iJob) today) /\
    rec_posting r = link_desc iJob /\ rec_apply r = link_apply iJob /\
    rec_scraped r = today /\ rec_applied r = false.
Proof.
  induction jobs as [|iJob rest IH]; [intros []|].
  rewrite collect_step. intros H. apply in_app_or in H as [H|H].
  - destruct (collect_one iJob) as [E | (page & tokens & Hf & Hl & Hv & E)];
      rewrite E in H; [destruct H|].
    destruct H as [<-|[]]. exists iJob, page, tokens.
    split; [now left|]. do 4 (split; [easy|]).
    apply export_init_links.
  - destruct (IH H) as (j & page & tokens & Hin & Hrest).
    exists j, page, tokens. split; [now right | exact Hrest].
Qed.

(** X6. The store keeps the layout of the destination: a file that is
    absent, or a header followed by rows, is afterwards absent or a header
    followed by rows, and the lines it had are still its first lines. *)
Theorem store_job_info_layout (job_info : list (PostingRecord F)) (fs : file_state F) :
  header_then_rows fs ->
  header_then_rows (store_job_info job_info fs) /\
  (forall old, fs = Some old ->
     exists more, store_job_info job_info fs = Some (old ++ map Row more)%list) /\
  (fs = None -> store_job_info job_info fs = None \/
                store_job_info job_info fs = Some (Header :: map Row job_info)).
Proof.
  intros W. unfold store_job_info.
  destruct (1 <? List.length job_info)%nat.
  - destruct fs as [old|]; cbn [to_csv_x to_csv_a ret raise].
    + split; [|split; [|discriminate]].
      * destruct W as [W | (rows & [= ->])]; [discriminate|].
        right. exists (rows ++ job_info)%list.
        now rewrite map_app.
      * intros o [= <-]. now exists job_info.
    + split; [|split; [discriminate | now right]].
      right. now exists job_info.
  - split; [exact W|]. split; [|now left].
    intros old ->. exists []. simpl. now rewrite app_nil_r.
Qed.

End BatchBounds.

Lemma save_job_info_small_batch_witness :
  save_job_info float_of_digits Z.ltb sample_urlopen (fun l => l) sample_tables
    "11/03/2026" [sample_job "lever.co/acme/123"] None = None.
Proof.
  apply (proj2 (save_job_info_small_batch Z float_of_digits Z.ltb sample_urlopen
                  (fun l => l) sample_tables "11/03/2026"
                  [sample_job "lever.co/acme/123"] None)).
  simpl. lia.
Defined.

Lemma save_job_info_gate_witness :
  exists iJob page tokens,
    In iJob [sample_job "lever.co/gone/1"; sample_job "lever.co/acme/123"] /\
    _get_job_desc_page_source sample_urlopen iJob = Some page /\
    _parse_location_info (fun l => l) page = Some tokens /\
    _validate_location_in_usa tokens sample_tables = Some true /\
    sample_record = export_posting_info float_of_digits Z.ltb
          (LeverJob_init Z page (link_desc iJob) (link_apply iJob) "11/03/2026") /\
    rec_posting sample_record = link_desc iJob /\ rec_apply sample_record = link_apply iJob /\
    rec_scraped sample_record = "11/03/2026" /\ rec_applied sample_record = false.
Proof.
  apply (save_job_info_gate Z float_of_digits Z.ltb sample_urlopen (fun l => l)
           sample_tables "11/03/2026"
           [sample_job "lever.co/gone/1"; sample_job "lever.co/acme/123"] sample_record).
  simpl. now left.
Defined.

Lemma store_job_info_layout_witness :
  header_then_rows
    (store_job_info [sample_record; sample_record] (Some [Header; Row sample_record])) /\
  (forall old, Some [Header; Row sample_record] = Some old ->
     exists more,
       store_job_info [sample_record; sample_record] (Some [Header; Row sample_record]) =
       Some (old ++ map Row more)%list) /\
  (Some [Header; Row sample_record] = None ->
     store_job_info [sample_record; sample_record] (Some [Header; Row sample_record]) = None \/
     store_job_info [sample_record; sample_record] (Some [Header; Row sample_record]) =
     Some (Header :: map Row [sample_record; sample_record])).
Proof.
  apply (store_job_info_layout Z [sample_record; sample_record]
           (Some [Header; Row sample_record])).
  right. now exists [sample_record].
Defined.

(* ------------------------------------------------------------------------- *)
(** ** Further properties of the posting parser *)
(* ------------------------------------------------------------------------- *)

Lemma char_in_eqb_false (sep c : ascii) (s : string) :
  char_in sep (String c s) = false -> Ascii.eqb c sep = false /\ char_in sep s = false.
Proof.
  simpl. intros H. apply orb_false_iff in H as [H1 H2]. split; [|exact H2].
  now rewrite Ascii.eqb_sym.
Qed.

Lemma split_no_sep (sep : ascii) (s : string) :
  char_in sep s = false -> split sep s = [s].
Proof.
  induction s as [|c s IH]; [reflexivity|]. intros H.
  apply char_in_eqb_false in H as [H1 H2]. simpl. now rewrite H1, (IH H2).
Qed.

Lemma split_app_sep (sep : ascii) (a b : string) :
  split sep (a ++ String sep b) = (split sep a ++ split sep b)%list.
Proof.
  induction a as [|c a IH]; simpl.
  - now rewrite Ascii.eqb_refl.
  - destruct (Ascii.eqb c sep); [now rewrite IH|].
    rewrite IH. pose proof (split_length_pos sep a) as L.
    destruct (split sep a); [simpl in L; lia | reflexivity].
Qed.

Lemma last_app_nonempty {A} (l1 l2 : list A) (d : A) :
  l2 <> [] -> last (l1 ++ l2) d = last l2 d.
Proof.
  intros H. induction l1 as [|x l1 IH]; [reflexivity|].
  simpl. destruct (l1 ++ l2)%list eqn:E; [|exact IH].
  apply app_eq_nil in E as [_ E]. contradiction.
Qed.

Section TitleTag.

Variable F : Type.

(** X7. [_parse_using_title_tag] cuts the title text at its hyphens: the
    company is the stripped text before the first hyphen and the title the
    stripped text after the last one, so what stands between two hyphens
    is in neither; a text without a hyphen is both company and title. *)
Theorem title_tag_hyphens (self : LeverJob F) (text : string) :
  title_tag (job_page_source self) = Some text ->
  (char_in "-" text = false ->
     company (_parse_using_title_tag self) = Some (strip text) /\
     title (_parse_using_title_tag self) = Some (strip text)) /\
  (forall a b, text = a ++ "-" ++ b ->
     (char_in "-" a = false ->
        company (_parse_using_title_tag self) = Some (strip a)) /\
     (char_in "-" b = false ->
        title (_parse_using_title_tag self) = Some (strip b))).
Proof.
  intros Ht.
  assert (E : company (_parse_using_title_tag self) = Some (strip (hd "" (split "-" text))) /\
              title (_parse_using_title_tag self) = Some (strip (last (split "-" text) ""))).
  { rewrite parse_using_title_tag_eq, Ht. cbv zeta.
    destruct (str_in "remote" (lower text)); now split. }
  destruct E as [Ec Et]. rewrite Ec, Et. split.
  - intros H. now rewrite (split_no_sep "-" text H).
  - intros a b ->. change (a ++ "-" ++ b) with (a ++ String "-" b).
    rewrite split_app_sep. split; intros H.
    + now rewrite (split_no_sep "-" a H).
    + rewrite last_app_nonempty by (rewrite (split_no_sep "-" b H); discriminate).
      now rewrite (split_no_sep "-" b H).
Qed.

End TitleTag.

Lemma title_tag_hyphens_witness :
  (company (_parse_using_title_tag
              (LeverJob_init Z sample_page_slashes None None "")) = Some "Acme Data Scientist" /\
   title (_parse_using_title_tag
            (LeverJob_init Z sample_page_slashes None None "")) = Some "Acme Data Scientist") /\
  company (_parse_using_title_tag
             (LeverJob_init Z sample_page_remote None None "")) = Some "Acme" /\
  title (_parse_using_title_tag
           (LeverJob_init Z sample_page_remote None None "")) = Some "Data Scientist (REMOTE)".
Proof.
  split.
  - exact (proj1 (title_tag_hyphens Z (LeverJob_init Z sample_page_slashes None None "")
                    "Acme Data Scientist" eq_refl) eq_refl).
  - pose proof (proj2 (title_tag_hyphens Z (LeverJob_init Z sample_page_remote None None "")
                         "Acme - Data Scientist (REMOTE)" eq_refl)
                  "Acme " " Data Scientist (REMOTE)" eq_refl) as [Hc Ht].
    split; [exact (Hc eq_refl) | exact (Ht eq_refl)].
Defined.

Lemma rstrip_slash_cons (c : ascii) (s : string) :
  rstrip_slash (String c s) =
  match rstrip_slash s with
  | EmptyString => if Ascii.eqb "/" c then EmptyString else String c EmptyString
  | String d t => String c (String d t)
  end.
Proof. reflexivity. Qed.

(** [s.rstrip('/')] is [s] without its trailing run of slashes. *)
Lemma rstrip_slash_spec (s : string) :
  exists n, s = rstrip_slash s ++ slashes n /\ str_last (rstrip_slash s) <> Some "/"%char.
Proof.
  induction s as [|c s (n & E & L)].
  - exists 0. split; [reflexivity | discriminate].
  - rewrite rstrip_slash_cons. destruct (rstrip_slash s) as [|d t] eqn:R.
    + destruct (Ascii.eqb_spec "/"%char c) as [<-|Hc].
      * exists (S n). split; [|discriminate]. simpl. f_equal. exact E.
      * exists n. split; [simpl; f_equal; exact E|]. simpl. congruence.
    + exists n. split; [simpl; f_equal; exact E|]. exact L.
Qed.

Section RegionFields.

Variable F : Type.

(** X8. The team, hours, work-from-home and location fields are the text
    of their region without its trailing slashes: nothing else is trimmed,
    and the field never ends with a slash. *)
Theorem region_fields_trailing_slashes (self : LeverJob F) (text : string) :
  (div_department (job_page_source self) = Some text ->
     exists v n, team (_parse_team self) = Some v /\
                 text = v ++ slashes n /\ str_last v <> Some "/"%char) /\
  (div_commitment (job_page_source self) = Some text ->
     exists v n, hours (_parse_hours self) = Some v /\
                 text = v ++ slashes n /\ str_last v <> Some "/"%char) /\
  (div_workplaceTypes (job_page_source self) = Some text ->
     exists v n, wfh (_parse_wfh self) = Some v /\
                 text = v ++ slashes n /\ str_last v <> Some "/"%char) /\
  (div_location (job_page_source self) = Some text -> location self = None ->
     exists v n, location (_parse_location self) = Some v /\
                 text = v ++ slashes n /\ str_last v <> Some "/"%char).
Proof.
  destruct (rstrip_slash_spec text) as (n & E & L).
  split; [|split; [|split]].
  - intros H. exists (rstrip_slash text), n. rewrite parse_team_eq, H. now repeat split.
  - intros H. exists (rstrip_slash text), n. rewrite parse_hours_eq, H. now repeat split.
  - intros H. exists (rstrip_slash text), n. rewrite parse_wfh_eq, H. now repeat split.
  - intros H N. exists (rstrip_slash text), n. rewrite parse_location_eq, N, H.
    now repeat split.
Qed.

End RegionFields.

Lemma region_fields_trailing_slashes_witness :
  (exists v n, team (_parse_team (LeverJob_init Z sample_page_slashes None None "")) = Some v /\
               "Data //" = v ++ slashes n /\ str_last v <> Some "/"%char) /\
  (exists v n, hours (_parse_hours (LeverJob_init Z sample_page_slashes None None "")) = Some v /\
               "Data //" = v ++ slashes n /\ str_last v <> Some "/"%char) /\
  (exists v n, wfh (_parse_wfh (LeverJob_init Z sample_page_slashes None None "")) = Some v /\
               "Data //" = v ++ slashes n /\ str_last v <> Some "/"%char) /\
  (exists v n, location (_parse_location
                           (LeverJob_init Z sample_page_slashes None None "")) = Some v /\
               "Data //" = v ++ slashes n /\ str_last v <> Some "/"%char).
Proof.
  pose proof (region_fields_trailing_slashes Z
                (LeverJob_init Z sample_page_slashes None None "") "Data //")
    as (H1 & H2 & H3 & H4).
  split; [exact (H1 eq_refl)|]. split; [exact (H2 eq_refl)|].
  split; [exact (H3 eq_refl) | exact (H4 eq_refl eq_refl)].
Defined.

(* ------------------------------------------------------------------------- *)
(** ** Further properties of salary parsing *)
(* ------------------------------------------------------------------------- *)

Lemma replace_char_unfold (c : ascii) (s : string) :
  replace (String c "") "" s = replace_from (String c "") "" 0 s.
Proof. reflexivity. Qed.

Lemma replace_char_cons (c d : ascii) (s : string) :
  replace (String c "") "" (String d s) =
  if Ascii.eqb c d then replace (String c "") "" s
  else String d (replace (String c "") "" s).
Proof.
  rewrite !replace_char_unfold. cbn [replace_from prefix String.length Nat.sub].
  destruct (ascii_dec c d) as [->|n].
  - rewrite Ascii.eqb_refl. now rewrite prefix_nil_l.
  - apply Ascii.eqb_neq in n. now rewrite n.
Qed.

Lemma replace_char_app (c : ascii) (a b : string) :
  replace (String c "") "" (a ++ b) =
  replace (String c "") "" a ++ replace (String c "") "" b.
Proof.
  induction a as [|d a IH]; [reflexivity|].
  change (String d a ++ b) with (String d (a ++ b)).
  rewrite !replace_char_cons, IH. now destruct (Ascii.eqb c d).
Qed.

Lemma replace_char_absent (c : ascii) (s : string) :
  char_in c s = false -> replace (String c "") "" s = s.
Proof.
  induction s as [|d s IH]; [reflexivity|]. simpl char_in. intros H.
  apply orb_false_iff in H as [H1 H2]. now rewrite replace_char_cons, H1, (IH H2).
Qed.

Lemma replace_char_deletes (c : ascii) (s : string) :
  char_in c (replace (String c "") "" s) = false.
Proof. rewrite replace_char_unfold. apply replace_from_deletes_char. Qed.

Lemma replace_char_keeps_absent (c d : ascii) (s : string) :
  char_in d s = false -> char_in d (replace (String c "") "" s) = false.
Proof. rewrite replace_char_unfold. apply replace_from_delete_subset. Qed.

(** X9. [clean_money_token] deletes every comma, dollar sign, full stop and
    hyphen and nothing else, piece by piece: the cleaned form of a
    concatenation is the concatenation of the cleaned forms.  So the cents
    of [$A.B] and both ends of a range [$A-$B] written without a space run
    together into the digits of [A] followed by those of [B]. *)
Theorem clean_money_token_pieces :
  (forall i,
     char_in "," (clean_money_token i) = false /\ char_in "$" (clean_money_token i) = false /\
     char_in "." (clean_money_token i) = false /\ char_in "-" (clean_money_token i) = false) /\
  (forall a b, clean_money_token (a ++ b) = clean_money_token a ++ clean_money_token b) /\
  (forall a,
     char_in "," a = false -> char_in "$" a = false ->
     char_in "." a = false -> char_in "-" a = false ->
     clean_money_token a = a) /\
  (forall a b,
     clean_money_token a = a -> clean_money_token b = b ->
     clean_money_token ("$" ++ a ++ "." ++ b) = a ++ b /\
     clean_money_token ("$" ++ a ++ "-$" ++ b) = a ++ b).
Proof.
  assert (App : forall a b,
            clean_money_token (a ++ b) = clean_money_token a ++ clean_money_token b).
  { intros a b. unfold clean_money_token. now rewrite !replace_char_app. }
  split; [|split; [exact App|split]].
  - intros i. unfold clean_money_token. repeat split.
    + do 3 apply replace_char_keeps_absent. apply replace_char_deletes.
    + do 2 apply replace_char_keeps_absent. apply replace_char_deletes.
    + apply replace_char_keeps_absent. apply replace_char_deletes.
    + apply replace_char_deletes.
  - intros a H1 H2 H3 H4. unfold clean_money_token.
    now rewrite (replace_char_absent "," a H1), (replace_char_absent "$" a H2),
      (replace_char_absent "." a H3), (replace_char_absent "-" a H4).
  - intros a b Ha Hb. split.
    + rewrite (App "$"), (App a), (App "."), Ha, Hb. reflexivity.
    + rewrite (App "$"), (App a), (App "-$"), Ha, Hb. reflexivity.
Qed.

Lemma clean_money_token_pieces_witness :
  clean_money_token "120000" = "120000" /\
  clean_money_token ("$" ++ "120000" ++ "." ++ "50") = "120000" ++ "50" /\
  clean_money_token ("$" ++ "120000" ++ "-$" ++ "150000") = "120000" ++ "150000".
Proof.
  pose proof clean_money_token_pieces as (_ & _ & Id & Cat).
  assert (A : clean_money_token "120000" = "120000") by (apply Id; reflexivity).
  split; [exact A|]. split.
  - apply (proj1 (Cat "120000" "50" A (Id "50" eq_refl eq_refl eq_refl eq_refl))).
  - apply (proj2 (Cat "120000" "150000" A (Id "150000" eq_refl eq_refl eq_refl eq_refl))).
Defined.

Section SalarySpace.

Variable F : Type.
Variable float_of : string -> option F.
Variable ltb : F -> F -> bool.

(** X10. A salary text without a space character is at most one token, so
    it never yields a salary: [_parse_salary] leaves the instance as it is,
    or resets both salaries when [float] rejects the token; on a fresh
    instance both salaries stay absent.  A range written [$A-$B] is such a
    text. *)
Theorem parse_salary_needs_space (self : LeverJob F) (text : string) :
  salary_section_text (job_page_source self) = Some text ->
  char_in " " text = false ->
  List.length (section_tokens (job_page_source self)) <= 1 /\
  (_parse_salary float_of ltb self = self \/
   _parse_salary float_of ltb self = set_min_salary None (set_max_salary None self)) /\
  (max_salary self = None -> min_salary self = None ->
   max_salary (_parse_salary float_of ltb self) = None /\
   min_salary (_parse_salary float_of ltb self) = None).
Proof.
  intros Ht Hs.
  assert (L : List.length (section_tokens (job_page_source self)) <= 1).
  { unfold section_tokens, money_tokens. rewrite Ht, (split_no_sep " " text Hs).
    simpl. destruct (str_in "$" text); simpl; lia. }
  assert (D : _parse_salary float_of ltb self = self \/
              _parse_salary float_of ltb self = set_min_salary None (set_max_salary None self)).
  { unfold _parse_salary. rewrite parse_salary_body_tokens.
    destruct (section_tokens (job_page_source self)) as [|t [|t' ts]];
      [now left | | simpl in L; lia].
    cbn [mapM]. destruct (float float_of (clean_money_token t)); [now right | now left]. }
  split; [exact L|]. split; [exact D|].
  intros Hmx Hmn. destruct D as [-> | ->]; now split.
Qed.

End SalarySpace.

Lemma parse_salary_needs_space_witness :
  max_salary (_parse_salary float_of_digits Z.ltb
                (LeverJob_init Z sample_page_slashes None None "")) = None /\
  min_salary (_parse_salary float_of_digits Z.ltb
                (LeverJob_init Z sample_page_slashes None None "")) = None.
Proof.
  apply (proj2 (proj2 (parse_salary_needs_space Z float_of_digits Z.ltb
                         (LeverJob_init Z sample_page_slashes None None "")
                         "$120,000-$150,000" eq_refl eq_refl))); reflexivity.
Defined.

(* ------------------------------------------------------------------------- *)
(** ** Further properties of description cleaning *)
(* ------------------------------------------------------------------------- *)

(** X11. [_clean_desc_and_qual] works item by item: the result for two
    lists one after the other is the two results one after the other; and
    the result is empty exactly when every item is shorter than four
    characters, because each kept item contributes at least its space. *)
Theorem clean_desc_and_qual_items (l1 l2 : list string) :
  _clean_desc_and_qual (l1 ++ l2)%list = _clean_desc_and_qual l1 ++ _clean_desc_and_qual l2 /\
  (_clean_desc_and_qual l1 = "" <-> Forall (fun j => String.length j < 4) l1).
Proof.
  split.
  - induction l1 as [|j l1 IH]; [reflexivity|].
    change ((j :: l1) ++ l2)%list with (j :: (l1 ++ l2))%list.
    rewrite !clean_desc_and_qual_cons, IH.
    destruct (3 <? String.length j)%nat; [|reflexivity].
    now rewrite !str_app_assoc.
  - induction l1 as [|j l1 IH]; [split; [constructor | reflexivity]|].
    rewrite clean_desc_and_qual_cons.
    destruct (Nat.ltb_spec 3 (String.length j)) as [L|L].
    + split.
      * intros H. apply (f_equal String.length) in H.
        rewrite !str_app_length in H. simpl in H. lia.
      * intros H. inversion H; subst. lia.
    + rewrite IH. split.
      * intros H. constructor; [lia | exact H].
      * intros H. now inversion H.
Qed.

(* ------------------------------------------------------------------------- *)
(** ** The history file *)
(* ------------------------------------------------------------------------- *)

Lemma str_last_char (c : ascii) (s : string) :
  str_last s = Some c <-> exists p, s = p ++ String c "".
Proof.
  split.
  - induction s as [|d s IH]; [discriminate|].
    destruct s as [|e s].
    + intros [= ->]. now exists "".
    + intros H. destruct (IH H) as [p ->]. now exists (String d p).
  - intros [p ->]. now rewrite str_last_app.
Qed.

Lemma str_last_cons (c d : ascii) (s : string) :
  str_last (String c (String d s)) = str_last (String d s).
Proof. reflexivity. Qed.

Lemma universal_newlines_nonempty (s : string) :
  s <> "" -> universal_newlines s <> "".
Proof.
  destruct s as [|c s]; [congruence|]. intros _. simpl.
  destruct (Ascii.eqb c cr); discriminate.
Qed.

(** Reading translates two texts one after the other separately, unless
    the first ends in a carriage return. *)
Lemma universal_newlines_app (x y : string) :
  str_last x <> Some cr ->
  universal_newlines (x ++ y) = universal_newlines x ++ universal_newlines y.
Proof.
  remember (String.length x) as n eqn:Hn.
  assert (Hle : String.length x <= n) by lia. clear Hn.
  revert x Hle. induction n as [|n IH]; intros x Hle Hlast.
  - destruct x; [reflexivity | simpl in Hle; lia].
  - destruct x as [|c x]; [reflexivity|].
    change (String c x ++ y) with (String c (x ++ y)).
    cbn [universal_newlines]. destruct (Ascii.eqb_spec c cr) as [->|Hc].
    + destruct x as [|c2 x]; [now elim Hlast|].
      change (String c2 x ++ y) with (String c2 (x ++ y)). cbn iota.
      rewrite str_last_cons in Hlast.
      destruct (Ascii.eqb c2 lf).
      * cbn [append]. f_equal. destruct x as [|c3 x]; [reflexivity|].
        apply IH; [simpl in *; lia|]. now rewrite str_last_cons in Hlast.
      * cbn [append]. f_equal.
        change (String c2 (x ++ y)) with (String c2 x ++ y).
        apply IH; [simpl in *; lia | exact Hlast].
    + cbn [append]. f_equal. destruct x as [|c2 x]; [reflexivity|].
      apply IH; [simpl in *; lia|]. now rewrite str_last_cons in Hlast.
Qed.

Lemma universal_newlines_id (u : string) :
  char_in cr u = false -> universal_newlines u = u.
Proof.
  induction u as [|c u IH]; [reflexivity|]. intros H.
  apply char_in_eqb_false in H as [H1 H2]. cbn [universal_newlines].
  now rewrite H1, (IH H2).
Qed.

Lemma universal_newlines_last_lf (s : string) :
  str_last s = Some lf -> str_last (universal_newlines s) = Some lf.
Proof.
  remember (String.length s) as n eqn:Hn.
  assert (Hle : String.length s <= n) by lia. clear Hn.
  revert s Hle. induction n as [|n IH]; intros s Hle Hlast.
  - destruct s; [discriminate | simpl in Hle; lia].
  - destruct s as [|c s]; [discriminate|].
    cbn [universal_newlines]. destruct (Ascii.eqb_spec c cr) as [->|Hc].
    + destruct s as [|c2 s]; [discriminate Hlast|].
      rewrite str_last_cons in Hlast.
      destruct (Ascii.eqb c2 lf).
      * destruct s as [|c3 s]; [reflexivity|].
        rewrite str_last_cons in Hlast.
        assert (N : universal_newlines (String c3 s) <> "")
          by (apply universal_newlines_nonempty; discriminate).
        destruct (universal_newlines (String c3 s)) as [|e t] eqn:E; [now elim N|].
        rewrite str_last_cons, <- E. apply IH; [simpl in *; lia | exact Hlast].
      * assert (N : universal_newlines (String c2 s) <> "")
          by (apply universal_newlines_nonempty; discriminate).
        destruct (universal_newlines (String c2 s)) as [|e t] eqn:E; [now elim N|].
        rewrite str_last_cons, <- E. apply IH; [simpl in *; lia | exact Hlast].
    + destruct s as [|c2 s]; [exact Hlast|].
      rewrite str_last_cons in Hlast.
      assert (N : universal_newlines (String c2 s) <> "")
        by (apply universal_newlines_nonempty; discriminate).
      destruct (universal_newlines (String c2 s)) as [|e t] eqn:E; [now elim N|].
      rewrite str_last_cons, <- E. apply IH; [simpl in *; lia | exact Hlast].
Qed.

Lemma lines_from_app_lf (cur x y : string) :
  lines_from cur (x ++ String lf y) =
  (lines_from cur (x ++ String lf "") ++ lines_from "" y)%list.
Proof.
  revert cur; induction x as [|c x IH]; intros cur.
  - cbn. reflexivity.
  - change (String c x ++ String lf y) with (String c (x ++ String lf y)).
    change (String c x ++ String lf "") with (String c (x ++ String lf "")).
    cbn [lines_from]. destruct (Ascii.eqb c lf).
    + now rewrite IH.
    + apply IH.
Qed.

Lemma lines_from_one (cur u : string) :
  char_in lf u = false ->
  lines_from cur (u ++ String lf "") = [cur ++ u ++ String lf ""].
Proof.
  revert cur; induction u as [|c u IH]; intros cur H.
  - cbn. reflexivity.
  - apply char_in_eqb_false in H as [H1 H2].
    change (String c u ++ String lf "") with (String c (u ++ String lf "")).
    cbn [lines_from]. rewrite H1, (IH _ H2). now rewrite str_app_assoc.
Qed.

Lemma rstrip_with_snoc (p : ascii -> bool) (c : ascii) (u : string) :
  p c = true -> rstrip_with p (u ++ String c "") = rstrip_with p u.
Proof.
  intros Hp. induction u as [|d u IH].
  - simpl. now rewrite Hp.
  - change (String d u ++ String c "") with (String d (u ++ String c "")).
    cbn [rstrip_with]. now rewrite IH.
Qed.

(** The bot reads a history to which text was appended as the old lines
    followed by the lines of the text. *)
Lemma previously_scraped_links_app (file text : string) :
  ends_with_newline file ->
  previously_scraped_links (file ++ text) =
  (previously_scraped_links file ++ previously_scraped_links text)%list.
Proof.
  intros [-> | [p ->]]; [reflexivity|].
  unfold previously_scraped_links.
  rewrite universal_newlines_app by (rewrite str_last_app; discriminate).
  assert (L : str_last (universal_newlines (p ++ String lf "")) = Some lf).
  { apply universal_newlines_last_lf. now rewrite str_last_app. }
  apply str_last_char in L as [q ->].
  rewrite str_app_assoc. change (String lf "" ++ universal_newlines text)
    with (String lf (universal_newlines text)).
  now rewrite lines_from_app_lf, map_app.
Qed.

Lemma previously_scraped_links_line (u : string) :
  char_in lf u = false -> char_in cr u = false ->
  previously_scraped_links (u ++ String lf "") = [rstrip u].
Proof.
  intros Hl Hc. unfold previously_scraped_links.
  assert (T : universal_newlines (u ++ String lf "") = u ++ String lf "").
  { apply universal_newlines_id. rewrite char_in_app, Hc. reflexivity. }
  rewrite T, (lines_from_one "" u Hl). cbn [map append].
  unfold rstrip. now rewrite rstrip_with_snoc.
Qed.

Lemma history_text_cons (r : LinkRecord) (rest : list LinkRecord) :
  history_text (r :: rest) =
  (href_text (link_apply r) ++ String lf "" ++ href_text (link_desc r) ++ String lf "")
  ++ history_text rest.
Proof.
  unfold history_text. cbn [map String.concat].
  destruct (map _ rest) eqn:E; [|reflexivity].
  cbn [String.concat]. now rewrite str_app_nil_r.
Qed.

Lemma history_text_ends (links : list LinkRecord) : ends_with_newline (history_text links).
Proof.
  induction links as [|r rest IH]; [now left|].
  rewrite history_text_cons. right. destruct IH as [-> | [p ->]].
  - rewrite str_app_nil_r.
    exists (href_text (link_apply r) ++ String lf "" ++ href_text (link_desc r)).
    now rewrite !str_app_assoc.
  - eexists. now rewrite <- str_app_assoc.
Qed.

Lemma ends_with_newline_app (a b : string) :
  ends_with_newline a -> ends_with_newline b -> ends_with_newline (a ++ b).
Proof.
  intros Ha [-> | [p ->]].
  - now rewrite str_app_nil_r.
  - right. exists (a ++ p). now rewrite str_app_assoc.
Qed.

Lemma write_links_both_set (links : list LinkRecord) (file : string) :
  Forall (fun r => link_apply r <> None /\ link_desc r <> None) links ->
  _write_links_to_history links file = (file ++ history_text links, None).
Proof.
  intros H. revert file. induction H as [|r rest [Ha Hd] _ IH]; intros file.
  - cbn. now rewrite str_app_nil_r.
  - cbn [_write_links_to_history]. rewrite history_text_cons.
    destruct (link_apply r) as [a|]; [|now elim Ha].
    destruct (link_desc r) as [d|]; [|now elim Hd].
    cbn [file_write href_text]. rewrite IH. f_equal.
    now rewrite !str_app_assoc.
Qed.

Lemma process_links_both_set (url : string) (links : list string) :
  Forall (fun r => link_apply r <> None /\ link_desc r <> None) (_process_links url links).
Proof.
  rewrite process_links_filter_map. apply Forall_forall. intros r Hr.
  apply in_map_iff in Hr as (l & <- & _).
  destruct (link_record_urls l) as (d & a & -> & -> & _). split; discriminate.
Qed.

Lemma clean_scraped_links_eq (url : string) (links : list string) (file : string) :
  clean_scraped_links url links file =
  (file ++ history_text (_process_links url links), inr (_process_links url links)).
Proof.
  unfold clean_scraped_links.
  now rewrite (write_links_both_set _ file (process_links_both_set url links)).
Qed.

(** X12. [_write_links_to_history] only appends: whatever the records, the
    old content is the beginning of the new one.  On the records of
    [_process_links] it never raises, so [clean_scraped_links] returns them
    and has added, for each, the application URL and the description URL on
    a line each; a file that was empty or ended with a line feed ends with
    a line feed again. *)
Theorem write_links_to_history_appends :
  (forall links file, exists added,
     fst (_write_links_to_history links file) = file ++ added) /\
  (forall url links file,
     clean_scraped_links url links file =
     (file ++ history_text (_process_links url links), inr (_process_links url links))) /\
  (forall url links file,
     ends_with_newline file ->
     ends_with_newline (fst (clean_scraped_links url links file))).
Proof.
  split; [|split].
  - induction links as [|r rest IH]; intros file.
    + exists "". cbn. now rewrite str_app_nil_r.
    + cbn [_write_links_to_history].
      destruct (link_apply r) as [a|]; cbn [file_write];
        [|exists ""; cbn; now rewrite str_app_nil_r].
      destruct (link_desc r) as [d|]; cbn [file_write].
      * destruct (IH ((((file ++ a) ++ String lf "") ++ d) ++ String lf "")) as [added ->].
        eexists. rewrite !str_app_assoc. reflexivity.
      * eexists. cbn [fst]. rewrite str_app_assoc. reflexivity.
  - apply clean_scraped_links_eq.
  - intros url links file H. rewrite clean_scraped_links_eq. cbn [fst].
    apply ends_with_newline_app; [exact H | apply history_text_ends].
Qed.

Lemma write_links_to_history_appends_witness :
  ends_with_newline (fst (clean_scraped_links Lever_url ["lever.co/acme/123"] "")).
Proof.
  apply (proj2 (proj2 write_links_to_history_appends) Lever_url ["lever.co/acme/123"] "").
  now left.
Defined.

Lemma previously_scraped_links_history (links : list LinkRecord) :
  Forall (fun r => exists a d,
            link_apply r = Some a /\ link_desc r = Some d /\
            char_in lf a = false /\ char_in cr a = false /\
            char_in lf d = false /\ char_in cr d = false) links ->
  previously_scraped_links (history_text links) =
  flat_map (fun r => [rstrip (href_text (link_apply r)); rstrip (href_text (link_desc r))])
           links.
Proof.
  induction 1 as [|r rest (a & d & Ea & Ed & A1 & A2 & D1 & D2) _ IH]; [reflexivity|].
  rewrite history_text_cons, Ea, Ed. cbn [href_text flat_map].
  rewrite previously_scraped_links_app.
  2:{ right. exists (a ++ String lf "" ++ d). now rewrite !str_app_assoc. }
  rewrite IH. f_equal.
  rewrite <- str_app_assoc.
  rewrite previously_scraped_links_app by (right; now exists a).
  rewrite (previously_scraped_links_line a A1 A2), (previously_scraped_links_line d D1 D2).
  now rewrite Ea, Ed.
Qed.

(** X13. Round trip through the history file.  When the file was empty or
    ended with a line feed and no written URL holds a line break, the next
    [Bot] reads the old lines followed by two lines per record, the
    application URL and then the description URL, each without its
    trailing white space. *)
Theorem history_round_trip (links : list LinkRecord) (file : string) :
  ends_with_newline file ->
  Forall (fun r => exists a d,
            link_apply r = Some a /\ link_desc r = Some d /\
            char_in lf a = false /\ char_in cr a = false /\
            char_in lf d = false /\ char_in cr d = false) links ->
  snd (_write_links_to_history links file) = None /\
  previously_scraped_links (fst (_write_links_to_history links file)) =
  (previously_scraped_links file ++
   flat_map (fun r => [rstrip (href_text (link_apply r)); rstrip (href_text (link_desc r))])
            links)%list.
Proof.
  intros Hf H.
  rewrite write_links_both_set.
  2:{ eapply Forall_impl; [|exact H].
      intros r (a & d & -> & -> & _). split; discriminate. }
  cbn [fst snd]. split; [reflexivity|].
  now rewrite previously_scraped_links_app, previously_scraped_links_history.
Qed.

Lemma history_round_trip_witness :
  previously_scraped_links
    (fst (_write_links_to_history [sample_job "lever.co/acme/123 "]
            ("old/1" ++ String lf ""))) =
  ["old/1"; "lever.co/acme/123 /apply"; "lever.co/acme/123"].
Proof.
  refine (proj2 (history_round_trip [sample_job "lever.co/acme/123 "]
                   ("old/1" ++ String lf "") _ _)).
  - right. now exists "old/1".
  - constructor; [|constructor].
    exists "lever.co/acme/123 /apply", "lever.co/acme/123 ". now repeat split.
Defined.

Lemma previously_scraped_links_member (links : list LinkRecord) (r : LinkRecord) (s : string) :
  Forall (fun r => link_apply r <> None /\ link_desc r <> None) links ->
  In r links -> (link_apply r = Some s \/ link_desc r = Some s) -> line_safe s ->
  In s (previously_scraped_links (history_text links)).
Proof.
  intros Hall Hin Hs (S1 & S2 & S3).
  induction Hall as [|r0 rest [Ha Hd] _ IH]; [destruct Hin|].
  rewrite history_text_cons.
  destruct (link_apply r0) as [a|] eqn:Ea; [|now elim Ha].
  destruct (link_desc r0) as [d|] eqn:Ed; [|now elim Hd].
  cbn [href_text].
  rewrite previously_scraped_links_app.
  2:{ right. exists (a ++ String lf "" ++ d). now rewrite !str_app_assoc. }
  apply in_or_app. destruct Hin as [-> | Hin]; [left | right; now apply IH].
  rewrite <- str_app_assoc.
  rewrite previously_scraped_links_app by (right; now exists a).
  apply in_or_app. destruct Hs as [Hs | Hs].
  - left. rewrite Ea in Hs. injection Hs as ->.
    rewrite (previously_scraped_links_line s S1 S2), S3. now left.
  - right. rewrite Ed in Hs. injection Hs as ->.
    rewrite (previously_scraped_links_line s S1 S2), S3. now left.
Qed.

Lemma process_links_all_invalid (url : string) (links : list string) :
  (forall l, In l links -> _validate_link url l = false) -> _process_links url links = [].
Proof.
  induction links as [|l links IH]; intros H; [reflexivity|].
  simpl. rewrite (H l (or_introl eq_refl)). apply IH. intros l' Hl. apply H. now right.
Qed.

Lemma validate_link_empty (url : string) : _validate_link url "" = false.
Proof. reflexivity. Qed.

Lemma not_in_history_false (prev : list string) (s : string) :
  In s prev -> not_in_history prev (Some s) = false.
Proof.
  intros H. unfold not_in_history. apply negb_false_iff, existsb_exists.
  exists s. split; [exact H | apply String.eqb_refl].
Qed.

Lemma not_in_history_true (prev : list string) (s : string) :
  not_in_history prev (Some s) = true -> ~ In s prev.
Proof.
  intros H Hin. now rewrite (not_in_history_false prev s Hin) in H.
Qed.

Lemma line_safeb_iff (u : string) : line_safeb u = true <-> line_safe u.
Proof.
  unfold line_safeb, line_safe.
  rewrite !andb_true_iff, !negb_true_iff, String.eqb_eq. tauto.
Qed.

Lemma rstrip_with_no_char (p : ascii -> bool) (c : ascii) (s : string) :
  char_in c s = false -> char_in c (rstrip_with p s) = false.
Proof.
  induction s as [|d s IH]; [reflexivity|]. intros H.
  cbn [char_in] in H. apply orb_false_iff in H as [H1 H2].
  specialize (IH H2). cbn [rstrip_with].
  destruct (rstrip_with p s) as [|e t].
  - destruct (p d); [reflexivity|]. cbn [char_in]. now rewrite H1.
  - change (char_in c (String d (String e t)))
      with (Ascii.eqb c d || char_in c (String e t))%bool.
    now rewrite H1, IH.
Qed.

Lemma rstrip_with_idem (p : ascii -> bool) (s : string) :
  rstrip_with p (rstrip_with p s) = rstrip_with p s.
Proof.
  induction s as [|d s IH]; [reflexivity|].
  cbn [rstrip_with]. destruct (rstrip_with p s) as [|e t] eqn:E.
  - destruct (p d) eqn:P; [reflexivity|]. cbn [rstrip_with]. now rewrite P.
  - change (rstrip_with p (String d (String e t)))
      with (match rstrip_with p (String e t) with
            | EmptyString => if p d then EmptyString else String d EmptyString
            | String a b => String d (String a b)
            end).
    now rewrite IH.
Qed.

(** Text read in text mode holds no carriage return. *)
Lemma universal_newlines_no_cr (s : string) : char_in cr (universal_newlines s) = false.
Proof.
  remember (String.length s) as n eqn:Hn.
  assert (Hle : String.length s <= n) by lia. clear Hn.
  revert s Hle. induction n as [|n IH]; intros s Hle.
  - destruct s; [reflexivity | simpl in Hle; lia].
  - destruct s as [|c s]; [reflexivity|].
    cbn [universal_newlines]. destruct (Ascii.eqb_spec c cr) as [->|Hc].
    + cbn [char_in]. change (Ascii.eqb cr lf) with false. cbn [orb].
      destruct s as [|c2 s]; [reflexivity|].
      destruct (Ascii.eqb c2 lf); apply IH; simpl in *; lia.
    + cbn [char_in]. rewrite (IH s) by (simpl in Hle; lia).
      rewrite orb_false_r. apply Ascii.eqb_neq. congruence.
Qed.

Lemma lines_from_no_char (c : ascii) (cur s l : string) :
  Ascii.eqb c lf = false ->
  char_in c cur = false -> char_in c s = false ->
  In l (lines_from cur s) -> char_in c l = false.
Proof.
  intros Hc. revert cur. induction s as [|d s IH]; intros cur Hcur Hs Hin.
  - cbn [lines_from] in Hin.
    destruct cur; [destruct Hin | destruct Hin as [<- | []]; exact Hcur].
  - cbn [char_in] in Hs. apply orb_false_iff in Hs as [H1 H2].
    cbn [lines_from] in Hin. destruct (Ascii.eqb d lf).
    + destruct Hin as [<- | Hin].
      * rewrite char_in_app, Hcur. cbn [char_in orb]. now rewrite Hc.
      * now apply (IH "").
    + apply (IH (cur ++ String d "")); auto.
      rewrite char_in_app, Hcur. cbn [char_in orb]. now rewrite H1.
Qed.

Lemma lines_from_rstrip_no_lf (cur s l : string) :
  char_in lf cur = false ->
  In l (lines_from cur s) -> char_in lf (rstrip l) = false.
Proof.
  revert cur. induction s as [|d s IH]; intros cur Hcur Hin.
  - cbn [lines_from] in Hin.
    destruct cur; [destruct Hin | destruct Hin as [<- | []]].
    now apply rstrip_with_no_char.
  - cbn [lines_from] in Hin. destruct (Ascii.eqb d lf) eqn:E.
    + destruct Hin as [<- | Hin].
      * unfold rstrip. rewrite rstrip_with_snoc by reflexivity.
        now apply rstrip_with_no_char.
      * now apply (IH "").
    + apply (IH (cur ++ String d "")); auto.
      rewrite char_in_app, Hcur. cbn [char_in orb].
      now rewrite Ascii.eqb_sym, E.
Qed.

(** Whatever the history file holds, the links that [Bot.__init__] reads
    from it hold no line break and end in no white space. *)
Lemma previously_scraped_links_line_safe (file s : string) :
  In s (previously_scraped_links file) -> line_safe s.
Proof.
  unfold previously_scraped_links. intros H.
  apply in_map_iff in H as (l & <- & Hl). repeat split.
  - now apply (lines_from_rstrip_no_lf "" (universal_newlines file)).
  - apply rstrip_with_no_char.
    apply (lines_from_no_char cr "" (universal_newlines file)); auto.
    apply universal_newlines_no_cr.
  - apply rstrip_with_idem.
Qed.

(** X14. What a second run repeats.  Starting from a history file that is
    empty or ends with a line feed, after one run a valid scraped link is
    among the links the next [Bot] reads from the history exactly when it
    is line-safe (no line break inside, no white space at the end).  A
    second run on the same scraped links therefore processes again
    exactly the valid links that are not line-safe, and appends their
    records to the history once more; when every valid scraped link is
    line-safe it returns no record and leaves the history file as it
    is. *)
Theorem bot_run_twice (url : string) (scraped_links : list (option string)) (file : string) :
  ends_with_newline file ->
  let file1 := fst (bot_run url scraped_links file) in
  let again :=
    _process_links url
      (filter (fun s => negb (line_safeb s)) (map href_text scraped_links)) in
  (forall s, In (Some s) scraped_links -> _validate_link url s = true ->
     (In s (previously_scraped_links file1) <-> line_safe s)) /\
  bot_run url scraped_links file1 = (file1 ++ history_text again, inr again) /\
  (forall s, In (Some s) scraped_links -> _validate_link url s = true ->
     ~ line_safe s -> In (link_record s) again) /\
  ((forall s, In (Some s) scraped_links -> _validate_link url s = true -> line_safe s) ->
   bot_run url scraped_links file1 = (file1, inr [])).
Proof.
  intros Hf. cbv zeta.
  set (prev := previously_scraped_links file).
  set (new_links := filter (not_in_history prev) scraped_links).
  set (records := _process_links url (map href_text new_links)).
  assert (E1 : bot_run url scraped_links file = (file ++ history_text records, inr records)).
  { unfold bot_run, _get_job_links. now rewrite clean_scraped_links_eq. }
  rewrite E1. cbn [fst].
  set (file1 := file ++ history_text records).
  set (again := _process_links url
                  (filter (fun s => negb (line_safeb s)) (map href_text scraped_links))).
  assert (M : forall s, In (Some s) scraped_links -> _validate_link url s = true ->
                (In s (previously_scraped_links file1) <-> line_safe s)).
  { intros s Hin Hv. split; [apply previously_scraped_links_line_safe|]. intros Hsafe.
    unfold file1. rewrite previously_scraped_links_app by exact Hf.
    apply in_or_app. destruct (not_in_history prev (Some s)) eqn:N.
    - right.
      assert (Hr : In (link_record s) records).
      { unfold records. rewrite process_links_filter_map. apply in_map.
        apply filter_In. split; [|exact Hv].
        apply in_map_iff. exists (Some s). split; [reflexivity|].
        apply filter_In. now split. }
      apply previously_scraped_links_member with (link_record s).
      + apply process_links_both_set.
      + exact Hr.
      + destruct (link_record_urls s) as (d & a & Hd & Ha & [-> | ->]); auto.
      + exact Hsafe.
    - left. unfold not_in_history in N. apply negb_false_iff, existsb_exists in N.
      destruct N as (x & Hx & E). apply String.eqb_eq in E. now subst. }
  assert (E2 : bot_run url scraped_links file1 = (file1 ++ history_text again, inr again)).
  { unfold bot_run, _get_job_links. rewrite clean_scraped_links_eq.
    assert (R : _process_links url
                  (map href_text
                     (filter (not_in_history (previously_scraped_links file1)) scraped_links))
                = again).
    { unfold again. rewrite !process_links_filter_map. f_equal.
      assert (G : forall L, (forall h, In h L -> In h scraped_links) ->
                    filter (_validate_link url)
                      (map href_text
                         (filter (not_in_history (previously_scraped_links file1)) L)) =
                    filter (_validate_link url)
                      (filter (fun s => negb (line_safeb s)) (map href_text L))).
      { induction L as [|h L IH]; intros Sub; [reflexivity|].
        assert (IH' := IH (fun h' Hh' => Sub h' (or_intror Hh'))).
        cbn [filter map].
        destruct h as [s|].
        - cbn [href_text]. destruct (_validate_link url s) eqn:V.
          + assert (Q : not_in_history (previously_scraped_links file1) (Some s) =
                        negb (line_safeb s)).
            { destruct (line_safeb s) eqn:B.
              - apply not_in_history_false. apply (M s (Sub _ (or_introl eq_refl)) V).
                now apply line_safeb_iff.
              - destruct (not_in_history (previously_scraped_links file1) (Some s)) eqn:N;
                  [reflexivity|].
                unfold not_in_history in N. apply negb_false_iff, existsb_exists in N.
                destruct N as (x & Hx & E). apply String.eqb_eq in E. subst x.
                apply (M s (Sub _ (or_introl eq_refl)) V), line_safeb_iff in Hx.
                congruence. }
            rewrite Q. destruct (negb (line_safeb s)); cbn [filter map href_text];
              rewrite ?V, IH'; reflexivity.
          + destruct (not_in_history (previously_scraped_links file1) (Some s));
              destruct (negb (line_safeb s)); cbn [filter map href_text];
              rewrite ?V, IH'; reflexivity.
        - cbn [not_in_history href_text]. change (negb (line_safeb "")) with false.
          cbn [filter map href_text]. rewrite validate_link_empty. exact IH'. }
      apply G. auto. }
    now rewrite R. }
  split; [exact M|]. split; [exact E2|]. split.
  - intros s Hin Hv Hn. unfold again. rewrite process_links_filter_map.
    apply in_map. apply filter_In. split; [|exact Hv].
    apply filter_In. split.
    + apply in_map_iff. now exists (Some s).
    + apply negb_true_iff. destruct (line_safeb s) eqn:B; [|reflexivity].
      elim Hn. now apply line_safeb_iff.
  - intros Hsafe. rewrite E2.
    assert (A : again = []).
    { unfold again. apply process_links_all_invalid. intros l Hl.
      apply filter_In in Hl as [Hl B]. apply in_map_iff in Hl as (h & <- & Hh).
      destruct h as [s|]; [|apply validate_link_empty].
      cbn [href_text] in *. destruct (_validate_link url s) eqn:V; [|reflexivity].
      apply negb_true_iff in B.
      apply (Hsafe s Hh), line_safeb_iff in V. congruence. }
    rewrite A. cbn [history_text map String.concat]. now rewrite str_app_nil_r.
Qed.

Lemma bot_run_twice_witness :
  (bot_run Lever_url [None; Some "lever.co/acme/123"; Some "https://duckduckgo.com"]
     (fst (bot_run Lever_url
             [None; Some "lever.co/acme/123"; Some "https://duckduckgo.com"] ""))
   = (fst (bot_run Lever_url
             [None; Some "lever.co/acme/123"; Some "https://duckduckgo.com"] ""),
      inr [])) /\
  In (link_record "lever.co/acme/456 ")
     (_process_links Lever_url
        (filter (fun s => negb (line_safeb s))
                (map href_text [Some "lever.co/acme/123"; Some "lever.co/acme/456 "]))).
Proof.
  split.
  - apply (proj2 (proj2 (proj2 (bot_run_twice Lever_url
             [None; Some "lever.co/acme/123"; Some "https://duckduckgo.com"] ""
             (or_introl eq_refl))))).
    intros s [H | [H | [H | []]]]; try discriminate H.
    + injection H as <-. intros _. now repeat split.
    + injection H as <-. discriminate.
  - apply (proj1 (proj2 (proj2 (bot_run_twice Lever_url
             [Some "lever.co/acme/123"; Some "lever.co/acme/456 "] ""
             (or_introl eq_refl))))).
    + simpl. auto.
    + reflexivity.
    + intros (_ & _ & H). discriminate H.
Defined.

(* ------------------------------------------------------------------------- *)
(** ** Marking postings as applied to *)
(* ------------------------------------------------------------------------- *)

Section Applied.

Variable F : Type.

Lemma set_applied_apply (v : bool) (r : PostingRecord F) :
  rec_apply (set_applied v r) = rec_apply r.
Proof. reflexivity. Qed.

Lemma apply_equals_set (url : option string) (v : bool) (r : PostingRecord F) :
  apply_equals url (set_applied v r) = apply_equals url r.
Proof. reflexivity. Qed.

Lemma set_applied_twice (v w : bool) (r : PostingRecord F) :
  set_applied v (set_applied w r) = set_applied v r.
Proof. reflexivity. Qed.

(** X15. [record_job_as_applied_to] keeps the number and order of rows and
    every column but [applied]; a row is marked afterwards exactly when it
    was marked before or its application URL is [url]; a row without
    application URL and a missing [url] never match.  Marking is
    idempotent and the order of two markings does not matter. *)
Theorem record_job_as_applied_to_rows (url url' : option string)
        (scraped_jobs : list (PostingRecord F)) :
  Forall2 (fun r r' =>
             same_but_applied r r' /\
             rec_applied r' = (rec_applied r || apply_equals url r)%bool)
          scraped_jobs (record_job_as_applied_to url scraped_jobs) /\
  (forall r, In r scraped_jobs -> rec_apply r = None -> apply_equals url r = false) /\
  record_job_as_applied_to None scraped_jobs = scraped_jobs /\
  record_job_as_applied_to url (record_job_as_applied_to url scraped_jobs) =
    record_job_as_applied_to url scraped_jobs /\
  record_job_as_applied_to url (record_job_as_applied_to url' scraped_jobs) =
    record_job_as_applied_to url' (record_job_as_applied_to url scraped_jobs).
Proof.
  split; [|split; [|split; [|split]]].
  - induction scraped_jobs as [|r rest IH]; [constructor|].
    cbn [record_job_as_applied_to map]. constructor; [|exact IH].
    destruct (apply_equals url r).
    + split; [reflexivity|]. symmetry. apply orb_true_r.
    + split; [reflexivity|]. symmetry. apply orb_false_r.
  - intros r _ H. unfold apply_equals. rewrite H. now destruct url.
  - unfold record_job_as_applied_to. rewrite <- (map_id scraped_jobs) at 2.
    apply map_ext. intros r. reflexivity.
  - unfold record_job_as_applied_to. rewrite map_map. apply map_ext. intros r.
    destruct (apply_equals url r) eqn:E.
    + now rewrite apply_equals_set, E.
    + now rewrite E.
  - unfold record_job_as_applied_to. rewrite !map_map. apply map_ext. intros r.
    destruct (apply_equals url r) eqn:E; destruct (apply_equals url' r) eqn:E';
      rewrite ?apply_equals_set; rewrite ?E; rewrite ?E'; reflexivity.
Qed.

End Applied.

Lemma record_job_as_applied_to_rows_witness :
  apply_equals (Some "lever.co/acme/123/apply") (LeverJob_export_blank Z) = false.
Proof.
  apply (proj1 (proj2 (record_job_as_applied_to_rows Z (Some "lever.co/acme/123/apply") None
                         [LeverJob_export_blank Z])) (LeverJob_export_blank Z)).
  - now left.
  - reflexivity.
Defined.

(* ------------------------------------------------------------------------- *)
(** ** The application form *)
(* ------------------------------------------------------------------------- *)

Lemma avoids_ret {A} (a : A) : avoids_submit (apply_ret a).
Proof. intros log. exists []. cbn. now rewrite app_nil_r. Qed.

Lemma avoids_raise {A} (e : apply_error) : avoids_submit (@apply_raise A e).
Proof. intros log. exists []. cbn. now rewrite app_nil_r. Qed.

Lemma avoids_bind {A B} (m : Apply A) (k : A -> Apply B) :
  avoids_submit m -> (forall a, avoids_submit (k a)) -> avoids_submit (apply_bind m k).
Proof.
  intros Hm Hk log. destruct (Hm log) as (a1 & E1 & N1). unfold apply_bind.
  destruct (m log) as [log' [e|a]]; cbn [fst] in E1; subst log'.
  - now exists a1.
  - destruct (Hk a (log ++ a1)%list) as (a2 & E2 & N2). exists (a1 ++ a2)%list.
    rewrite E2, app_assoc. split; [reflexivity|].
    intros H. apply in_app_or in H as [H|H]; contradiction.
Qed.

Lemma avoids_for {A} (body : A -> Apply unit) (xs : list A) :
  (forall x, avoids_submit (body x)) -> avoids_submit (apply_for body xs).
Proof.
  intros H. induction xs as [|x xs IH]; [apply avoids_ret|].
  cbn [apply_for]. apply avoids_bind; [apply H | intros _; exact IH].
Qed.

Lemma avoids_wrap (m : Apply unit) : avoids_submit m -> avoids_submit (_wrap_try_catch m).
Proof.
  intros H log. destruct (H log) as (a & E & N). exists a. unfold _wrap_try_catch.
  destruct (m log) as [log' [e|u]]; cbn [fst] in *; now split.
Qed.

Section ApplyFacts.

Variable user_info : string -> option string.
Variable raises : list browser_call -> browser_call -> bool.
Variable questions : list Question.

Lemma avoids_call {A} (c : browser_call) (a : A) :
  c <> submit_click -> avoids_submit (call raises c a).
Proof.
  intros H log. exists [c]. cbn. split; [reflexivity|]. intros [E|[]]. now apply H.
Qed.

Lemma avoids_lookup (key : string) : avoids_submit (lookup user_info key).
Proof.
  unfold lookup. destruct (user_info key); [apply avoids_ret | apply avoids_raise].
Qed.

Lemma avoids_location (location : string) :
  avoids_submit (_fill_out_location_info raises location).
Proof.
  unfold _fill_out_location_info.
  repeat (apply avoids_bind; [apply avoids_call; discriminate | intros _]).
  apply avoids_call. discriminate.
Qed.

Lemma avoids_click_or_execute (iElement : WebElement) :
  avoids_submit (click_or_execute raises iElement).
Proof.
  intros log. unfold click_or_execute, call.
  destruct (raises log (click_element (elem_id iElement))); cbn [fst].
  - exists [click_element (elem_id iElement); execute_click (elem_id iElement)].
    rewrite <- app_assoc. split; [reflexivity|].
    intros [E|[E|[]]]; discriminate.
  - exists [click_element (elem_id iElement)]. split; [reflexivity|].
    intros [E|[]]; discriminate.
Qed.

Lemma avoids_lower_of (x : option string) : avoids_submit (lower_of x).
Proof. destruct x; [apply avoids_ret | apply avoids_raise]. Qed.

Lemma avoids_answer_input (key : string) (e : WebElement) :
  avoids_submit (answer_input user_info raises key e).
Proof.
  unfold answer_input.
  apply avoids_bind; [apply avoids_call; discriminate | intros v].
  apply avoids_bind; [apply avoids_lower_of | intros v'].
  apply avoids_bind; [apply avoids_lookup | intros answer].
  destruct (v' =? lower answer); [apply avoids_click_or_execute | apply avoids_ret].
Qed.

Lemma avoids_answer_with (key : string) (q : Question) :
  avoids_submit (answer_with user_info raises key q).
Proof.
  unfold answer_with. apply avoids_bind; [apply avoids_call; discriminate|].
  intros inputs. apply avoids_for. apply avoids_answer_input.
Qed.

Lemma avoids_question_text (q : Question) : avoids_submit (question_text_lower raises q).
Proof.
  unfold question_text_lower.
  apply avoids_bind; [apply avoids_call; discriminate | intros t; apply avoids_ret].
Qed.

Lemma avoids_sponsorship (q : Question) :
  avoids_submit (_fill_out_sponsorship user_info raises q).
Proof.
  unfold _fill_out_sponsorship.
  apply avoids_bind; [apply avoids_question_text | intros t1].
  destruct (str_in "eligible" t1); [apply avoids_answer_with|].
  apply avoids_bind; [apply avoids_question_text | intros t2].
  destruct (str_in "author" t2); [apply avoids_answer_with|].
  apply avoids_bind; [apply avoids_question_text | intros t3].
  destruct (str_in "sponsor" t3); [apply avoids_answer_with | apply avoids_ret].
Qed.

Lemma avoids_custom_questions :
  avoids_submit (_fill_out_custom_questions user_info raises questions).
Proof.
  unfold _fill_out_custom_questions.
  apply avoids_bind; [apply avoids_call; discriminate | intros qs].
  apply avoids_for. apply avoids_sponsorship.
Qed.

Lemma outcome_wrap (m : Apply unit) :
  avoids_submit m -> outcome (_wrap_try_catch m) (inr tt) [].
Proof.
  intros H log. destruct (H log) as (a & E & N). exists a. rewrite app_nil_r.
  unfold _wrap_try_catch. destruct (m log) as [log' [e|u]]; cbn [fst] in E; subst; now split.
Qed.

Lemma outcome_bind_ok (m1 m2 : Apply unit) (r : apply_error + unit)
      (tail : list browser_call) :
  outcome m1 (inr tt) [] -> outcome m2 r tail -> outcome (m1 ;;; m2) r tail.
Proof.
  intros H1 H2 log. destruct (H1 log) as (a1 & E1 & N1). rewrite app_nil_r in E1.
  destruct (H2 (log ++ a1)%list) as (a2 & E2 & N2).
  exists (a1 ++ a2)%list. unfold apply_bind. rewrite E1, E2, <- !app_assoc.
  split; [reflexivity|]. intros H. apply in_app_or in H as [H|H]; contradiction.
Qed.

Lemma outcome_bind_err {B} (m1 : Apply B) (k : B -> Apply unit) (e : apply_error) :
  (forall log, exists added, m1 log = (log ++ added, inl e)%list /\ ~ In submit_click added) ->
  outcome (apply_bind m1 k) (inl e) [].
Proof.
  intros H log. destruct (H log) as (a & E & N). exists a. rewrite app_nil_r.
  unfold apply_bind. now rewrite E.
Qed.

Lemma outcome_lookup_some (key v : string) (body : string -> Apply unit)
      (r : apply_error + unit) (tail : list browser_call) :
  user_info key = Some v -> outcome (body v) r tail ->
  outcome (x <~ lookup user_info key ;; body x) r tail.
Proof.
  intros K H log. unfold apply_bind, lookup. rewrite K. cbn. apply H.
Qed.

Lemma outcome_lookup_none (key : string) (body : string -> Apply unit) :
  user_info key = None ->
  outcome (x <~ lookup user_info key ;; body x) (inl (KeyError key)) [].
Proof.
  intros K log. exists []. unfold apply_bind, lookup. rewrite K. cbn.
  rewrite app_nil_r. now split.
Qed.

Lemma outcome_submit : outcome (_submit_application raises) (inr tt) [submit_click].
Proof.
  intros log. exists []. unfold _submit_application, _wrap_try_catch, call. cbn [app].
  split; [|intros []]. now destruct (raises log (click_button By_ID "btn-submit")).
Qed.

(** [_fill_out_basic_info] ends with the [KeyError] of the first key it
    lacks, or returns when it lacks none. *)
Lemma outcome_basic_info :
  outcome (_fill_out_basic_info user_info raises)
          match first_missing user_info basic_keys with
          | Some k => inl (KeyError k)
          | None => inr tt
          end [].
Proof.
  unfold first_missing, basic_keys, _fill_out_basic_info. cbn [find].
  repeat
    match goal with
    | |- context [user_info ?k] =>
        destruct (user_info k) as [?v|] eqn:?K;
        [ eapply outcome_lookup_some; [eassumption|];
          first [ apply outcome_bind_ok;
                  [ apply outcome_wrap;
                    first [ apply avoids_call; discriminate | apply avoids_location ] | ]
                | apply outcome_wrap; apply avoids_call; discriminate ]
        | apply outcome_lookup_none; assumption ]
    end.
Qed.

Lemma upload_resume_some (path : string) (log : list browser_call) :
  user_info "resume_path" = Some path ->
  _upload_resume user_info raises log =
  (log ++ [upload_file By_ID "resume-upload-input" path], inr tt)%list.
Proof.
  intros K. unfold _upload_resume, apply_bind, lookup, _wrap_try_catch, call.
  rewrite K. cbn. now destruct (raises log _).
Qed.

Lemma first_missing_required :
  first_missing user_info required_keys =
  match user_info "resume_path" with
  | None => Some "resume_path"
  | Some _ => first_missing user_info basic_keys
  end.
Proof.
  unfold first_missing, required_keys, basic_keys. cbn [find].
  now destruct (user_info "resume_path").
Qed.

(** What follows the resume upload in [_apply_to_job]. *)
Lemma outcome_after_upload :
  match first_missing user_info basic_keys with
  | Some k =>
      outcome (_fill_out_basic_info user_info raises ;;;
               _wrap_try_catch (_fill_out_custom_questions user_info raises questions) ;;;
               _submit_application raises) (inl (KeyError k)) []
  | None =>
      outcome (_fill_out_basic_info user_info raises ;;;
               _wrap_try_catch (_fill_out_custom_questions user_info raises questions) ;;;
               _submit_application raises) (inr tt) [submit_click]
  end.
Proof.
  pose proof outcome_basic_info as B.
  destruct (first_missing user_info basic_keys) as [k|].
  - apply outcome_bind_err. intros log. destruct (B log) as (a & E & N).
    exists a. rewrite app_nil_r in E. now split.
  - apply outcome_bind_ok; [exact B|].
    apply outcome_bind_ok; [|apply outcome_submit].
    apply outcome_wrap, avoids_custom_questions.
Qed.

(** X16. When [user_info] has the ten keys that [_apply_to_job] reads
    outside any [try] and the navigation does not raise, the application is
    always submitted: the call returns normally and its last browser call
    is the click on [btn-submit], whichever of the calls in between raise,
    the resume upload included. *)
Theorem apply_to_job_submits (url : option string) (log : list browser_call) :
  first_missing user_info required_keys = None ->
  raises log (navigate url) = false ->
  exists path before,
    user_info "resume_path" = Some path /\
    _apply_to_job user_info raises questions url log =
    (log ++ navigate url :: upload_file By_ID "resume-upload-input" path ::
         before ++ [submit_click], inr tt)%list /\
    ~ In submit_click before.
Proof.
  intros M N. rewrite first_missing_required in M.
  destruct (user_info "resume_path") as [path|] eqn:K; [|discriminate M].
  pose proof outcome_after_upload as O. rewrite M in O.
  destruct (O ((log ++ [navigate url]) ++ [upload_file By_ID "resume-upload-input" path])%list)
    as (before & E & NB).
  exists path, before. split; [reflexivity|]. split; [|exact NB].
  unfold _apply_to_job. unfold apply_bind at 1. unfold call at 1. rewrite N.
  unfold apply_bind at 1. rewrite (upload_resume_some path _ K).
  rewrite E. now rewrite <- !app_assoc.
Qed.

(** X17. When the navigation raises, [_apply_to_job] raises after that
    single call.  When [user_info] lacks one of the ten keys,
    [_apply_to_job] raises the [KeyError] of the first missing one and the
    form is not submitted: the submit click is not among its calls. *)
Theorem apply_to_job_aborts (url : option string) (log : list browser_call) :
  (raises log (navigate url) = true ->
     _apply_to_job user_info raises questions url log =
     (log ++ [navigate url], inl WebDriverException)%list) /\
  (forall k,
     raises log (navigate url) = false ->
     first_missing user_info required_keys = Some k ->
     exists added,
       _apply_to_job user_info raises questions url log = (log ++ added, inl (KeyError k))%list /\
       ~ In submit_click added).
Proof.
  split.
  - intros N. unfold _apply_to_job. unfold apply_bind at 1. unfold call at 1. now rewrite N.
  - intros k N M. rewrite first_missing_required in M.
    unfold _apply_to_job. unfold apply_bind at 1. unfold call at 1. rewrite N.
    destruct (user_info "resume_path") as [path|] eqn:K.
    + pose proof outcome_after_upload as O. rewrite M in O.
      destruct (O ((log ++ [navigate url]) ++
                   [upload_file By_ID "resume-upload-input" path])%list)
        as (added & E & NA).
      exists (navigate url :: upload_file By_ID "resume-upload-input" path :: added).
      unfold apply_bind at 1. rewrite (upload_resume_some path _ K), E.
      rewrite !app_nil_r, <- !app_assoc. split; [reflexivity|].
      intros [H|[H|H]]; [discriminate H | discriminate H | contradiction].
    + injection M as <-. exists [navigate url].
      unfold apply_bind at 1. unfold _upload_resume, apply_bind, lookup. rewrite K. cbn.
      split; [reflexivity|]. intros [H|[]]. discriminate H.
Qed.

End ApplyFacts.

Lemma click_attempts_app (l1 l2 : list browser_call) :
  click_attempts (l1 ++ l2) = (click_attempts l1 ++ click_attempts l2)%list.
Proof. unfold click_attempts. apply flat_map_app. Qed.

Section QuietBrowser.

Variable user_info : string -> option string.
Variable raises : list browser_call -> browser_call -> bool.
Variable questions : list Question.

(** No call to the browser raises. *)
Hypothesis no_call_raises : forall log c, raises log c = false.

Lemma call_quiet {A} (c : browser_call) (a : A) (log : list browser_call) :
  call raises c a log = (log ++ [c], inr a)%list.
Proof. unfold call. now rewrite no_call_raises. Qed.

Lemma answer_input_quiet (key answer v : string) (e : WebElement)
      (log : list browser_call) :
  user_info key = Some answer -> elem_value e = Some v ->
  answer_input user_info raises key e log =
  (log ++ get_attribute (elem_id e) "value" ::
       (if lower v =? lower answer then [click_element (elem_id e)] else []), inr tt)%list.
Proof.
  intros K V. unfold answer_input. unfold apply_bind at 1. rewrite call_quiet, V.
  unfold lower_of, apply_bind, lookup. rewrite K. unfold apply_ret. cbv beta iota.
  destruct (lower v =? lower answer); cbv beta iota.
  - unfold click_or_execute. rewrite call_quiet. now rewrite <- app_assoc.
  - reflexivity.
Qed.

Lemma answer_loop_quiet (key answer : string) (inputs : list WebElement)
      (log : list browser_call) :
  user_info key = Some answer ->
  Forall (fun e => elem_value e <> None) inputs ->
  exists added,
    apply_for (answer_input user_info raises key) inputs log = (log ++ added, inr tt)%list /\
    click_attempts added = selected_inputs answer inputs.
Proof.
  intros K H. revert log. induction H as [|e es He _ IH]; intros log.
  - exists []. cbn. now rewrite app_nil_r.
  - cbn [apply_for]. unfold apply_bind.
    destruct (elem_value e) as [v|] eqn:V; [|now elim He].
    rewrite (answer_input_quiet key answer v e log K V).
    unfold selected_inputs. cbn [filter]. rewrite V.
    destruct (IH (log ++ get_attribute (elem_id e) "value" ::
                      (if lower v =? lower answer then [click_element (elem_id e)] else []))%list)
      as (added & -> & C).
    exists ((get_attribute (elem_id e) "value" ::
             (if lower v =? lower answer then [click_element (elem_id e)] else [])) ++ added)%list.
    rewrite <- app_assoc. split; [reflexivity|].
    rewrite click_attempts_app, C.
    destruct (lower v =? lower answer); reflexivity.
Qed.

Lemma answer_with_quiet (key answer : string) (q : Question) (log : list browser_call) :
  user_info key = Some answer ->
  Forall (fun e => elem_value e <> None) (question_inputs q) ->
  exists added,
    answer_with user_info raises key q log = (log ++ added, inr tt)%list /\
    click_attempts added = selected_inputs answer (question_inputs q).
Proof.
  intros K H. unfold answer_with. unfold apply_bind at 1. rewrite call_quiet.
  destruct (answer_loop_quiet key answer (question_inputs q)
              (log ++ [find_elements_of_question (question_id q) By_TAG_NAME "input"])%list
              K H) as (added & -> & C).
  exists (find_elements_of_question (question_id q) By_TAG_NAME "input" :: added).
  rewrite <- app_assoc. split; [reflexivity|]. exact C.
Qed.

Lemma question_text_quiet (q : Question) (log : list browser_call) :
  question_text_lower raises q log =
  (log ++ [text_of_question (question_id q)], inr (lower (question_text q)))%list.
Proof. unfold question_text_lower, apply_bind. now rewrite call_quiet. Qed.

(** X18. On a browser in which no call raises, with both answers in
    [user_info] and a value on every input, [_fill_out_sponsorship] clicks
    exactly the inputs whose value equals the chosen answer up to letter
    case, in order: the [authorized] answer when the question text contains
    [eligible] or [author] in any letter case, even if it also contains
    [sponsor]; otherwise the [sponsor] answer when it contains [sponsor];
    and no input at all for any other question. *)
Theorem fill_out_sponsorship_choice (q : Question) (log : list browser_call)
        (authorized sponsor : string) :
  user_info "authorized" = Some authorized ->
  user_info "sponsor" = Some sponsor ->
  Forall (fun e => elem_value e <> None) (question_inputs q) ->
  exists added,
    _fill_out_sponsorship user_info raises q log = (log ++ added, inr tt)%list /\
    click_attempts added =
    if (str_in "eligible" (lower (question_text q)) ||
        str_in "author" (lower (question_text q)))%bool
    then selected_inputs authorized (question_inputs q)
    else if str_in "sponsor" (lower (question_text q))
         then selected_inputs sponsor (question_inputs q)
         else [].
Proof.
  intros Ka Ks H. unfold _fill_out_sponsorship.
  unfold apply_bind at 1. rewrite question_text_quiet.
  destruct (str_in "eligible" (lower (question_text q))).
  { destruct (answer_with_quiet "authorized" authorized q
                (log ++ [text_of_question (question_id q)])%list Ka H) as (added & -> & C).
    exists (text_of_question (question_id q) :: added).
    rewrite <- app_assoc. now split. }
  unfold apply_bind at 1. rewrite question_text_quiet.
  destruct (str_in "author" (lower (question_text q))).
  { destruct (answer_with_quiet "authorized" authorized q
                ((log ++ [text_of_question (question_id q)]) ++
                 [text_of_question (question_id q)])%list Ka H) as (added & -> & C).
    exists (text_of_question (question_id q) :: text_of_question (question_id q) :: added).
    rewrite <- !app_assoc. now split. }
  unfold apply_bind at 1. rewrite question_text_quiet.
  destruct (str_in "sponsor" (lower (question_text q))).
  { destruct (answer_with_quiet "sponsor" sponsor q
                (((log ++ [text_of_question (question_id q)]) ++
                  [text_of_question (question_id q)]) ++
                 [text_of_question (question_id q)])%list Ks H) as (added & -> & C).
    exists (text_of_question (question_id q) :: text_of_question (question_id q) ::
            text_of_question (question_id q) :: added).
    rewrite <- !app_assoc. now split. }
  exists [text_of_question (question_id q); text_of_question (question_id q);
          text_of_question (question_id q)].
  unfold apply_ret. rewrite <- !app_assoc. now split.
Qed.

(** X19. The custom questions are not isolated from one another.  On a
    browser in which no call raises, if the first question asks about
    eligibility and its first input has no value attribute, or has one but
    [user_info] lacks the [authorized] answer, then
    [_fill_out_custom_questions] raises at that input: no input is clicked,
    in this question or in any later one. *)
Theorem custom_questions_stop_at_first_error (q : Question) (rest : list Question)
        (e : WebElement) (es : list WebElement) (log : list browser_call) :
  questions = q :: rest ->
  str_in "eligible" (lower (question_text q)) = true ->
  question_inputs q = e :: es ->
  let calls :=
    [get_array_of_elements By_CLASS_NAME "custom-question";
     text_of_question (question_id q);
     find_elements_of_question (question_id q) By_TAG_NAME "input";
     get_attribute (elem_id e) "value"] in
  click_attempts calls = [] /\
  (elem_value e = None ->
     _fill_out_custom_questions user_info raises questions log =
     (log ++ calls, inl NoneAttributeError)%list) /\
  (elem_value e <> None -> user_info "authorized" = None ->
     _fill_out_custom_questions user_info raises questions log =
     (log ++ calls, inl (KeyError "authorized"))%list).
Proof.
  intros Q T I. cbv zeta. split; [reflexivity|].
  assert (E : forall r,
     answer_input user_info raises "authorized" e
       (((log ++ [get_array_of_elements By_CLASS_NAME "custom-question"]) ++
         [text_of_question (question_id q)]) ++
        [find_elements_of_question (question_id q) By_TAG_NAME "input"])%list =
     ((((log ++ [get_array_of_elements By_CLASS_NAME "custom-question"]) ++
         [text_of_question (question_id q)]) ++
        [find_elements_of_question (question_id q) By_TAG_NAME "input"]) ++
       [get_attribute (elem_id e) "value"], inl r)%list ->
     _fill_out_custom_questions user_info raises questions log =
     (log ++ [get_array_of_elements By_CLASS_NAME "custom-question";
              text_of_question (question_id q);
              find_elements_of_question (question_id q) By_TAG_NAME "input";
              get_attribute (elem_id e) "value"], inl r)%list).
  { intros r Hr. unfold _fill_out_custom_questions. unfold apply_bind at 1.
    rewrite call_quiet, Q. cbn [apply_for]. unfold apply_bind at 1.
    unfold _fill_out_sponsorship. unfold apply_bind at 1.
    rewrite question_text_quiet, T.
    unfold answer_with. unfold apply_bind at 1. rewrite call_quiet, I.
    cbn [apply_for]. unfold apply_bind at 1.
    rewrite Hr. now rewrite <- !app_assoc. }
  split.
  - intros V. apply E. unfold answer_input. unfold apply_bind at 1.
    rewrite call_quiet, V. reflexivity.
  - intros V K. apply E. unfold answer_input. unfold apply_bind at 1.
    rewrite call_quiet. destruct (elem_value e) as [v|]; [|now elim V].
    unfold lower_of, apply_bind, apply_ret, lookup. now rewrite K.
Qed.

End QuietBrowser.

Lemma apply_to_job_submits_witness :
  exists path before,
    sample_user_info "resume_path" = Some path /\
    _apply_to_job sample_user_info sample_flaky [sample_question_no_value; sample_question]
                  (Some "lever.co/acme/123/apply") [] =
    ([] ++ navigate (Some "lever.co/acme/123/apply") ::
        upload_file By_ID "resume-upload-input" path :: before ++ [submit_click], inr tt)%list /\
    ~ In submit_click before.
Proof.
  apply (apply_to_job_submits sample_user_info sample_flaky
           [sample_question_no_value; sample_question]
           (Some "lever.co/acme/123/apply") []); reflexivity.
Defined.

Lemma apply_to_job_aborts_witness :
  _apply_to_job sample_user_info sample_offline [sample_question]
                (Some "lever.co/acme/123/apply") [] =
  ([] ++ [navigate (Some "lever.co/acme/123/apply")], inl WebDriverException)%list /\
  exists added,
    _apply_to_job sample_user_info_partial quiet [sample_question]
                  (Some "lever.co/acme/123/apply") [] =
    ([] ++ added, inl (KeyError "name"))%list /\
    ~ In submit_click added.
Proof.
  split.
  - apply (proj1 (apply_to_job_aborts sample_user_info sample_offline [sample_question]
                    (Some "lever.co/acme/123/apply") [])). reflexivity.
  - apply (proj2 (apply_to_job_aborts sample_user_info_partial quiet [sample_question]
                    (Some "lever.co/acme/123/apply") []) "name"); reflexivity.
Defined.

Lemma fill_out_sponsorship_choice_witness :
  exists added,
    _fill_out_sponsorship sample_user_info quiet sample_question [] = ([] ++ added, inr tt)%list /\
    click_attempts added = [10].
Proof.
  refine (fill_out_sponsorship_choice sample_user_info quiet (fun _ _ => eq_refl)
            sample_question [] "Yes" "No" eq_refl eq_refl _).
  repeat constructor; discriminate.
Defined.

Lemma custom_questions_stop_at_first_error_witness :
  _fill_out_custom_questions sample_user_info quiet
    [sample_question_no_value; sample_question] [] =
  ([] ++ [get_array_of_elements By_CLASS_NAME "custom-question";
          text_of_question 2;
          find_elements_of_question 2 By_TAG_NAME "input";
          get_attribute 20 "value"], inl NoneAttributeError)%list /\
  _fill_out_custom_questions sample_user_info_partial quiet
    [sample_question_eligible; sample_question] [] =
  ([] ++ [get_array_of_elements By_CLASS_NAME "custom-question";
          text_of_question 3;
          find_elements_of_question 3 By_TAG_NAME "input";
          get_attribute 30 "value"], inl (KeyError "authorized"))%list.
Proof.
  split.
  - apply (proj1 (proj2 (custom_questions_stop_at_first_error sample_user_info quiet
                           [sample_question_no_value; sample_question] (fun _ _ => eq_refl)
                           sample_question_no_value [sample_question]
                           (mkElement 20 None) [mkElement 21 (Some "yes")] []
                           eq_refl eq_refl eq_refl))).
    reflexivity.
  - apply (proj2 (proj2 (custom_questions_stop_at_first_error sample_user_info_partial quiet
                           [sample_question_eligible; sample_question] (fun _ _ => eq_refl)
                           sample_question_eligible [sample_question]
                           (mkElement 30 (Some "Yes")) [mkElement 31 (Some "No")] []
                           eq_refl eq_refl eq_refl))).
    + discriminate.
    + reflexivity.
Defined.

(* ------------------------------------------------------------------------- *)
(** ** demo.py: the application loop on the browser that was quit *)
(* ------------------------------------------------------------------------- *)

Lemma unique_nil (l : list (option string)) : unique l = [] <-> l = [].
Proof. destruct l; split; intros H; try reflexivity; discriminate H. Qed.

(** The loop has nothing to iterate over exactly when every row is marked
    as applied to. *)
Lemma not_applied_urls_nil (F : Type) (scraped_jobs : list (PostingRecord F)) :
  not_applied_urls scraped_jobs = [] <->
  Forall (fun r => rec_applied r = true) scraped_jobs.
Proof.
  unfold not_applied_urls. rewrite unique_nil. split.
  - intros H. apply map_eq_nil in H. apply Forall_forall. intros r Hr.
    destruct (rec_applied r) eqn:E; [reflexivity|].
    assert (Hin : In r (filter (fun r => negb (rec_applied r)) scraped_jobs))
      by (apply filter_In; now rewrite E).
    rewrite H in Hin. destruct Hin.
  - intros H. induction H as [|r rest Hr _ IH]; [reflexivity|].
    cbn [filter]. rewrite Hr. exact IH.
Qed.

Section DemoFacts.

Variable F : Type.
Variable user_info : string -> option string.
Variable raises : list browser_call -> browser_call -> bool.
Variable questions_of : option string -> list Question.

(** Selenium: a driver that was quit accepts no navigation. *)
Hypothesis closed_after_quit :
  forall log url, In quit log -> raises log (navigate url) = true.

(** X20. [demo.py] quits the browser at the end of its scraping part and
    then runs the application loop on that same browser, and
    [_apply_to_job] navigates outside any [try].  So, given that a driver
    that was quit raises on navigation, the script as written submits no
    application and marks no row.  When every row of the table is marked
    already the loop is empty and the table is written back as it was
    read; otherwise the first navigation raises, the script ends there,
    and the table is not written back.  (If [quit] itself raises, the
    script ends at that call.) *)
Theorem demo_apply_after_quit (scraped_jobs : list (PostingRecord F))
        (log : list browser_call) :
  (raises log quit = true ->
     demo_apply F user_info raises questions_of scraped_jobs log =
     (log ++ [quit], inl WebDriverException)%list) /\
  (raises log quit = false ->
     Forall (fun r => rec_applied r = true) scraped_jobs ->
     demo_apply F user_info raises questions_of scraped_jobs log =
     (log ++ [quit], inr scraped_jobs)%list) /\
  (raises log quit = false ->
     forall iUrl rest, not_applied_urls scraped_jobs = iUrl :: rest ->
     demo_apply F user_info raises questions_of scraped_jobs log =
     (log ++ [quit; navigate iUrl], inl WebDriverException)%list) /\
  (exists added r,
     demo_apply F user_info raises questions_of scraped_jobs log = (log ++ added, r)%list /\
     submit_count added = 0 /\
     (forall jobs', r = inr jobs' ->
        jobs' = scraped_jobs /\ Forall (fun r => rec_applied r = true) scraped_jobs)).
Proof.
  assert (Quit : raises log quit = true ->
            demo_apply F user_info raises questions_of scraped_jobs log =
            (log ++ [quit], inl WebDriverException)%list).
  { intros Q. unfold demo_apply, apply_bind, call. now rewrite Q. }
  assert (Empty : raises log quit = false -> not_applied_urls scraped_jobs = [] ->
            demo_apply F user_info raises questions_of scraped_jobs log =
            (log ++ [quit], inr scraped_jobs)%list).
  { intros Q E. unfold demo_apply, apply_bind, call. now rewrite Q, E. }
  assert (First : raises log quit = false ->
            forall iUrl rest, not_applied_urls scraped_jobs = iUrl :: rest ->
            demo_apply F user_info raises questions_of scraped_jobs log =
            (log ++ [quit; navigate iUrl], inl WebDriverException)%list).
  { intros Q iUrl rest E. unfold demo_apply. unfold apply_bind at 1. unfold call at 1.
    rewrite Q, E. cbn [apply_loop]. unfold apply_bind at 1.
    unfold _apply_to_job. unfold apply_bind at 1. unfold call at 1.
    rewrite closed_after_quit by (apply in_or_app; right; now left).
    now rewrite <- app_assoc. }
  split; [exact Quit|]. split; [|split; [exact First|]].
  - intros Q A. apply Empty; [exact Q|]. now apply not_applied_urls_nil.
  - destruct (raises log quit) eqn:Q.
    + exists [quit], (inl WebDriverException). split; [now apply Quit|].
      split; [reflexivity | discriminate].
    + destruct (not_applied_urls scraped_jobs) as [|iUrl rest] eqn:E.
      * exists [quit], (inr scraped_jobs). split; [now apply Empty|].
        split; [reflexivity|]. intros jobs' [= <-]. split; [reflexivity|].
        now apply not_applied_urls_nil.
      * exists [quit; navigate iUrl], (inl WebDriverException).
        split; [now apply (First eq_refl iUrl rest)|].
        split; [reflexivity | discriminate].
Qed.

End DemoFacts.

Lemma demo_apply_after_quit_witness :
  demo_apply Z sample_user_info sample_closed (fun _ => [sample_question])
             [sample_record; LeverJob_export_blank Z] [] =
  ([quit; navigate (rec_apply sample_record)], inl WebDriverException).
Proof.
  refine (proj1 (proj2 (proj2 (demo_apply_after_quit Z sample_user_info sample_closed
                                 (fun _ => [sample_question]) _
                                 [sample_record; LeverJob_export_blank Z] [])))
            eq_refl (rec_apply sample_record) [None] _).
  - intros log url H. apply existsb_exists. exists quit. now split.
  - reflexivity.
Defined.

(* ------------------------------------------------------------------------- *)
(** ** Application links whose only [apply] is the last segment *)
(* ------------------------------------------------------------------------- *)

Lemma prefix_app_short (o x y : string) :
  String.length o <= String.length x -> prefix o (x ++ y) = prefix o x.
Proof.
  revert x; induction o as [|a o IH]; intros x L.
  - now rewrite !prefix_nil_l.
  - destruct x as [|b x]; [simpl in L; lia|].
    change (String b x ++ y) with (String b (x ++ y)). cbn [prefix].
    destruct (ascii_dec a b); [|reflexivity]. apply IH. simpl in L. lia.
Qed.

Lemma replace_apply_suffix (p : string) :
  str_in "apply" (p ++ "appl") = false ->
  replace "apply" "" (p ++ "apply") = p.
Proof.
  change (replace "apply" "" (p ++ "apply")) with (replace_from "apply" "" 0 (p ++ "apply")).
  induction p as [|c p IH]; intros H; [reflexivity|].
  change (String c p ++ "appl") with (String c (p ++ "appl")) in H.
  rewrite str_in_cons in H. apply orb_false_iff in H as [H1 H2].
  change (String c p ++ "apply") with (String c (p ++ "apply")).
  cbn [replace_from].
  assert (P : prefix "apply" (String c (p ++ "apply")) = false).
  { change (String c (p ++ "apply")) with (String c p ++ "apply").
    change "apply" with ("appl" ++ "y") at 2. rewrite <- str_app_assoc.
    rewrite prefix_app_short; [exact H1|].
    rewrite str_app_length. simpl. lia. }
  rewrite P. f_equal. now apply IH.
Qed.

(** X21. For an application link [q/apply] in which [apply] occurs nowhere
    else, [_process_links] gives the link as application URL and [q/], the
    link without its last segment and with the slash kept, as description
    URL. *)
Theorem process_links_apply_side (url q : string) :
  _validate_link url (q ++ "/apply") = true ->
  str_in "apply" (q ++ "/appl") = false ->
  _process_links url [q ++ "/apply"] =
  [{| link_desc := Some (q ++ "/"); link_apply := Some (q ++ "/apply") |}].
Proof.
  intros V H. simpl. rewrite V. unfold link_record.
  assert (L : lower (last (split "/" (q ++ "/apply")) "") = "apply").
  { change (q ++ "/apply") with (q ++ String "/" "apply").
    rewrite split_app_sep, last_app_nonempty by discriminate. reflexivity. }
  rewrite L. change (negb ("apply" =? "apply")) with false. cbv iota.
  f_equal. f_equal. f_equal.
  change (q ++ "/apply") with (q ++ "/" ++ "apply"). rewrite <- str_app_assoc.
  apply replace_apply_suffix. now rewrite str_app_assoc.
Qed.

Lemma process_links_apply_side_witness :
  _process_links Lever_url ["lever.co/acme/123" ++ "/apply"] =
  [{| link_desc := Some ("lever.co/acme/123" ++ "/");
      link_apply := Some ("lever.co/acme/123" ++ "/apply") |}].
Proof.
  apply (process_links_apply_side Lever_url "lever.co/acme/123"); reflexivity.
Defined.

(* ------------------------------------------------------------------------- *)
(** ** Composition of classification, and the two text fields *)
(* ------------------------------------------------------------------------- *)

(** X22. Classification composes over concatenation: the verdict on two
    token lists one after the other is the verdict on the first when it has
    one, and otherwise the verdict on the second; in particular tokens
    after a decisive one are never looked at. *)
Theorem validate_location_app (T : ReferenceTables) (l1 l2 : list string) :
  _validate_location_in_usa (l1 ++ l2)%list T =
  match _validate_location_in_usa l1 T with
  | Some b => Some b
  | None => _validate_location_in_usa l2 T
  end.
Proof.
  induction l1 as [|t l1 IH]; [reflexivity|].
  change ((t :: l1) ++ l2)%list with (t :: (l1 ++ l2))%list.
  cbn [_validate_location_in_usa].
  destruct ((String.length t =? 2)%nat &&
            _check_if_exists_in_array t (us_states_abbreviated T))%bool; [reflexivity|].
  destruct (_check_if_exists_in_array t (foreign_countries T)); [reflexivity|].
  destruct (_check_if_exists_in_array t (us_states_full T)); [reflexivity|].
  destruct (_check_if_exists_in_array t (us_cities T)); [reflexivity|].
  destruct (_check_if_exists_in_array t (non_us_cities T)); [reflexivity|].
  exact IH.
Qed.

Section TextFields.

Variable F : Type.

(** X23. The description is read from the second section of the page and
    the qualifications from the third: with fewer than two sections both
    are absent, with exactly two the description is set and the
    qualifications are absent, and the qualifications are never set
    without the description. *)
Theorem parse_desc_and_qual_sections (self : LeverJob F) :
  let self' := _parse_desc_and_qual self in
  (List.length (sections (job_page_source self)) < 2 ->
     desc self' = None /\ qual self' = None) /\
  (List.length (sections (job_page_source self)) = 2 ->
     desc self' <> None /\ qual self' = None) /\
  (qual self' <> None -> desc self' <> None) /\
  (forall s0 s1 s2 more,
     sections (job_page_source self) = s0 :: s1 :: s2 :: more ->
     desc self' = Some (_clean_desc_and_qual s1) /\
     qual self' = Some (_clean_desc_and_qual s2)).
Proof.
  cbv zeta. rewrite parse_desc_and_qual_eq. cbn [desc qual set_desc set_qual].
  destruct (sections (job_page_source self)) as [|s0 [|s1 [|s2 more]]]; cbn.
  - repeat split; try congruence; try lia; intros; discriminate.
  - repeat split; try congruence; try lia; intros; discriminate.
  - repeat split; try congruence; try lia; intros; discriminate.
  - repeat split; try congruence; try lia.
Qed.

End TextFields.

Lemma parse_desc_and_qual_sections_witness :
  desc (_parse_desc_and_qual (LeverJob_init Z sample_page None None "")) =
    Some (_clean_desc_and_qual ["Build models"; "[x]"]) /\
  qual (_parse_desc_and_qual (LeverJob_init Z sample_page None None "")) =
    Some (_clean_desc_and_qual ["Python"; "SQL"]).
Proof.
  apply (proj2 (proj2 (proj2 (parse_desc_and_qual_sections Z
                                (LeverJob_init Z sample_page None None ""))))
           ["intro"] ["Build models"; "[x]"] ["Python"; "SQL"] []).
  reflexivity.
Defined.
